(* ===== verification/_CoqProject ===== *)
-Q . S2P
Prelude.v
Types.v
Json.v
Codec.v
JsonCodec.v
Reader.v
Category.v
LatestKnown.v
Decider.v
Retry.v
ContactPreferences.v
InvoiceAutoEmailer.v
InvoiceCodec.v
InvoiceService.v
ContactPreferencesWire.v
