(* ===== verification/Prelude.v ===== *)
(** * EquinoxJS: a verification development

    EquinoxJS is an event-sourcing library.  An entity is a stream of
    events; its state is the fold of the events; a [Decider] loads the state,
    runs a decision, and appends the events the decision returns under an
    expected version, retrying on a version conflict.  A codec maps typed
    events to and from the stored form.  Applications (two domain services
    under [src/apps]) are built from these parts.

    ** Files, in dependency order
    - [Prelude] (this file): the [error] taxonomy of the spec (section 7),
      a throwing-computation type [result] with stdpp's monad notation,
      [collect_defined] ("decode every event, skip the unknown ones"), stream
      versions, the [equinox] hint databases and the [res_inv] tactic.
    - [Types]: [StreamEvent] and [TimelineEvent] (the stored and read-back
      event), stream names, the [Codec] record of
      [packages/core/src/lib/Codec.ts] (lines 8-12), and the two interfaces
      the engine relies on, as type classes: [CodecRoundtrip] (decoding
      inverts encoding) and [Composable] (the fold is incrementally
      composable, spec section 3).
    - [Json]: JS values ([jsval]) and the built-ins [JSON.stringify]
      ([print], [stringify]) and [JSON.parse] ([parse_value] with fuel,
      [parse]), with the round trip [parse_stringify]: parsing the printed
      text of a value whose objects have distinct keys gives the value
      back, dates as their ISO text ([normalize]); and what [JSON.parse]
      returns is a JSON value ([parse_closed]: a property closed under the
      parser's constructors holds of every result), so it holds no [Date]
      ([parse_plain]).
    - [Codec]: [Codec.ts] itself: [PassThroughCodec], and the static
      methods of [AsyncCodec] in [Module AsyncCodec]: [map] (payloads
      mapped only when truthy, the data's decoding before the meta's),
      [deflate] (the smaller of the raw and the deflated JSON text, tagged
      [1] when deflated; [zlib] is the class [Deflater] with its round-trip
      law) and [unsafeEmpty].  Concrete instances ([rle_deflater],
      [demo_date]) let the witnesses compute.
    - [JsonCodec]: [Codec.json] and [Codec.upcast] (core library code not
      under [src/], modelled from spec 4.1 and from what the tests of
      [Codec.test.ts] show: [encode] keeps the event's id and writes a
      truthy payload as text, [tryDecode] parses each present text,
      throwing on one [JSON.parse] rejects, and returns type, payload and
      metadata without the id), the custom validators [date]
      and [schema] of [packages/core/test/Codec.test.ts], and its two zod
      schemas (a datetime string turned into a [Date]; [z.date()]).
    - [Reader]: the category reader and the checkpoint store of the
      message-db consumer (spec 4.5, 4.6; not under [src/]) and the
      fixtures of its test [reader.test.mts]: [readCategoryMessages]
      (condition gated by the store flag, consumer-group shards, batch
      checkpoint and [isTail]), the checkpoint store and the dispatcher
      loop [dispatch] / [consume].  Each test of the file is a boolean
      ([test_read_category], [test_condition_refused],
      [test_condition_read], [test_consumer_groups]) over the store the
      test runs against, on a Postgres session ([PgSession]: the server's,
      the session's and the transaction-local value of
      [message_store.sql_condition], [set_config], the implicit
      transaction of a [pool.query] statement); line 44 is
      [pool_set_config_sql_condition].
    - [Category]: the Category Store and its cache (spec 4.2, 4.3): the
      store is a [gmap] from stream name to its list of events, the cache a
      [gmap] from stream name to (version, state); [load] under the three
      load options, [sync] (append under an expected version).
    - [LatestKnown]: the access strategies of a category; [load_latest],
      the load of a category created with [LatestKnownEvent], reads the
      stream's last event only ([read_last]) and folds it onto [initial].
    - [Decider]: the transaction engine (spec 4.4) as an interleaving
      semantics: a [World] holds the store, the process-wide cache, the
      external effects of [decide] callbacks, the transactions (each a
      program counter [TxnPc]: load, decide, sync, done) and a ghost
      history of commits.  [txn_step] is one step of one transaction,
      [env_step] an append by another process.  [txn_next] and
      [run_schedule] execute a given interleaving; [seq_runs] runs
      transactions one after another, each alone on the store.
    - [Retry]: how many attempts the engine needs: the ghost invariant
      [retry_inv] pays every conflict of a transaction with a commit of
      another one.
    - [ContactPreferences]: [apps/store-integration/src/domain/ContactPreferences.ts].
    - [InvoiceAutoEmailer]: [apps/example/src/domain/invoice-auto-emailer.ts]:
      the [sendEmail] decision and transaction, and the reaction handler
      [createHandler] (the [Invoice] stream matcher and event decoder, not
      under [src/], are parameters).
    - [InvoiceCodec]: the wire codec of the same file (lines 12-33): the
      upcast JSON codec with the zod schemas written out field by field.
    - [InvoiceService]: the [Service] class of the same file (lines
      40-96): [resolveCategory] (the memory store, or a Message DB
      category with [LatestKnownEvent]), [create], [forStream], and
      [first_attempt], the decision a [sendEmail] call of a process with
      an empty cache makes on its first attempt.
    - [ContactPreferencesWire]: the contact-preferences service run on
      JavaScript values, as the program runs: [Codec.json] as its codec,
      [evolve] returning [undefined] for another [type] and throwing on a
      missing payload, ramda's [equals] ([js_equals]).

    The store, engine and JSON/upcast codec code of the repository is not
    under [src/]: the [Category], [Decider] and [JsonCodec] files model it
    from the spec.  [Codec.ts], the validators of its test and the two
    applications are modelled from the source.

    ** What the theorems show
    - Category: a load through a coherent cache returns exactly the fold of
      the whole stream ([load_fresh_spec], a refinement of the uncached
      load); [load] and [sync] keep the cache coherent (its entries are folds
      of prefixes of the stream) as long as the codec round-trips.
    - Decider: [world_inv] (cache coherence, every transaction's view is a
      prefix of its stream, every commit was decided on the exact prefix it
      was appended after) holds in
      every reachable world, under any interleaving and any writes of other
      processes; every transaction step lowers [world_measure], so every
      interleaving terminates and every transaction finishes
      ([transactions_complete]); a transaction run alone commits on its
      first attempt ([transact_isolated_outcome]) and reaches one final
      world only ([single_txn_final_unique]); the scheduler is sound and
      complete for the step relation.  With no writer outside the
      process, [max_attempts] no smaller than the number of transactions
      is never exhausted, and each conflict a transaction meets is paid
      for by a commit of another transaction to its stream
      ([retries_suffice]).
    - ContactPreferences: the fold composes; [update] converges and is
      idempotent; update-then-read returns the requested preferences.  On
      JavaScript values the service computes what the typed model does on
      the streams it writes ([wire_service_refines]); but one event of
      another type last in the stream makes it read [undefined] and append
      on every update ([foreign_event_reads_undefined]), and one event
      without payload makes every read and update throw
      ([missing_payload_blocks_client]).
    - InvoiceAutoEmailer: the decision's behaviour on every branch; once
      [EmailSent] is recorded nothing more is sent; sequential calls send
      at most one e-mail, also when [createHandler] is handed the same
      [InvoiceRaised] again and again, and when the payer lookup rejects
      ([handler_sends_at_most_once]: calls awaited one after another, run
      as transactions on the store, hand the mailer exactly the e-mails of
      the reference [run_sequential]); a rejected payer lookup is thrown
      before any e-mail ([sendEmail_decide_spec]); but two concurrent
      calls can both send it
      ([concurrent_sendEmail_sends_twice]), since the e-mail is sent inside
      [decide], before the append that optimistic concurrency protects.
    - Codecs: [deflate] is invisible to the reader (decoding what it wrote
      is decoding what the inner codec wrote, through JSON), so it keeps
      a codec's round trip; its encoder stores the shorter form; the
      upcast codec skips unknown types and throws on invalid payloads of
      known ones, and gives back valid ones without their id; Scenario E
      holds except for the id, which the JSON codec drops on decode
      ([scenario_E]); the scenarios of [Codec.test.ts] hold for every
      [Date] text format; [JSON.parse] never builds a [Date]
      ([parse_plain]), so the [z.date()] codec of the test decodes no
      event at all ([zod_date_never_decodes]).
    - Reader: a read fails only on a condition the store has not
      activated; consumer groups partition a category (every message
      reaches exactly one member, [consumer_groups_partition]); appends
      keep global positions increasing and checkpoints are monotone in
      the read position ([checkpoint_monotone]); the tests of
      [reader.test.mts]: the plain read passes, and of the two condition
      tests exactly one passes whatever the server setting, since the
      test's [set_config] is local to its own transaction
      ([reader_test_scenarios]); the consumer-group test passes exactly
      when the hash sends a stream to each member
      ([consumer_groups_test_passes_iff]), while disjointness and coverage
      hold for every hash ([consumer_group_test]); but a dispatcher that
      resumes from its stored checkpoint reads the last message again, and
      with a batch size of 1 never advances ([dispatch_livelock]).
    - InvoiceCodec: valid events round-trip; whatever the store holds,
      a decoded event has the types the zod schemas give it
      ([decoded_events_typed]); but an [EmailSent] whose
      address the schema rejects is appended and then makes every load of
      the stream from an empty cache throw
      ([invalid_email_poisons_stream]).
    - LatestKnown and InvoiceService: for a fold determined by the last
      event, the latest-known load agrees with the full load unless the
      stream ends with an event the codec does not know
      ([latest_known_agrees]); after [EmailSent] and an unknown event the
      service [Service.create] builds for Message DB sends the e-mail
      again, the one for the memory store does not
      ([messagedb_config_resends]).

    ** Bounds and fuel
    Only [JSON.parse] uses fuel: [parse] gives it one unit per character
    plus one, and [parses_back_all] shows that any fuel above the size of
    the value ([jsize], at most the length of its text) suffices.
    Retries are bounded by [max_attempts] (a parameter; the library's
    default is 3), and [retries_suffice] shows which values are enough; termination of the engine is proved with a measure,
    [3 * (max 1 max_attempts - attempt) + k] per transaction, which every
    step lowers.  The consumer loop [consume] runs a given number of turns.

    ** Not modelled
    JavaScript promises are modelled as the values they resolve to (no
    interleaving happens inside one step: the only suspension points are
    the steps of [txn_step]).  Event timestamps, [isUnfold] and [size] of
    timeline events, SHA-256 and other library calls (kept as parameters:
    zlib, zod's e-mail and uuid checks, [Date] text), fractional numbers in
    JSON, the SQL of the message store (a condition is the predicate it
    stands for; the consumer-group hash is a parameter), the payer
    service, the mailer and the configuration object of the example
    application (parameters of [InvoiceService]; only the store it names
    is modelled), the cache of a latest-known category (its load is
    compared from an empty cache), and the documentation site
    ([docs/docusaurus.config.js]: a configuration object of the site
    generator, which the spec puts out of scope) are not modelled.
*)

From stdpp Require Export base list gmap strings pretty.
From Stdlib Require Export ZArith Lia Ascii.

Declare Scope equinox_scope.
Delimit Scope equinox_scope with eqx.
Open Scope equinox_scope.

(** ** The failures the engine surfaces (spec section 7)

    JavaScript throws; the model makes every throw a value of [error]. *)
Inductive error :=
| SyntaxError                          (** [JSON.parse] on malformed text *)
| InflateError                         (** [zlib.inflateRaw] on a corrupt stream *)
| UpcastValidationError (ty : string)  (** a registered validator threw *)
| ConditionNotActivated                (** the store refuses [condition] *)
| MaxResyncsExhausted (attempts : nat) (** conflict retries used up *)
| UserError (msg : string).            (** the [decide] callback threw *)

Global Instance error_eq_dec : EqDecision error.
Proof. solve_decision. Defined.

(** ** A throwing computation *)
Inductive result (A : Type) : Type :=
| Ok (a : A)
| Err (e : error).
Arguments Ok {A} a.
Arguments Err {A} e.

Global Instance result_ret : MRet result := λ A a, Ok a.
Global Instance result_bind : MBind result :=
  λ A B f r, match r with Ok a => f a | Err e => Err e end.
Global Instance result_fmap : FMap result :=
  λ A B f r, match r with Ok a => Ok (f a) | Err e => Err e end.

Notation "'throw' e" := (Err e) (at level 10, e at level 9) : equinox_scope.

(** [Array.prototype.map] with a throwing callback, keeping only the
    defined results: the shape of "decode every event, skip the unknown
    ones" ([undefined] is [None]). The first throw wins. *)
Fixpoint collect_defined {A B} (f : A → result (option B)) (l : list A)
    : result (list B) :=
  match l with
  | [] => Ok []
  | x :: l' =>
      o ← f x;
      rest ← collect_defined f l';
      Ok (match o with Some b => b :: rest | None => rest end)
  end.

(** Stream versions: the position of the last event, [-1] when empty. *)
Definition version_of_length (n : nat) : Z := (Z.of_nat n - 1)%Z.


(** Replacing one element of a list by a smaller one lowers the sum. *)
Lemma sum_list_with_insert_lt {A} (f : A → nat) (l : list A) i x y :
  l !! i = Some y → f x < f y → sum_list_with f (<[i := x]> l) < sum_list_with f l.
Proof.
  revert i; induction l as [|z l IH]; intros [|i] Hl Hlt; simpl in *; try done.
  - injection Hl as ->. lia.
  - specialize (IH i Hl Hlt). lia.
Qed.

(** ** Automation shared by the components *)
Create HintDb equinox discriminated.
Create Rewrite HintDb equinox_rw.

Lemma bind_Ok {A B} (a : A) (f : A → result B) : (Ok a ≫= f) = f a.
Proof. reflexivity. Qed.

Lemma bind_Err {A B} (e : error) (f : A → result B) : (Err e ≫= f) = Err e.
Proof. reflexivity. Qed.

Lemma bind_Ok_inv {A B} (r : result A) (f : A → result B) b :
  (r ≫= f) = Ok b → ∃ a, r = Ok a ∧ f a = Ok b.
Proof. destruct r; simpl; [eauto | discriminate]. Qed.

Lemma bind_Err_inv {A B} (r : result A) (f : A → result B) e :
  (r ≫= f) = Err e → r = Err e ∨ ∃ a, r = Ok a ∧ f a = Err e.
Proof. destruct r; simpl; eauto. intros [= ->]; auto. Qed.

(** A filter that keeps every element. *)
Lemma filter_all {A} (P : A → Prop) `{∀ x, Decision (P x)} l : Forall P l → filter P l = l.
Proof. induction 1; [done|]. rewrite filter_cons, decide_True by done. by f_equal. Qed.

Lemma collect_defined_app {A B} (f : A → result (option B)) l1 l2 :
  collect_defined f (l1 ++ l2) =
    (r1 ← collect_defined f l1; r2 ← collect_defined f l2; Ok (r1 ++ r2)).
Proof.
  induction l1 as [|x l1 IH]; simpl.
  - by destruct (collect_defined f l2).
  - destruct (f x) as [[b|]|e]; simpl; [| |done]; rewrite IH;
      destruct (collect_defined f l1); simpl; try done;
      destruct (collect_defined f l2); done.
Qed.

(** When no element throws, [collect_defined] is [omap] of the results. *)
Lemma collect_defined_total {A B} (f : A → result (option B)) (g : A → option B) l :
  (∀ x, x ∈ l → f x = Ok (g x)) → collect_defined f l = Ok (omap g l).
Proof.
  induction l as [|x l IH]; intros Hf; simpl; [done|].
  rewrite Hf by set_solver. simpl. rewrite IH by set_solver. simpl.
  by destruct (g x).
Qed.

Lemma version_of_length_inj n m :
  version_of_length n = version_of_length m → n = m.
Proof. unfold version_of_length. lia. Qed.

Lemma version_of_length_ge n : (-1 ≤ version_of_length n)%Z.
Proof. unfold version_of_length. lia. Qed.

Lemma version_of_length_S n : version_of_length (S n) = Z.of_nat n.
Proof. unfold version_of_length. lia. Qed.

#[export] Hint Resolve version_of_length_ge : equinox.
#[export] Hint Rewrite @bind_Ok @bind_Err @collect_defined_app : equinox_rw.

(** Invert the equations a throwing computation leaves in hypotheses. *)
Ltac res_inv :=
  repeat match goal with
  | H : Ok _ = Ok _ |- _ => injection H; clear H; intros; subst
  | H : Err _ = Ok _ |- _ => discriminate H
  | H : Ok _ = Err _ |- _ => discriminate H
  | H : (_ ≫= _) = Ok _ |- _ =>
      let a := fresh "a" in let Ha := fresh "Ha" in
      apply bind_Ok_inv in H as (a & Ha & H)
  end.
