(* ===== verification/Types.v ===== *)
(** * Events on the wire, stream names, the codec and fold interfaces

    [StreamEvent] and [TimelineEvent] are the records of
    [packages/core/src/lib/Types.ts] (not in the staged sources: modelled
    from the spec, section 3).  [Codec] is the type of
    [packages/core/src/lib/Codec.ts].  [Composable] is the law the spec puts
    on every application fold (section 3, "incrementally composable"). *)

From S2P Require Import Prelude.

(** An event as written: [{ id?, type, data?, meta? }]. [None] is [undefined]. *)
Record StreamEvent (F : Type) := mkStreamEvent {
  se_id : option string;
  se_type : string;
  se_data : option F;
  se_meta : option F
}.
Arguments mkStreamEvent {F} _ _ _ _.
Arguments se_id {F} _.
Arguments se_type {F} _.
Arguments se_data {F} _.
Arguments se_meta {F} _.

(** An event as read back: the store adds its id and its stream position
    ([index], from 0).  [time], [isUnfold] and [size] are not modelled. *)
Record TimelineEvent (F : Type) := mkTimelineEvent {
  te_id : string;
  te_type : string;
  te_index : Z;
  te_data : option F;
  te_meta : option F
}.
Arguments mkTimelineEvent {F} _ _ _ _ _.
Arguments te_id {F} _.
Arguments te_type {F} _.
Arguments te_index {F} _.
Arguments te_data {F} _.
Arguments te_meta {F} _.

(** How a store turns a written event into the event it reads back: the
    event's own id when it has one, else the id the store generates. *)
Definition to_timeline {F} (fresh : string) (idx : Z) (e : StreamEvent F)
    : TimelineEvent F :=
  mkTimelineEvent (default fresh (se_id e)) (se_type e) idx (se_data e) (se_meta e).

(** ** Stream names: [StreamName.create(category, streamId)] is
    [category + "-" + streamId]; the category is the part before the first
    dash. *)
Definition stream_name_create (category stream_id : string) : string :=
  category +:+ "-" +:+ stream_id.

Fixpoint category_of (sn : string) : string :=
  match sn with
  | EmptyString => EmptyString
  | String c rest => if Ascii.eqb c "-"%char then EmptyString else String c (category_of rest)
  end.

Definition no_dash (s : string) : Prop := ¬ ("-"%char ∈ String.list_ascii_of_string s).

(** ** The codec type ([Codec.ts], lines 8-12).  [tryDecode] may throw (the
    upcast codec does); [None] is "not an event of this codec". *)
Record Codec (E F C : Type) := mkCodec {
  tryDecode : TimelineEvent F → result (option E);
  encode : E → C → StreamEvent F
}.
Arguments mkCodec {E F C} _ _.
Arguments tryDecode {E F C} _ _.
Arguments encode {E F C} _ _ _.

(** A codec whose decoding inverts its encoding, whatever id and position
    the store gives the event. *)
Class CodecRoundtrip {E F C} (codec : Codec E F C) :=
  codec_roundtrip : ∀ e ctx id idx,
    tryDecode codec (to_timeline id idx (encode codec e ctx)) = Ok (Some e).

(** ** The application fold (spec sections 3 and 6) *)
Class Composable {E S} (fold : S → list E → S) := {
  fold_nil : ∀ s, fold s [] = s;
  fold_app : ∀ s l1 l2, fold (fold s l1) l2 = fold s (l1 ++ l2)
}.

(** A fold given as [events.length ? evolve(s, events[events.length-1]) : s],
    the shape of both folds of the applications: only the last event counts. *)
Definition fold_last {E S} (evolve : S → E → S) (s : S) (events : list E) : S :=
  match last events with
  | Some e => evolve s e
  | None => s
  end.

(** Folding only the last event is incrementally composable as soon as
    [evolve] does not look at the state it is given. *)
Lemma fold_last_composable {E S} (evolve : S → E → S) :
  (∀ s1 s2 e, evolve s1 e = evolve s2 e) → Composable (fold_last evolve).
Proof.
  intros Hev. split; [done|]. intros s l1 l2. unfold fold_last.
  rewrite last_app. destruct (last l2); [apply Hev|done].
Qed.

(** Two [fold_last] folds over related lists are related, when [evolve]
    on related events gives related states, whatever the state before. *)
Lemma fold_last_Forall2 {E1 E2 S1 S2} (R : E1 → E2 → Prop) (f : S1 → S2)
    (ev1 : S1 → E1 → S1) (ev2 : S2 → E2 → S2) s1 s2 l1 l2 :
  (∀ x y t1 t2, R x y → ev2 t2 y = f (ev1 t1 x)) → s2 = f s1 →
  Forall2 R l1 l2 → fold_last ev2 s2 l2 = f (fold_last ev1 s1 l1).
Proof.
  intros Hev Hs HF. unfold fold_last.
  induction HF as [|x y l1 l2 Hxy HF IH]; [done|].
  destruct HF as [|x' y' l1' l2']; [by apply Hev|]. exact IH.
Qed.

(** A codec that keeps the typed event itself as the payload, used to run
    the engine on concrete inputs where the wire format does not matter. *)
Definition typed_codec {E C} (type_of : E → string) : Codec E E C :=
  mkCodec (λ te, Ok (te_data te)) (λ e _, mkStreamEvent None (type_of e) (Some e) None).

Global Instance typed_codec_roundtrip {E C} (type_of : E → string) :
  CodecRoundtrip (@typed_codec E C type_of).
Proof. by intros ????. Qed.
