(* ===== verification/Json.v ===== *)
(** * JSON values, [JSON.stringify] and [JSON.parse]

    The codecs of [Codec.ts] serialize payloads with the JavaScript
    built-ins [JSON.stringify] and [JSON.parse].  This file models JS
    values as [jsval], the two built-ins as a printer and a parser over
    ASCII text, and proves that parsing the printed text gives the value
    back, with [Date]s turned into their ISO strings ([normalize]).
    Numbers are integers here (no fractions or exponents); object keys keep
    their insertion order (the integer-key reordering of JS objects is not
    modelled); [JSON.parse] keeps the last value of a duplicated key at the
    place of its first occurrence. *)

From S2P Require Import Prelude.
From Stdlib Require DecimalZ DecimalN DecimalPos.

Scheme All for list.
Scheme All for prod.

(** A JS value as it can appear in an event payload. *)
Inductive jsval :=
| JNull
| JBool (b : bool)
| JNum (n : Z)
| JStr (s : string)
| JArr (items : list jsval)
| JObj (fields : list (string * jsval))
| JDate (t : Z).

(** The double quote character (code 34). *)
Abbreviation dquote := (Ascii.Ascii false true false false false true false false) (only parsing).

(** JS truthiness ([x ? a : b]). *)
Definition truthy (v : jsval) : bool :=
  match v with
  | JNull => false
  | JBool b => b
  | JNum n => negb (Z.eqb n 0)
  | JStr s => bool_decide (s ≠ "")
  | _ => true
  end.

(** [Date.prototype.toISOString] and [new Date(string)], kept abstract: the
    only law used is that a printed date parses back. *)
Class DateText := {
  toISOString : Z → string;
  parseDate : string → option Z;
  parseDate_toISOString : ∀ t, parseDate (toISOString t) = Some t
}.

Section Json.
Context `{DT : !DateText}.

(** What [JSON.parse(JSON.stringify(v))] is: dates become their ISO text. *)
Fixpoint normalize (v : jsval) : jsval :=
  match v with
  | JArr l => JArr (map normalize l)
  | JObj fs => JObj (map (λ '(k, x), (k, normalize x)) fs)
  | JDate t => JStr (toISOString t)
  | _ => v
  end.

(** No [Date] inside: [normalize] leaves the value as it is. *)
Fixpoint plain (v : jsval) : bool :=
  match v with
  | JArr l => forallb plain l
  | JObj fs => forallb (λ '(_, x), plain x) fs
  | JDate _ => false
  | _ => true
  end.

(** No object has a key twice (true of every value built in JS). *)
Fixpoint json_wf (v : jsval) : bool :=
  match v with
  | JArr l => forallb json_wf l
  | JObj fs => bool_decide (NoDup (map fst fs)) && forallb (λ '(_, x), json_wf x) fs
  | _ => true
  end.

(** ** Printing *)
Definition hex_digit (d : nat) : ascii :=
  ascii_of_nat (if d <? 10 then 48 + d else 87 + d).

Definition escape_char (c : ascii) : list ascii :=
  let n := nat_of_ascii c in
  if n =? 34 then ["\"%char; dquote]
  else if n =? 92 then ["\"; "\"]%char
  else if n =? 8 then ["\"; "b"]%char
  else if n =? 9 then ["\"; "t"]%char
  else if n =? 10 then ["\"; "n"]%char
  else if n =? 12 then ["\"; "f"]%char
  else if n =? 13 then ["\"; "r"]%char
  else if n <? 32 then ["\"; "u"; "0"; "0"; hex_digit (n / 16); hex_digit (n mod 16)]%char
  else [c].

Definition print_str (s : list ascii) : list ascii :=
  dquote :: flat_map escape_char s ++ [dquote].

Fixpoint print_uint (u : Decimal.uint) : list ascii :=
  match u with
  | Decimal.Nil => []
  | Decimal.D0 u => "0"%char :: print_uint u
  | Decimal.D1 u => "1"%char :: print_uint u
  | Decimal.D2 u => "2"%char :: print_uint u
  | Decimal.D3 u => "3"%char :: print_uint u
  | Decimal.D4 u => "4"%char :: print_uint u
  | Decimal.D5 u => "5"%char :: print_uint u
  | Decimal.D6 u => "6"%char :: print_uint u
  | Decimal.D7 u => "7"%char :: print_uint u
  | Decimal.D8 u => "8"%char :: print_uint u
  | Decimal.D9 u => "9"%char :: print_uint u
  end.

Definition print_num (n : Z) : list ascii :=
  match Z.to_int n with
  | Decimal.Pos u => print_uint u
  | Decimal.Neg u => "-"%char :: print_uint u
  end.

Fixpoint join_comma (l : list (list ascii)) : list ascii :=
  match l with
  | [] => []
  | [x] => x
  | x :: l' => x ++ ","%char :: join_comma l'
  end.

Fixpoint print (v : jsval) : list ascii :=
  match v with
  | JNull => String.list_ascii_of_string "null"
  | JBool true => String.list_ascii_of_string "true"
  | JBool false => String.list_ascii_of_string "false"
  | JNum n => print_num n
  | JStr s => print_str (String.list_ascii_of_string s)
  | JArr l => "["%char :: join_comma (map print l) ++ ["]"%char]
  | JObj fs =>
      "{"%char :: join_comma (map (λ '(k, x), print_str (String.list_ascii_of_string k) ++ ":"%char :: print x) fs)
        ++ ["}"%char]
  | JDate t => print_str (String.list_ascii_of_string (toISOString t))
  end.

(** [JSON.stringify] (no indentation). *)
Definition stringify (v : jsval) : string := String.string_of_list_ascii (print v).

(** ** Parsing *)
Definition is_ws (c : ascii) : bool :=
  match c with " "%char | "009"%char | "010"%char | "013"%char => true | _ => false end.

Fixpoint skip_ws (s : list ascii) : list ascii :=
  match s with
  | c :: r => if is_ws c then skip_ws r else s
  | [] => []
  end.

Definition hex_val (c : ascii) : option nat :=
  let n := nat_of_ascii c in
  if (48 <=? n) && (n <=? 57) then Some (n - 48)
  else if (97 <=? n) && (n <=? 102) then Some (n - 87)
  else if (65 <=? n) && (n <=? 70) then Some (n - 55)
  else None.

Definition simple_unescape (e : ascii) : option ascii :=
  match e with
  | dquote => Some dquote | "\"%char => Some "\"%char | "/"%char => Some "/"%char
  | "b"%char => Some "008"%char | "t"%char => Some "009"%char
  | "n"%char => Some "010"%char | "f"%char => Some "012"%char
  | "r"%char => Some "013"%char
  | _ => None
  end.

(** The body of a string literal after its opening quote.  [\uXXXX] is
    read for code points below 256 (the text is ASCII). *)
Fixpoint parse_str_body (s : list ascii) : option (list ascii * list ascii) :=
  match s with
  | [] => None
  | c :: rest =>
      if Nat.eqb (nat_of_ascii c) 34 then Some ([], rest)
      else if Nat.eqb (nat_of_ascii c) 92 then
        match rest with
        | e :: rest' =>
            match simple_unescape e with
            | Some c' => r ← parse_str_body rest'; Some (c' :: r.1, r.2)
            | None =>
                if Nat.eqb (nat_of_ascii e) 117 then
                  match rest' with
                  | h1 :: h2 :: h3 :: h4 :: rest'' =>
                      match hex_val h1, hex_val h2, hex_val h3, hex_val h4 with
                      | Some a, Some b, Some c3, Some d =>
                          let code := ((a * 16 + b) * 16 + c3) * 16 + d in
                          if code <? 256 then
                            r ← parse_str_body rest''; Some (ascii_of_nat code :: r.1, r.2)
                          else None
                      | _, _, _, _ => None
                      end
                  | _ => None
                  end
                else None
            end
        | [] => None
        end
      else if nat_of_ascii c <? 32 then None
      else r ← parse_str_body rest; Some (c :: r.1, r.2)
  end.

Definition digit_of (c : ascii) : option (Decimal.uint → Decimal.uint) :=
  match c with
  | "0"%char => Some Decimal.D0 | "1"%char => Some Decimal.D1 | "2"%char => Some Decimal.D2
  | "3"%char => Some Decimal.D3 | "4"%char => Some Decimal.D4 | "5"%char => Some Decimal.D5
  | "6"%char => Some Decimal.D6 | "7"%char => Some Decimal.D7 | "8"%char => Some Decimal.D8
  | "9"%char => Some Decimal.D9 | _ => None
  end.

Fixpoint read_digits (s : list ascii) : Decimal.uint * list ascii :=
  match s with
  | c :: r =>
      match digit_of c with
      | Some d => let '(u, r') := read_digits r in (d u, r')
      | None => (Decimal.Nil, s)
      end
  | [] => (Decimal.Nil, [])
  end.

(** A run of digits, no leading zero unless it is "0". *)
Definition parse_uint (s : list ascii) : option (Decimal.uint * list ascii) :=
  match read_digits s with
  | (Decimal.Nil, _) => None
  | (Decimal.D0 (Decimal.Nil), r) => Some (Decimal.D0 Decimal.Nil, r)
  | (Decimal.D0 _, _) => None
  | (u, r) => Some (u, r)
  end.

Definition parse_num (s : list ascii) : option (jsval * list ascii) :=
  match s with
  | c :: r =>
      if Nat.eqb (nat_of_ascii c) 45 then
        '(u, r') ← parse_uint r; Some (JNum (Z.of_int (Decimal.Neg u)), r')
      else '(u, r') ← parse_uint s; Some (JNum (Z.of_int (Decimal.Pos u)), r')
  | [] => None
  end.

(** Setting a key of an object under construction: a key seen before
    keeps its place and takes the new value. *)
Fixpoint obj_set (fs : list (string * jsval)) (k : string) (v : jsval) : list (string * jsval) :=
  match fs with
  | [] => [(k, v)]
  | (k', v') :: fs' => if bool_decide (k = k') then (k, v) :: fs' else (k', v') :: obj_set fs' k v
  end.

Definition build_obj (pairs : list (string * jsval)) : list (string * jsval) :=
  foldl (λ acc kv, obj_set acc kv.1 kv.2) [] pairs.

Fixpoint parse_value (fuel : nat) (s : list ascii) : option (jsval * list ascii) :=
  match fuel with
  | 0 => None
  | S f =>
      match skip_ws s with
      | [] => None
      | c :: r =>
          match c with
          | "n"%char => if bool_decide (take 3 r = String.list_ascii_of_string "ull")
                        then Some (JNull, drop 3 r) else None
          | "t"%char => if bool_decide (take 3 r = String.list_ascii_of_string "rue")
                        then Some (JBool true, drop 3 r) else None
          | "f"%char => if bool_decide (take 4 r = String.list_ascii_of_string "alse")
                        then Some (JBool false, drop 4 r) else None
          | dquote => '(str, r') ← parse_str_body r; Some (JStr (String.string_of_list_ascii str), r')
          | "["%char =>
              match skip_ws r with
              | c' :: r' => if Nat.eqb (nat_of_ascii c') 93 then Some (JArr [], r')
                            else '(l, r'') ← parse_elems f r; Some (JArr l, r'')
              | [] => None
              end
          | "{"%char =>
              match skip_ws r with
              | c' :: r' => if Nat.eqb (nat_of_ascii c') 125 then Some (JObj [], r')
                            else '(fs, r'') ← parse_members f r; Some (JObj (build_obj fs), r'')
              | [] => None
              end
          | _ => parse_num (c :: r)
          end
      end
  end
with parse_elems (fuel : nat) (s : list ascii) : option (list jsval * list ascii) :=
  match fuel with
  | 0 => None
  | S f =>
      '(v, r) ← parse_value f s;
      match skip_ws r with
      | c :: r' =>
          if Nat.eqb (nat_of_ascii c) 44 then '(vs, r'') ← parse_elems f r'; Some (v :: vs, r'')
          else if Nat.eqb (nat_of_ascii c) 93 then Some ([v], r')
          else None
      | [] => None
      end
  end
with parse_members (fuel : nat) (s : list ascii) : option (list (string * jsval) * list ascii) :=
  match fuel with
  | 0 => None
  | S f =>
      match skip_ws s with
      | c :: r =>
          if Nat.eqb (nat_of_ascii c) 34 then
            '(k, r1) ← parse_str_body r;
            match skip_ws r1 with
            | c1 :: r2 =>
                if Nat.eqb (nat_of_ascii c1) 58 then
                  '(v, r3) ← parse_value f r2;
                  match skip_ws r3 with
                  | c3 :: r4 =>
                      if Nat.eqb (nat_of_ascii c3) 44 then
                        '(fs, r5) ← parse_members f r4; Some ((String.string_of_list_ascii k, v) :: fs, r5)
                      else if Nat.eqb (nat_of_ascii c3) 125 then Some ([(String.string_of_list_ascii k, v)], r4)
                      else None
                  | [] => None
                  end
                else None
            | [] => None
            end
          else None
      | [] => None
      end
  end.

(** [JSON.parse]: one value, surrounded by blanks only; [SyntaxError]
    otherwise. *)
Definition parse (text : string) : result jsval :=
  let s := String.list_ascii_of_string text in
  match parse_value (S (length s)) s with
  | Some (v, r) => if skip_ws r is [] then Ok v else Err SyntaxError
  | None => Err SyntaxError
  end.

(** ** Round trip *)

(** Every character, escaped, is read back by the string parser. *)
Lemma parse_str_body_escape c rest :
  parse_str_body (escape_char c ++ rest) = (r ← parse_str_body rest; Some (c :: r.1, r.2)).
Proof. destruct c as [[] [] [] [] [] [] [] []]; reflexivity. Qed.

Lemma parse_str_body_print s rest :
  parse_str_body (flat_map escape_char s ++ dquote :: rest) = Some (s, rest).
Proof.
  induction s as [|c s IH]; [reflexivity|]. simpl.
  rewrite <- app_assoc, parse_str_body_escape, IH. reflexivity.
Qed.

Definition digit_free_head (rest : list ascii) : Prop :=
  match rest with c :: _ => digit_of c = None | [] => True end.

Lemma read_digits_print u rest :
  digit_free_head rest → read_digits (print_uint u ++ rest) = (u, rest).
Proof.
  intros Hr. induction u; simpl; try (by rewrite IHu).
  destruct rest as [|c rest]; simpl in *; [done|]. by rewrite Hr.
Qed.

Lemma nzhead_not_D0 d u : Decimal.nzhead d ≠ Decimal.D0 u.
Proof. induction d; simpl; congruence. Qed.

Lemma pos_to_uint_unorm p : Pos.to_uint p = Decimal.unorm (Pos.to_uint p).
Proof.
  rewrite <- DecimalPos.Unsigned.to_of, DecimalPos.Unsigned.of_to. reflexivity.
Qed.

Lemma pos_to_uint_head p u : Pos.to_uint p ≠ Decimal.D0 u.
Proof.
  intros Hp. pose proof (DecimalPos.Unsigned.to_uint_nonzero p) as Hnz.
  rewrite pos_to_uint_unorm in Hp, Hnz. unfold Decimal.unorm in *.
  destruct (Decimal.nzhead (Pos.to_uint p)) eqn:Hz; try discriminate.
  - done.
  - by apply nzhead_not_D0 in Hz.
Qed.

Lemma parse_uint_pos p rest :
  digit_free_head rest → parse_uint (print_uint (Pos.to_uint p) ++ rest) = Some (Pos.to_uint p, rest).
Proof.
  intros Hr. unfold parse_uint. rewrite read_digits_print by done.
  pose proof (DecimalPos.Unsigned.to_uint_nonnil p). pose proof (pos_to_uint_head p).
  destruct (Pos.to_uint p); try done. by destruct (H0 u).
Qed.

Lemma parse_num_print n rest :
  digit_free_head rest → parse_num (print_num n ++ rest) = Some (JNum n, rest).
Proof.
  intros Hr. unfold print_num. rewrite <- (DecimalZ.of_to n) at 2.
  destruct n as [|p|p]; simpl.
  - destruct rest as [|c rest]; simpl in *; [done|]. unfold parse_uint; simpl. by rewrite Hr.
  - pose proof (parse_uint_pos p rest Hr) as Hpu. pose proof (DecimalPos.Unsigned.to_uint_nonnil p).
    pose proof (pos_to_uint_head p).
    destruct (Pos.to_uint p) eqn:Hu; try done; simpl in *; rewrite Hpu; reflexivity.
  - by rewrite parse_uint_pos.
Qed.

Fixpoint jsize (v : jsval) : nat :=
  match v with
  | JArr l => S (list_sum (map (λ x, S (jsize x)) l))
  | JObj fs => S (list_sum (map (λ '(_, x), S (jsize x)) fs))
  | _ => 1
  end.

(** The parser sends a digit or a minus sign to [parse_num]. *)
Lemma parse_value_num_dispatch f c r :
  (is_Some (digit_of c) ∨ c = "-"%char) → parse_value (S f) (c :: r) = parse_num (c :: r).
Proof.
  intros Hc. destruct c as [[] [] [] [] [] [] [] []];
    destruct Hc as [[d Hd]|Hd]; try discriminate; reflexivity.
Qed.

Lemma print_num_head n rest :
  ∃ c r, print_num n ++ rest = c :: r ∧ (is_Some (digit_of c) ∨ c = "-"%char).
Proof.
  unfold print_num. destruct n as [|p|p]; simpl; [by eexists _, _; split; [|left]|..].
  - pose proof (DecimalPos.Unsigned.to_uint_nonnil p).
    destruct (Pos.to_uint p); try done; eexists _, _; (split; [reflexivity|left; by eexists]).
  - eexists _, _. split; [reflexivity|by right].
Qed.

Lemma parse_value_print_num f n rest :
  digit_free_head rest → parse_value (S f) (print_num n ++ rest) = Some (JNum n, rest).
Proof.
  intros Hr. destruct (print_num_head n rest) as (c & r & Hcr & Hc).
  rewrite Hcr, parse_value_num_dispatch, <- Hcr by done. by apply parse_num_print.
Qed.

(** Printed values start with a character that is no blank and closes
    nothing. *)
Lemma print_head v rest :
  ∃ c r, print v ++ rest = c :: r ∧ is_ws c = false ∧
    Nat.eqb (nat_of_ascii c) 93 = false ∧ Nat.eqb (nat_of_ascii c) 125 = false.
Proof.
  destruct v as [|[]|n|s|l|fs|t]; simpl; try (eexists _, _; split; [reflexivity|done]).
  destruct (print_num_head n rest) as (c & r & -> & [[d Hd]| ->]); [|by eexists _, _].
  exists c, r. split; [done|].
  destruct c as [[] [] [] [] [] [] [] []]; discriminate || done.
Qed.

Lemma obj_set_fresh acc k v :
  k ∉ map fst acc → obj_set acc k v = acc ++ [(k, v)].
Proof.
  induction acc as [|[k' v'] acc IH]; intros Hk; simpl; [done|].
  rewrite bool_decide_false by set_solver. rewrite IH by set_solver. done.
Qed.

Lemma build_obj_app acc fs :
  NoDup (map fst (acc ++ fs)) →
  foldl (λ acc kv, obj_set acc kv.1 kv.2) acc fs = acc ++ fs.
Proof.
  revert acc; induction fs as [|[k v] fs IH]; intros acc Hnd; simpl; [by rewrite app_nil_r|].
  rewrite obj_set_fresh.
  - rewrite IH; rewrite <- app_assoc; done.
  - rewrite map_app in Hnd. simpl in Hnd. apply NoDup_app in Hnd as (_ & Hd & _).
    intros Hk. apply (Hd k); [done|]. by left.
Qed.

Lemma build_obj_nodup fs : NoDup (map fst fs) → build_obj fs = fs.
Proof. apply (build_obj_app []). Qed.

Lemma skip_ws_cons c r : is_ws c = false → skip_ws (c :: r) = c :: r.
Proof. simpl. by intros ->. Qed.

Lemma print_str_app s rest :
  print_str s ++ rest = dquote :: flat_map escape_char s ++ dquote :: rest.
Proof. unfold print_str. simpl. by rewrite <- app_assoc. Qed.

Lemma parse_value_print_str f s rest :
  parse_value (S f) (print_str s ++ rest) = Some (JStr (String.string_of_list_ascii s), rest).
Proof. rewrite print_str_app. simpl. by rewrite parse_str_body_print. Qed.

(** The invariant of the induction: a printed value parses back. *)
Definition parses_back (v : jsval) : Prop :=
  ∀ f rest, json_wf v = true → jsize v ≤ f → digit_free_head rest →
    parse_value f (print v ++ rest) = Some (normalize v, rest).

Lemma parse_elems_print l f rest :
  list_all jsval parses_back l → forallb json_wf l = true → l ≠ [] →
  list_sum (map (λ x, S (jsize x)) l) ≤ f →
  parse_elems f (join_comma (map print l) ++ "]"%char :: rest) = Some (map normalize l, rest).
Proof.
  intros Hall. revert f. induction Hall as [|x Hx xs Hxs IH]; intros f Hwf Hne Hf; [done|].
  simpl in Hwf. apply andb_prop in Hwf as [Hwx Hwxs]. simpl in Hf.
  destruct f as [|f]; [lia|].
  destruct xs as [|y ys].
  - simpl. rewrite (Hx f ("]"%char :: rest)) by (done || lia). reflexivity.
  - change (join_comma (map print (x :: y :: ys))) with
      (print x ++ ","%char :: join_comma (map print (y :: ys))).
    remember (join_comma (map print (y :: ys))) as J eqn:HJ.
    rewrite <- app_assoc. simpl.
    rewrite (Hx f) by (done || lia). simpl.
    rewrite (IH f) by (done || lia). reflexivity.
Qed.

Definition print_member (kx : string * jsval) : list ascii :=
  let '(k, x) := kx in print_str (String.list_ascii_of_string k) ++ ":"%char :: print x.

Lemma print_member_app k x R :
  print_member (k, x) ++ R =
    dquote :: flat_map escape_char (String.list_ascii_of_string k) ++ dquote :: ":"%char :: print x ++ R.
Proof. unfold print_member. simpl. rewrite <- app_assoc. simpl. by rewrite <- app_assoc. Qed.

Lemma parse_members_print fs f rest :
  list_all (string * jsval) (prod_all string (λ _, unit) jsval parses_back) fs →
  forallb (λ '(_, x), json_wf x) fs = true → fs ≠ [] →
  list_sum (map (λ '(_, x), S (jsize x)) fs) ≤ f →
  parse_members f (join_comma (map print_member fs) ++ "}"%char :: rest) =
    Some (map (λ '(k, x), (k, normalize x)) fs, rest).
Proof.
  intros Hall. revert f. induction Hall as [|[k x] Hkx fs' Hfs IH]; intros f Hwf Hne Hf; [done|].
  inversion Hkx as [k0 _ x0 Hx]; subst.
  simpl in Hwf. apply andb_prop in Hwf as [Hwx Hwfs]. simpl in Hf.
  destruct f as [|f]; [lia|].
  destruct fs' as [|[k' x'] fs''].
  - change (join_comma (map print_member [(k, x)])) with (print_member (k, x)).
    rewrite print_member_app. simpl. rewrite parse_str_body_print. simpl.
    rewrite (Hx f ("}"%char :: rest)) by (done || lia). simpl.
    by rewrite String.string_of_list_ascii_of_string.
  - change (join_comma (map print_member ((k, x) :: (k', x') :: fs''))) with
      (print_member (k, x) ++ ","%char :: join_comma (map print_member ((k', x') :: fs''))).
    remember (join_comma (map print_member ((k', x') :: fs''))) as J eqn:HJ.
    rewrite <- app_assoc, print_member_app. simpl. rewrite parse_str_body_print. simpl.
    rewrite (Hx f) by (done || lia). simpl.
    rewrite (IH f) by (done || lia). simpl.
    by rewrite String.string_of_list_ascii_of_string.
Qed.

Lemma join_print_head x xs R :
  ∃ c r, join_comma (map print (x :: xs)) ++ R = c :: r ∧ is_ws c = false ∧
    Nat.eqb (nat_of_ascii c) 93 = false.
Proof.
  destruct xs as [|y ys].
  - destruct (print_head x R) as (c & r & H & ? & ? & ?). simpl. eauto.
  - change (join_comma (map print (x :: y :: ys))) with
      (print x ++ ","%char :: join_comma (map print (y :: ys))).
    rewrite <- app_assoc. destruct (print_head x (","%char :: join_comma (map print (y :: ys)) ++ R))
      as (c & r & H & ? & ? & ?). eauto.
Qed.

Lemma join_member_head kx fs R :
  ∃ r, join_comma (map print_member (kx :: fs)) ++ R = dquote :: r.
Proof.
  destruct kx as [k x]. destruct fs as [|kx' fs].
  - change (join_comma (map print_member [(k, x)])) with (print_member (k, x)).
    rewrite print_member_app. eauto.
  - change (join_comma (map print_member ((k, x) :: kx' :: fs))) with
      (print_member (k, x) ++ ","%char :: join_comma (map print_member (kx' :: fs))).
    rewrite <- app_assoc, print_member_app. eauto.
Qed.

Lemma normalize_fields_keys (fs : list (string * jsval)) :
  map fst (map (λ '(k, x), (k, normalize x)) fs) = map fst fs.
Proof. rewrite map_map. apply map_ext. by intros []. Qed.

Lemma parses_back_all v : parses_back v.
Proof.
  induction v as [|b|n|str|l IHl|fs IHfs|t]; intros f rest Hwf Hf Hr;
    (destruct f as [|f]; [simpl in Hf; lia|]).
  - reflexivity.
  - by destruct b.
  - by apply parse_value_print_num.
  - simpl print. rewrite parse_value_print_str. by rewrite String.string_of_list_ascii_of_string.
  - destruct l as [|x xs]; [reflexivity|].
    change (print (JArr (x :: xs))) with ("["%char :: join_comma (map print (x :: xs)) ++ ["]"%char]).
    rewrite <- app_comm_cons, <- app_assoc. simpl (["]"%char] ++ rest).
    remember (join_comma (map print (x :: xs)) ++ "]"%char :: rest) as Y eqn:HY.
    destruct (join_print_head x xs ("]"%char :: rest)) as (c & r & Hcr & Hws & H93).
    rewrite <- HY in Hcr. rewrite Hcr. simpl. rewrite Hws, H93.
    rewrite <- Hcr, HY, parse_elems_print; [done..|]. simpl in Hf |- *. lia.
  - destruct fs as [|kx fs]; [reflexivity|].
    simpl in Hwf. apply andb_prop in Hwf as [Hnd Hwfs]. apply bool_decide_eq_true in Hnd.
    change (print (JObj (kx :: fs))) with
      ("{"%char :: join_comma (map print_member (kx :: fs)) ++ ["}"%char]).
    rewrite <- app_comm_cons, <- app_assoc. simpl (["}"%char] ++ rest).
    remember (join_comma (map print_member (kx :: fs)) ++ "}"%char :: rest) as Y eqn:HY.
    destruct (join_member_head kx fs ("}"%char :: rest)) as (r & Hr').
    rewrite <- HY in Hr'. rewrite Hr'. simpl. rewrite <- Hr', HY, parse_members_print; [|done..|].
    + cbn [mbind option_bind]. rewrite build_obj_nodup; [done|].
      by rewrite normalize_fields_keys.
    + simpl in Hf |- *. lia.
  - simpl print. rewrite parse_value_print_str. by rewrite String.string_of_list_ascii_of_string.
Qed.

Lemma length_join_comma L :
  list_sum (map length L) + length L ≤ length (join_comma L) + 1.
Proof.
  induction L as [|x [|y L] IH]; simpl in *; [lia|lia|].
  rewrite length_app. simpl. lia.
Qed.

Lemma jsize_le_print v : jsize v ≤ length (print v).
Proof.
  induction v as [|[]|n|str|l IHl|fs IHfs|t]; try (simpl; lia).
  - simpl. unfold print_num. destruct n as [|p|p]; simpl; [lia| |lia].
    pose proof (DecimalPos.Unsigned.to_uint_nonnil p). destruct (Pos.to_uint p); simpl; done || lia.
  - simpl. rewrite length_app. simpl. pose proof (length_join_comma (map print l)).
    enough (list_sum (map (λ x, S (jsize x)) l) ≤ list_sum (map length (map print l)) + length (map print l)) by lia.
    clear H. induction IHl as [|x Hx xs Hxs IH]; simpl; lia.
  - change (print (JObj fs)) with ("{"%char :: join_comma (map print_member fs) ++ ["}"%char]).
    rewrite length_cons, length_app. simpl length. cbn [jsize].
    pose proof (length_join_comma (map print_member fs)) as HL.
    enough (list_sum (map (λ '(_, x), S (jsize x)) fs) ≤
            list_sum (map length (map print_member fs)) + length (map print_member fs)) by lia.
    clear HL. induction IHfs as [|[k x] Hkx fs' Hfs IH]; simpl; [lia|].
    inversion Hkx as [k0 _ x0 Hx]; subst.
    rewrite length_app. simpl. lia.
Qed.

Lemma normalize_plain v : plain v = true → normalize v = v.
Proof.
  induction v as [| | | |l IHl|fs IHfs|t]; simpl; intros Hp; try done.
  - f_equal. induction IHl as [|x Hx xs Hxs IH]; simpl in *; [done|].
    apply andb_prop in Hp as [Hp1 Hp2]. by rewrite Hx, IH.
  - f_equal. induction IHfs as [|[k x] Hkx fs' Hfs IH]; simpl in *; [done|].
    inversion Hkx as [k0 _ x0 Hx]; subst.
    apply andb_prop in Hp as [Hp1 Hp2]. by rewrite Hx, IH.
Qed.

(** ** What [JSON.parse] builds *)
Lemma forallb_snd (f : jsval → bool) (fs : list (string * jsval)) :
  forallb (λ '(_, x), f x) fs = true ↔ Forall (λ kv, f kv.2 = true) fs.
Proof.
  induction fs as [|[k x] fs IH]; simpl; [split; [constructor|done]|].
  rewrite andb_true_iff, IH, Forall_cons. done.
Qed.

Lemma forallb_Forall_true (f : jsval → bool) l : Forall (λ x, f x = true) l → forallb f l = true.
Proof.
  intros Hl. apply forallb_forall. intros x Hx%list_elem_of_In. by apply (proj1 (Forall_forall _ _) Hl).
Qed.

Lemma obj_set_Forall (Q : string * jsval → Prop) acc k v :
  Forall Q acc → Q (k, v) → Forall Q (obj_set acc k v).
Proof.
  induction 1 as [|[k' v'] acc Hk' Hacc IH]; intros Hv; simpl; [by constructor|].
  case_bool_decide; constructor; auto.
Qed.

Lemma build_obj_Forall (Q : string * jsval → Prop) fs : Forall Q fs → Forall Q (build_obj fs).
Proof.
  intros Hfs. unfold build_obj. cut (Forall Q []); [|constructor].
  generalize (@nil (string * jsval)) as acc.
  induction Hfs as [|[k v] fs Hv Hfs IH]; intros acc Hacc; simpl; [done|].
  apply IH. by apply obj_set_Forall.
Qed.

Lemma parse_num_num s v r : parse_num s = Some (v, r) → ∃ n, v = JNum n.
Proof.
  unfold parse_num. destruct s as [|c r0]; [done|].
  case_match; destruct (parse_uint _) as [[u r']|]; simpl; intros; simplify_eq; eauto.
Qed.

Ltac opt_bind_inv :=
  repeat match goal with
  | H : ?m ≫= _ = Some _ |- _ =>
      let E := fresh "E" in destruct m as [[? ?]|] eqn:E; simpl in H; [|discriminate H]
  end.

(** A property of values that holds of the scalars, of arrays of values
    that have it, and of the objects [build_obj] makes of members that
    have it, holds of every value [JSON.parse] returns. *)
Section ParseClosed.
Context (P : jsval → Prop).
Hypothesis P_null : P JNull.
Hypothesis P_bool : ∀ b, P (JBool b).
Hypothesis P_num : ∀ n, P (JNum n).
Hypothesis P_str : ∀ s, P (JStr s).
Hypothesis P_arr : ∀ l, Forall P l → P (JArr l).
Hypothesis P_obj : ∀ fs, Forall (λ kv, P kv.2) fs → P (JObj (build_obj fs)).

Lemma parse_value_closed fuel :
  (∀ s v r, parse_value fuel s = Some (v, r) → P v) ∧
  (∀ s vs r, parse_elems fuel s = Some (vs, r) → Forall P vs) ∧
  (∀ s fs r, parse_members fuel s = Some (fs, r) → Forall (λ kv, P kv.2) fs).
Proof.
  induction fuel as [|f (IHv & IHe & IHm)]; [split_and!; done|]. split_and!.
  - intros s v r. cbn [parse_value]. intros H.
    repeat (case_match || opt_bind_inv); simplify_eq; auto;
      try (by destruct (parse_num_num _ _ _ H) as [n ->]).
    all: first [ apply P_arr; first [constructor | by eapply IHe]
               | apply (P_obj []); constructor | apply P_obj; by eapply IHm ].
  - intros s vs r. cbn [parse_elems]. intros H.
    repeat (case_match || opt_bind_inv); simplify_eq; try done; constructor; eauto.
  - intros s fs r. cbn [parse_members]. intros H.
    repeat (case_match || opt_bind_inv); simplify_eq; try done; constructor; eauto.
Qed.

Lemma parse_closed text v : parse text = Ok v → P v.
Proof.
  unfold parse. repeat case_match; intros; simplify_eq; try done.
  by eapply (proj1 (parse_value_closed _)).
Qed.
End ParseClosed.

(** [JSON.parse] never builds a [Date]. *)
Lemma parse_plain text v : parse text = Ok v → plain v = true.
Proof.
  apply (parse_closed (λ v, plain v = true)); try done.
  - intros l Hl. by apply forallb_Forall_true.
  - intros fs Hfs. apply (forallb_snd plain), build_obj_Forall, Hfs.
Qed.

(** [JSON.parse(JSON.stringify(v))] gives [v] back, dates as their ISO
    text, for every value whose objects have distinct keys. *)
Theorem parse_stringify v : json_wf v = true → parse (stringify v) = Ok (normalize v).
Proof.
  intros Hwf. unfold parse, stringify. rewrite String.list_ascii_of_string_of_list_ascii.
  pose proof (parses_back_all v (S (length (print v))) [] Hwf) as Hp.
  rewrite app_nil_r in Hp. rewrite Hp; [done| |done].
  pose proof (jsize_le_print v). lia.
Qed.

End Json.
