(* ===== verification/Codec.v ===== *)
(** * The codecs of [packages/core/src/lib/Codec.ts]

    [PassThroughCodec] (lines 14-23), [AsyncCodec.map] (30-47),
    [AsyncCodec.deflate] (49-67) and [AsyncCodec.unsafeEmpty] (69-74).
    Promises are the values they resolve to, a rejected promise is an
    [Err]; [zlib]'s raw deflate is the class [Deflater] with the law that
    inflating a deflated buffer gives it back.  A JS object that may carry
    any of the fields of an event is an [AnyEvent]: the casts [e as any as
    E] of the source keep every field, so the model keeps them too. *)

From S2P Require Import Prelude Types Json.

(** ** Events as untyped JS objects *)
Record AnyEvent (F : Type) := mkAnyEvent {
  ae_id : option string;
  ae_type : string;
  ae_index : option Z;
  ae_data : option F;
  ae_meta : option F
}.
Arguments mkAnyEvent {F} _ _ _ _ _.
Arguments ae_id {F} _.
Arguments ae_type {F} _.
Arguments ae_index {F} _.
Arguments ae_data {F} _.
Arguments ae_meta {F} _.

(** [event as any as E] on a timeline event: the object keeps its fields. *)
Definition of_timeline {F} (te : TimelineEvent F) : AnyEvent F :=
  mkAnyEvent (Some (te_id te)) (te_type te) (Some (te_index te)) (te_data te) (te_meta te).

(** [e as any as StreamEvent]: the fields a store reads from the object. *)
Definition as_stream_event {F} (e : AnyEvent F) : StreamEvent F :=
  mkStreamEvent (ae_id e) (ae_type e) (ae_data e) (ae_meta e).

(** ** [PassThroughCodec] (lines 14-23) *)
Definition PassThroughCodec {F C} (ctxToMeta : C → option F) : Codec (AnyEvent F) F C :=
  mkCodec (λ event, Ok (Some (of_timeline event)))
          (λ event ctx, mkStreamEvent None (ae_type event) (ae_data event) (ctxToMeta ctx)).

(** The default [ctxToMeta = (x) => undefined]. *)
Definition PassThroughCodec_default {F C} : Codec (AnyEvent F) F C :=
  PassThroughCodec (λ _, None).

(** ** Helpers of [AsyncCodec.map] (lines 30-47) *)

(** JS truthiness of a payload ([event.data ? ... : undefined]). *)
Class Truthy (A : Type) := truthy_of : A → bool.
Global Instance jsval_truthy : Truthy jsval := truthy.
(** Arrays (the [[encoding, bytes]] pair) are always truthy. *)
Global Instance pair_truthy {A B} : Truthy (A * B) := λ _, true.

(** [x] is the data or the metadata of [r]. *)
Definition payload_in {A} (r : StreamEvent A) (x : A) : Prop :=
  se_data r = Some x ∨ se_meta r = Some x.

(** A payload [deflate] carries unchanged: an object or another truthy
    value, with distinct keys and no [Date] inside. *)
Definition wire_ready (x : jsval) : bool := truthy x && json_wf x && plain x.


(** [x ? f(x) : undefined] on an optional payload. *)
Definition when_truthy {A B} `{!Truthy A} (f : A → B) (x : option A) : option B :=
  match x with
  | Some a => if truthy_of a then Some (f a) else None
  | None => None
  end.

(** The same with a function that may reject. *)
Definition when_truthy_res {A B} `{!Truthy A} (f : A → result B) (x : option A)
    : result (option B) :=
  match x with
  | Some a => if truthy_of a then Some <$> f a else Ok None
  | None => Ok None
  end.

(** [{ ...result, data: f(result.data), meta: f(result.meta) }] for the
    payloads that are truthy. *)
Definition map_payloads {A B} `{!Truthy A} (f : A → B) (r : StreamEvent A) : StreamEvent B :=
  mkStreamEvent (se_id r) (se_type r) (when_truthy f (se_data r)) (when_truthy f (se_meta r)).



(** ** The encoder and decoder of [AsyncCodec.deflate] (lines 49-67) *)

Abbreviation bytes := (list Byte.byte).

(** [Buffer.from(string)] and [buf.toString()] (UTF-8; the model's strings
    are already byte strings). *)
Definition buffer_from (s : string) : bytes :=
  List.map byte_of_ascii (String.list_ascii_of_string s).
Definition buffer_toString (b : bytes) : string :=
  String.string_of_list_ascii (List.map ascii_of_byte b).

(** [zlib.deflateRaw] and [zlib.inflateRaw] with [Z_SYNC_FLUSH].  A raw
    deflate stream always has a final block, so it is never empty. *)
Class Deflater := {
  deflateRaw : bytes → bytes;
  inflateRaw : bytes → result bytes;
  inflateRaw_deflateRaw : ∀ b, inflateRaw (deflateRaw b) = Ok b;
  deflateRaw_nonempty : ∀ b, deflateRaw b ≠ []
}.

(** The stored payload: [[number | undefined, Uint8Array | undefined]]. *)
Definition Packed : Type := option Z * option bytes.

Section Deflate.
Context `{DT : !DateText} `{DF : !Deflater}.

(** The encoder of lines 52-58: the smaller of the raw and the deflated
    text wins, the raw one on a tie. *)
Definition deflate_encode (x : jsval) : Packed :=
  match x with
  | JNull => (None, None)
  | _ =>
      let raw := buffer_from (stringify x) in
      let deflated := deflateRaw raw in
      if length deflated <? length raw then (Some 1%Z, Some deflated)
      else (Some 0%Z, Some raw)
  end.

(** The decoder of lines 59-65: an absent or empty buffer is [null];
    [encoding === 0] is raw text, anything else is inflated first. *)
Definition deflate_decode (p : Packed) : result jsval :=
  let '(encoding, b) := p in
  match b with
  | None | Some [] => Ok JNull
  | Some buf =>
      if decide (encoding = Some 0%Z) then parse (buffer_toString buf)
      else inflated ← inflateRaw buf; parse (buffer_toString inflated)
  end.

End Deflate.

(** ** The static methods of [AsyncCodec] (lines 25-75) *)
Module AsyncCodec.

(** [AsyncCodec<E, F, C>] (lines 25-29) has the shape of [Codec]. *)
Definition AsyncCodec (E F C : Type) : Type := Codec E F C.

Section Map.
Context {E From To C : Type} `{!Truthy From, !Truthy To}.

(** [tryDecode] awaits [Promise.all([data, meta])]: the data's rejection
    comes first, then the meta's; then the inner codec decodes
    [{ ...event, data, meta }]. *)
Definition map (codec : AsyncCodec E From C) (encode : From → To)
    (decode : To → result From) : AsyncCodec E To C :=
  mkCodec
    (λ event,
      data ← when_truthy_res decode (te_data event);
      meta ← when_truthy_res decode (te_meta event);
      tryDecode codec (mkTimelineEvent (te_id event) (te_type event) (te_index event) data meta))
    (λ e ctx, map_payloads encode (Types.encode codec e ctx)).

End Map.

Section Deflate.
Context `{DT : !DateText} `{DF : !Deflater}.

Definition deflate {E C} (codec : AsyncCodec E jsval C) : AsyncCodec E Packed C :=
  map codec deflate_encode deflate_decode.

(** [unsafeEmpty] (lines 69-74): the identity codec on untyped events,
    deflated. *)
Definition unsafeEmpty {C} : AsyncCodec (AnyEvent jsval) Packed C :=
  deflate (mkCodec (λ e, Ok (Some (of_timeline e))) (λ e _, as_stream_event e)).

End Deflate.
End AsyncCodec.

(** ** Lemmas *)

Lemma buffer_toString_from s : buffer_toString (buffer_from s) = s.
Proof.
  unfold buffer_toString, buffer_from. rewrite List.map_map.
  rewrite (List.map_ext _ id) by apply ascii_of_byte_of_ascii.
  rewrite List.map_id. apply String.string_of_list_ascii_of_string.
Qed.

Lemma buffer_from_nonempty `{!DateText} v : buffer_from (stringify v) ≠ [].
Proof.
  unfold buffer_from, stringify. rewrite String.list_ascii_of_string_of_list_ascii.
  destruct (print_head v []) as (c & r & Hp & _). rewrite app_nil_r in Hp.
  by rewrite Hp.
Qed.

Section MapLemmas.
Context {E From To C : Type} `{!Truthy From, !Truthy To}.
Context (codec : Codec E From C) (enc : From → To) (dec : To → result From).

(** Decoding what [map] encoded is decoding what the inner codec encoded
    with each payload passed through [dec ∘ enc], as long as [enc] keeps the
    payloads truthy and [dec ∘ enc] acts on them as [g]. *)
Lemma map_decode_encode (g : From → From) e ctx id idx :
  let r := Types.encode codec e ctx in
  (∀ x, payload_in r x → truthy_of x = true →
        truthy_of (enc x) = true ∧ dec (enc x) = Ok (g x)) →
  tryDecode (AsyncCodec.map codec enc dec) (to_timeline id idx (Types.encode (AsyncCodec.map codec enc dec) e ctx)) =
  tryDecode codec (to_timeline id idx (map_payloads g r)).
Proof.
  intros r Hg. simpl. fold r.
  assert (Hw : ∀ y, se_data r = y ∨ se_meta r = y →
             when_truthy_res dec (when_truthy enc y) = Ok (when_truthy g y)).
  { intros [x|] Hy; simpl; [|done].
    destruct (truthy_of x) eqn:Hx; simpl; [|done].
    destruct (Hg x) as [-> ->]; [unfold payload_in; naive_solver|done|done]. }
  rewrite (Hw (se_data r)), bind_Ok, (Hw (se_meta r)), bind_Ok by auto.
  done.
Qed.

End MapLemmas.

(** [map_payloads] with a function that is the identity on the payloads. *)
Lemma map_payloads_id {A} `{!Truthy A} (g : A → A) (r : StreamEvent A) :
  (∀ x, payload_in r x → truthy_of x = true ∧ g x = x) →
  map_payloads g r = r.
Proof.
  intros Hg. destruct r as [i t d m]; unfold map_payloads; simpl in *.
  f_equal; [destruct d as [x|]|destruct m as [x|]]; simpl; try done;
    (destruct (Hg x) as [-> ->]; [unfold payload_in; naive_solver|done]).
Qed.

Lemma jsval_null_dec (x : jsval) : x = JNull ∨ x ≠ JNull.
Proof. destruct x; [left|right..]; done. Qed.

Lemma wire_ready_spec `{!DateText} x :
  wire_ready x = true → truthy x = true ∧ json_wf x = true ∧ normalize x = x.
Proof.
  unfold wire_ready. intros [[Ht Hw]%andb_prop Hp]%andb_prop.
  split_and!; [done|done|by apply normalize_plain].
Qed.

Section DeflateLemmas.
Context `{DT : !DateText} `{DF : !Deflater}.

Lemma deflate_encode_nonnull x :
  x ≠ JNull →
  deflate_encode x =
    (let raw := buffer_from (stringify x) in
     if length (deflateRaw raw) <? length raw then (Some 1%Z, Some (deflateRaw raw))
     else (Some 0%Z, Some raw)).
Proof. by destruct x. Qed.

Lemma deflate_decode_nonempty encoding b :
  b ≠ [] →
  deflate_decode (encoding, Some b) =
    if decide (encoding = Some 0%Z) then parse (buffer_toString b)
    else inflated ← inflateRaw b; parse (buffer_toString inflated).
Proof. by destruct b. Qed.

(** C34: The encoder stores the smaller of the raw and the deflated text, tagged
    [1] exactly when the deflated one is strictly smaller. *)
Lemma deflate_encode_smallest x :
  x ≠ JNull →
  let raw := buffer_from (stringify x) in
  ∃ tag b, deflate_encode x = (Some tag, Some b) ∧
    length b = Nat.min (length raw) (length (deflateRaw raw)) ∧
    (tag = 1%Z ↔ length (deflateRaw raw) < length raw) ∧ (tag = 0 ∨ tag = 1)%Z.
Proof.
  intros Hx raw. rewrite deflate_encode_nonnull by done. cbv zeta. fold raw.
  destruct (Nat.ltb_spec (length (deflateRaw raw)) (length raw)) as [Hlt|Hge].
  all: eexists _, _; split; [done|]; split; [lia|]; split; [split; intros; lia|lia].
Qed.

(** Decoding the encoder's output gives the payload back, dates as their
    ISO text, whichever form was stored. *)
Lemma deflate_decode_encode x :
  json_wf x = true → deflate_decode (deflate_encode x) = Ok (normalize x).
Proof.
  intros Hwf. destruct (jsval_null_dec x) as [->|Hx]; [done|].
  rewrite deflate_encode_nonnull by done. cbv zeta.
  pose proof (buffer_from_nonempty x) as Hne.
  destruct (_ <? _); rewrite deflate_decode_nonempty by (apply deflateRaw_nonempty || done).
  - rewrite decide_False by done. rewrite inflateRaw_deflateRaw, bind_Ok.
    rewrite buffer_toString_from. by apply parse_stringify.
  - rewrite decide_True by done. rewrite buffer_toString_from. by apply parse_stringify.
Qed.

End DeflateLemmas.

Section DeflateCodec.
Context `{DT : !DateText} `{DF : !Deflater} {E C : Type} (codec : Codec E jsval C).

(** C7: Decoding an event that [AsyncCodec.deflate codec] encoded is decoding, with the
    inner codec, the event the inner codec encoded with its payloads passed
    through [JSON.parse(JSON.stringify(_))]: the compression and the
    raw-or-deflated choice are invisible to the reader. *)
Theorem deflate_roundtrip e ctx id idx :
  (∀ x, payload_in (Types.encode codec e ctx) x → json_wf x = true) →
  tryDecode (AsyncCodec.deflate codec) (to_timeline id idx (Types.encode (AsyncCodec.deflate codec) e ctx)) =
  tryDecode codec (to_timeline id idx (map_payloads normalize (Types.encode codec e ctx))).
Proof.
  intros Hwf. apply map_decode_encode. intros x Hx _.
  split; [done|]. by apply deflate_decode_encode, Hwf.
Qed.

(** C6: A codec that round-trips and writes only wire-ready payloads still
    round-trips once wrapped by [deflate]. *)
Theorem deflate_codec_roundtrip `{!CodecRoundtrip codec} :
  (∀ e ctx x, payload_in (Types.encode codec e ctx) x → wire_ready x = true) →
  CodecRoundtrip (AsyncCodec.deflate codec).
Proof.
  intros Hready e ctx id idx. unfold AsyncCodec.deflate.
  rewrite (map_decode_encode _ _ _ normalize).
  - rewrite map_payloads_id; [apply codec_roundtrip|].
    intros x Hx. by destruct (wire_ready_spec x (Hready e ctx x Hx)) as (? & _ & ?).
  - intros x Hx _. split; [done|]. apply deflate_decode_encode.
    by destruct (wire_ready_spec x (Hready e ctx x Hx)) as (_ & ? & _).
Qed.

End DeflateCodec.

(** C27: [unsafeEmpty] gives back the event it wrote with the id the store
    assigned when the event had none, the stream position, and its truthy
    payloads through [JSON.parse(JSON.stringify(_))]; a falsy payload
    ([null], [false], [0], [""]) is not written and comes back absent. *)
Theorem unsafeEmpty_roundtrip `{!DateText} `{!Deflater} {C} (e : AnyEvent jsval) (ctx : C) id idx :
  (∀ x, payload_in (as_stream_event e) x → json_wf x = true) →
  tryDecode (@AsyncCodec.unsafeEmpty _ _ C) (to_timeline id idx (Types.encode AsyncCodec.unsafeEmpty e ctx)) =
  Ok (Some (mkAnyEvent (Some (default id (ae_id e))) (ae_type e) (Some idx)
                       (when_truthy normalize (ae_data e)) (when_truthy normalize (ae_meta e)))).
Proof.
  intros Hwf. unfold AsyncCodec.unsafeEmpty, AsyncCodec.deflate.
  rewrite (map_decode_encode _ _ _ normalize); [done|].
  intros x Hx _. split; [done|]. by apply deflate_decode_encode, Hwf.
Qed.

(** [PassThroughCodec] writes the event's type and data and the metadata
    [ctxToMeta] gives; the event's own id and metadata are not written. *)
Lemma PassThroughCodec_decode_encode {F C} (ctxToMeta : C → option F) e ctx id idx :
  tryDecode (PassThroughCodec ctxToMeta)
    (to_timeline id idx (Types.encode (PassThroughCodec ctxToMeta) e ctx)) =
  Ok (Some (mkAnyEvent (Some id) (ae_type e) (Some idx) (ae_data e) (ctxToMeta ctx))).
Proof. done. Qed.

(** ** Concrete instances for evaluation

    A run-length "deflater": a buffer of at most 255 equal bytes becomes
    [[1, n, b]], any other buffer is stored behind a [0] byte. *)
Definition rle_deflateRaw (b : bytes) : bytes :=
  match b with
  | x :: rest =>
      match Byte.of_nat (length b) with
      | Some n => if forallb (λ y, Byte.eqb y x) rest then [Byte.x01; n; x] else Byte.x00 :: b
      | None => Byte.x00 :: b
      end
  | [] => [Byte.x00]
  end.

Definition rle_inflateRaw (b : bytes) : result bytes :=
  match b with
  | Byte.x00 :: rest => Ok rest
  | [Byte.x01; n; x] => Ok (repeat x (Byte.to_nat n))
  | _ => Err InflateError
  end.

Lemma forallb_eqb_repeat x rest :
  forallb (λ y, Byte.eqb y x) rest = true → repeat x (length rest) = rest.
Proof.
  induction rest as [|y rest IH]; simpl; [done|].
  intros [Hy Hr]%andb_prop. apply Byte.byte_dec_bl in Hy as ->. by rewrite IH.
Qed.

Global Program Instance rle_deflater : Deflater := {
  deflateRaw := rle_deflateRaw;
  inflateRaw := rle_inflateRaw
}.
Next Obligation.
  intros [|x rest]; [done|]. unfold rle_deflateRaw.
  destruct (Byte.of_nat _) as [n|] eqn:Hn; [|done].
  destruct (forallb _ rest) eqn:Hall; [|done]. simpl.
  apply Byte.to_of_nat in Hn as ->. simpl. by rewrite forallb_eqb_repeat.
Qed.
Next Obligation.
  intros [|x rest]; [done|]. unfold rle_deflateRaw.
  destruct (Byte.of_nat _); [|done]. by destruct (forallb _ rest).
Qed.

(** Dates printed as their decimal timestamp. *)
Definition demo_parseDate (s : string) : option Z :=
  match parse_num (String.list_ascii_of_string s) with
  | Some (JNum t, []) => Some t
  | _ => None
  end.

Global Program Instance demo_date : DateText := {
  toISOString t := String.string_of_list_ascii (print_num t);
  parseDate := demo_parseDate
}.
Next Obligation.
  intros t. unfold demo_parseDate. rewrite String.list_ascii_of_string_of_list_ascii.
  pose proof (parse_num_print t [] I) as Hp. rewrite app_nil_r in Hp. by rewrite Hp.
Qed.

(** A codec of [(type, name)] pairs with the payload [{ name }]. *)
Definition demo_codec : Codec (string * string) jsval unit :=
  mkCodec
    (λ te, match te_data te with
           | Some (JObj [("name", JStr s)]) => Ok (Some (te_type te, s))
           | _ => Ok None
           end)
    (λ '(t, s) _, mkStreamEvent None t (Some (JObj [("name", JStr s)])) None).

Global Instance demo_codec_roundtrip : CodecRoundtrip demo_codec.
Proof. by intros [t s] [] id idx. Qed.

Lemma deflate_roundtrip_witness :
  (∀ x, payload_in (Types.encode demo_codec ("Hello", "world") ()) x → json_wf x = true) ∧
  tryDecode (AsyncCodec.deflate demo_codec)
    (to_timeline "id-1" 0 (Types.encode (AsyncCodec.deflate demo_codec) ("Hello", "world") ())) =
  tryDecode demo_codec
    (to_timeline "id-1" 0 (map_payloads normalize (Types.encode demo_codec ("Hello", "world") ()))).
Proof.
  assert (Hwf : ∀ x, payload_in (Types.encode demo_codec ("Hello", "world") ()) x →
                     json_wf x = true).
  { intros x [Hx|Hx]; simpl in Hx; inversion Hx; vm_compute; reflexivity. }
  split; [exact Hwf|]. apply (deflate_roundtrip demo_codec). exact Hwf.
Defined.

Lemma deflate_codec_roundtrip_witness :
  (∀ e ctx x, payload_in (Types.encode demo_codec e ctx) x → wire_ready x = true) ∧
  CodecRoundtrip (AsyncCodec.deflate demo_codec).
Proof.
  assert (Hr : ∀ e ctx x, payload_in (Types.encode demo_codec e ctx) x → wire_ready x = true).
  { intros [t s] [] x [Hx|Hx]; simpl in Hx; inversion Hx; reflexivity. }
  split; [exact Hr|]. apply (deflate_codec_roundtrip demo_codec). exact Hr.
Defined.

Lemma deflate_encode_smallest_witness :
  JNum 11111111 ≠ JNull ∧
  let raw := buffer_from (stringify (JNum 11111111)) in
  ∃ tag b, deflate_encode (JNum 11111111) = (Some tag, Some b) ∧
    length b = Nat.min (length raw) (length (deflateRaw raw)) ∧
    (tag = 1%Z ↔ length (deflateRaw raw) < length raw) ∧ (tag = 0 ∨ tag = 1)%Z.
Proof. split; [discriminate|]. apply deflate_encode_smallest. discriminate. Defined.

Lemma unsafeEmpty_roundtrip_witness :
  let e := mkAnyEvent None "Hello" None (Some (JObj [("n", JNum 1111)])) (Some (JBool false)) in
  (∀ x, payload_in (as_stream_event e) x → json_wf x = true) ∧
  tryDecode (@AsyncCodec.unsafeEmpty _ _ unit) (to_timeline "id-7" 3 (Types.encode AsyncCodec.unsafeEmpty e ())) =
  Ok (Some (mkAnyEvent (Some (default "id-7" (ae_id e))) (ae_type e) (Some 3%Z)
                       (when_truthy normalize (ae_data e)) (when_truthy normalize (ae_meta e)))).
Proof.
  intros e.
  assert (Hwf : ∀ x, payload_in (as_stream_event e) x → json_wf x = true).
  { intros x [Hx|Hx]; simpl in Hx; inversion Hx; reflexivity. }
  split; [exact Hwf|]. apply unsafeEmpty_roundtrip. exact Hwf.
Defined.

(** The run-length deflater makes [11111111] three bytes long: it is
    stored deflated, and decoding inflates it back. *)
Example deflate_demo_compressed :
  deflate_encode (JNum 11111111) = (Some 1%Z, Some [Byte.x01; Byte.x08; Byte.x31]) ∧
  deflate_decode (Some 1%Z, Some [Byte.x01; Byte.x08; Byte.x31]) = Ok (JNum 11111111).
Proof. split; vm_compute; reflexivity. Qed.
