(* ===== verification/JsonCodec.v ===== *)
(** * The JSON codec, the upcast codec and the validators of the codec tests

    [Codec.json] and [Codec.upcast] live in the core package outside the
    staged sources: they are modelled from the spec (section 4.1) and from
    what [packages/core/test/Codec.test.ts] shows of them: [encode] keeps
    the event's id and serializes a present payload (lines 27-36), and
    [tryDecode] gives back [{type, data}] without the stored id (lines
    17-24), parsing each present text with [JSON.parse].  The
    custom validators [date] and [schema] are those of
    [packages/core/test/Codec.test.ts] (lines 73-91), and the test
    scenarios of that file are proved for every [DateText]. *)

From S2P Require Import Prelude Types Json Codec.

(** A validator of [Codec.Upcast.body]: the raw payload to the typed one; it
    throws on a payload it does not accept. *)
Abbreviation Validator := (option jsval → result jsval).

Section JsonCodec.
Context `{DT : !DateText}.

(** [x ? JSON.parse(x) : undefined] on a stored text: the empty text is
    falsy; a text that does not parse throws [SyntaxError]. *)
Definition parse_payload (p : option string) : result (option jsval) :=
  match p with
  | Some s => if bool_decide (s = EmptyString) then Ok None else v ← parse s; Ok (Some v)
  | None => Ok None
  end.

(** [x ? JSON.stringify(x) : undefined] on a payload. *)
Definition stringify_payload (p : option jsval) : option string :=
  match p with
  | Some x => if truthy x then Some (stringify x) else None
  | None => None
  end.

(** [Codec.json()]: [encode] writes the event's id and its payload and
    metadata as text; [tryDecode] reads back type, payload and metadata,
    not the id. *)
Definition json {C} : Codec (AnyEvent jsval) string C :=
  mkCodec
    (λ te, d ← parse_payload (te_data te); m ← parse_payload (te_meta te);
           Ok (Some (mkAnyEvent None (te_type te) None d m)))
    (λ e _, mkStreamEvent (ae_id e) (ae_type e) (stringify_payload (ae_data e))
                          (stringify_payload (ae_meta e))).

(** What a payload written by [json] reads back as: a truthy one with its
    dates as ISO text, a falsy one as absent. *)
Definition read_back (p : option jsval) : option jsval :=
  match p with
  | Some x => if truthy x then Some (normalize x) else None
  | None => None
  end.

(** [Codec.upcast(base, Codec.Upcast.body(mapping))]: an event whose type
    has no validator is skipped; a registered type whose payload the
    validator rejects is an [UpcastValidationError]. *)
Definition upcast {C} (base : Codec (AnyEvent jsval) string C) (mapping : gmap string Validator)
    : Codec (AnyEvent jsval) string C :=
  mkCodec
    (λ te,
      ev ← tryDecode base te;
      match ev with
      | None => Ok None
      | Some raw =>
          match mapping !! ae_type raw with
          | None => Ok None
          | Some validate =>
              match validate (ae_data raw) with
              | Ok d => Ok (Some (mkAnyEvent (ae_id raw) (ae_type raw) (ae_index raw) (Some d) (ae_meta raw)))
              | Err _ => Err (UpcastValidationError (ae_type raw))
              end
          end
      end)
    (Types.encode base).

(** ** The validators of [Codec.test.ts] *)

(** [e[k]] on a payload: [undefined] and [null] throw a [TypeError]; a key
    an object lacks, or any key of another value, is [undefined]. *)
Definition js_get (e : option jsval) (k : string) : result (option jsval) :=
  match e with
  | None | Some JNull => Err (UserError "TypeError")
  | Some (JObj fs) => Ok ((λ p, p.2.2) <$> list_find (λ kv, kv.1 = k) fs)
  | Some _ => Ok None
  end.

(** [date] (lines 73-81). *)
Definition date (x : option jsval) : result jsval :=
  match x with
  | Some (JDate t) => Ok (JDate t)
  | Some (JStr s) =>
      match parseDate s with
      | Some t => Ok (JDate t)
      | None => Err (UserError "unable to decode date")
      end
  | _ => Err (UserError "unable to decode date")
  end.

(** [schema(mapping)] (lines 83-91): [Object.entries(mapping).map(...)],
    left to right, the first throw propagating. *)
Fixpoint schema_entries (mapping : list (string * Validator)) (e : option jsval)
    : result (list (string * jsval)) :=
  match mapping with
  | [] => Ok []
  | (k, decode) :: rest =>
      x ← js_get e k;
      v ← decode x;
      vs ← schema_entries rest e;
      Ok ((k, v) :: vs)
  end.

Definition schema (mapping : list (string * Validator)) : Validator :=
  λ e, JObj <$> schema_entries mapping e.

(** [HelloSchema = schema({ at: date })] and the codec of lines 93-95. *)
Definition HelloSchema : Validator := schema [("at", date)].

Definition hello_codec : Codec (AnyEvent jsval) string unit :=
  upcast json {[ "Hello" := HelloSchema ]}.


(** ** The JSON codec *)

Lemma stringify_nonempty v : stringify v ≠ EmptyString.
Proof.
  unfold stringify. destruct (print_head v []) as (c & r & Hp & _). rewrite app_nil_r in Hp.
  by rewrite Hp.
Qed.

Lemma parse_payload_stringify p :
  (∀ x, p = Some x → json_wf x = true) →
  parse_payload (stringify_payload p) = Ok (read_back p).
Proof.
  intros Hwf. destruct p as [x|]; [|done]. simpl. destruct (truthy x); [|done]. simpl.
  rewrite bool_decide_false by apply stringify_nonempty. by rewrite parse_stringify by auto.
Qed.

(** Decoding what [json] encoded, whatever id and position the store gave
    the event. *)
Lemma json_decode_encode {C} (e : AnyEvent jsval) (ctx : C) fresh idx :
  (∀ x, payload_in (as_stream_event e) x → json_wf x = true) →
  tryDecode (C := C) json (to_timeline fresh idx (Types.encode json e ctx)) =
  Ok (Some (mkAnyEvent None (ae_type e) None (read_back (ae_data e)) (read_back (ae_meta e)))).
Proof.
  intros Hwf. simpl.
  rewrite !parse_payload_stringify; try (intros x Hx; apply Hwf; unfold payload_in; simpl; auto; fail); done.
Qed.

(** ** The upcast codec *)
Section Upcast.
Context {C : Type} (base : Codec (AnyEvent jsval) string C) (mapping : gmap string Validator).

(** Decoding an event of a registered type runs its validator on the
    payload the base codec read. *)
Lemma upcast_decode_registered te raw validate :
  tryDecode base te = Ok (Some raw) → mapping !! ae_type raw = Some validate →
  tryDecode (upcast base mapping) te =
    match validate (ae_data raw) with
    | Ok d => Ok (Some (mkAnyEvent (ae_id raw) (ae_type raw) (ae_index raw) (Some d) (ae_meta raw)))
    | Err _ => Err (UpcastValidationError (ae_type raw))
    end.
Proof. intros Hb Hm. cbn [upcast tryDecode]. by rewrite Hb, bind_Ok, Hm. Qed.

(** C23: An event the base codec reads but whose type has no validator is
    skipped ([None]), not an error. *)
Theorem upcast_skips_unknown te raw :
  tryDecode base te = Ok (Some raw) → mapping !! ae_type raw = None →
  tryDecode (upcast base mapping) te = Ok None.
Proof. intros Hb Hm. cbn [upcast tryDecode]. by rewrite Hb, bind_Ok, Hm. Qed.

(** C22: An event of a registered type whose payload its validator rejects
    makes decoding fail with [UpcastValidationError] of that type. *)
Theorem upcast_rejects_invalid te raw validate err :
  tryDecode base te = Ok (Some raw) → mapping !! ae_type raw = Some validate →
  validate (ae_data raw) = Err err →
  tryDecode (upcast base mapping) te = Err (UpcastValidationError (ae_type raw)).
Proof. intros Hb Hm Hv. by rewrite (upcast_decode_registered _ raw validate), Hv. Qed.

(** Encoding is the base codec's. *)
Lemma upcast_encode e ctx : Types.encode (upcast base mapping) e ctx = Types.encode base e ctx.
Proof. done. Qed.

End Upcast.

(** What the upcast JSON codec reads back of an event it wrote: its type
    and metadata, no id, and the payload its validator builds from the
    stored one, if its type is registered. *)
Lemma upcast_json_decode_encode {C} (mapping : gmap string Validator) (e : AnyEvent jsval)
    (ctx : C) fresh idx :
  (∀ x, payload_in (as_stream_event e) x → json_wf x = true) →
  tryDecode (upcast (C := C) json mapping) (to_timeline fresh idx (Types.encode (upcast json mapping) e ctx)) =
  match mapping !! ae_type e with
  | None => Ok None
  | Some validate =>
      match validate (read_back (ae_data e)) with
      | Ok d => Ok (Some (mkAnyEvent None (ae_type e) None (Some d) (read_back (ae_meta e))))
      | Err _ => Err (UpcastValidationError (ae_type e))
      end
  end.
Proof.
  intros Hwf. rewrite upcast_encode. unfold upcast. cbn [tryDecode].
  rewrite json_decode_encode, bind_Ok by done. done.
Qed.

(** C28: The upcast JSON codec gives back the event it wrote, with the
    typed payload its validator builds from the stored one and the
    metadata it wrote (dates as ISO text), but without an id: whatever id
    the event was written with, or the store gave it, decoding drops it
    (as [Codec.test.ts], lines 17-24, expects). *)
Theorem upcast_json_roundtrip {C} (mapping : gmap string Validator) (e : AnyEvent jsval)
    (ctx : C) fresh idx validate d :
  (∀ x, payload_in (as_stream_event e) x → json_wf x = true) →
  mapping !! ae_type e = Some validate →
  validate (read_back (ae_data e)) = Ok d →
  tryDecode (upcast (C := C) json mapping) (to_timeline fresh idx (Types.encode (upcast json mapping) e ctx)) =
  Ok (Some (mkAnyEvent None (ae_type e) None (Some d) (read_back (ae_meta e)))).
Proof.
  intros Hwf Hm Hv. by rewrite upcast_json_decode_encode, Hm, Hv.
Qed.


(** ** The scenarios of [Codec.test.ts], lines 96-107 *)

Lemma HelloSchema_iso t :
  HelloSchema (Some (JObj [("at", JStr (toISOString t))])) = Ok (JObj [("at", JDate t)]).
Proof. unfold HelloSchema, schema. simpl. by rewrite parseDate_toISOString. Qed.

(** C30: "roundtrips": an event [{type: "Hello", data: {at: date}}] encoded
    by the upcast codec with [schema({at: date})] decodes to that same
    event, the date restored from its ISO text, whatever id and position
    the store gives it. *)
Theorem hello_roundtrips t fresh idx :
  tryDecode hello_codec (to_timeline fresh idx (Types.encode hello_codec
    (mkAnyEvent None "Hello" None (Some (JObj [("at", JDate t)])) None) ())) =
  Ok (Some (mkAnyEvent None "Hello" None (Some (JObj [("at", JDate t)])) None)).
Proof.
  unfold hello_codec. rewrite upcast_json_decode_encode.
  - simpl. rewrite lookup_singleton_eq. by rewrite HelloSchema_iso.
  - intros x [Hx|Hx]; simpl in Hx; inversion Hx; reflexivity.
Qed.

(** C31: "fails if upcast fails": a [Hello] event whose [at] is a string that
    is not a date makes decoding throw. *)
Theorem hello_fails_on_bad_date fresh idx :
  parseDate "hello" = None →
  tryDecode hello_codec (to_timeline fresh idx (Types.encode hello_codec
    (mkAnyEvent None "Hello" None (Some (JObj [("at", JStr "hello")])) None) ())) =
  Err (UpcastValidationError "Hello").
Proof.
  intros Hd. unfold hello_codec. rewrite upcast_encode. unfold upcast. cbn [tryDecode].
  rewrite json_decode_encode, bind_Ok by (intros x [Hx|Hx]; simpl in Hx; inversion Hx; reflexivity).
  simpl. rewrite lookup_singleton. unfold HelloSchema, schema. simpl. by rewrite Hd.
Qed.

End JsonCodec.

(** ** The zod scenarios of [Codec.test.ts] (lines 40-69) *)
Section ZodTests.
Context `{DT : !DateText}.
(** zod's [.datetime()] check on a string (an ISO 8601 format). *)
Context (is_datetime : string → bool).

(** [input[key]] as zod's object schema reads it. *)
Definition zod_field (x : option jsval) (k : string) : option jsval :=
  match x with
  | Some (JObj fs) => (λ p, p.2.2) <$> list_find (λ kv, kv.1 = k) fs
  | _ => None
  end.

(** [z.object({ hello: z.string().datetime().transform((x) => new Date(x)) })
    .parse] (lines 41-46): the object keeps its declared key only.  A text
    zod accepts as a datetime is one [Date] parses; the [None] branch is a
    text the two would disagree on. *)
Definition ZodHelloSchema_parse : Validator := λ x,
  match x with
  | Some (JObj _) =>
      match zod_field x "hello" with
      | Some (JStr s) =>
          if is_datetime s then
            match parseDate s with
            | Some t => Ok (JObj [("hello", JDate t)])
            | None => Err (UserError "ZodError")
            end
          else Err (UserError "ZodError")
      | _ => Err (UserError "ZodError")
      end
  | _ => Err (UserError "ZodError")
  end.

(** The codec of line 47. *)
Definition zod_codec : Codec (AnyEvent jsval) string unit :=
  upcast json {[ "Hello" := ZodHelloSchema_parse ]}.

(** [z.object({ hello: z.date() }).parse] (line 63): [hello] must be a
    [Date] object. *)
Definition ZodDateSchema_parse : Validator := λ x,
  match x with
  | Some (JObj _) =>
      match zod_field x "hello" with
      | Some (JDate t) => Ok (JObj [("hello", JDate t)])
      | _ => Err (UserError "ZodError")
      end
  | _ => Err (UserError "ZodError")
  end.

(** The codec of line 64. *)
Definition zod_date_codec : Codec (AnyEvent jsval) string unit :=
  upcast json {[ "Hello" := ZodDateSchema_parse ]}.

Lemma zod_field_plain x k y : (∀ v, x = Some v → plain v = true) → zod_field x k = Some y → plain y = true.
Proof.
  intros Hx Hf. destruct x as [[| | | | |fs|]|]; try done.
  specialize (Hx _ eq_refl). simpl in Hx. apply (forallb_snd plain) in Hx.
  simpl in Hf. destruct (list_find _ fs) as [[i [k' y']]|] eqn:Hl; simplify_eq/=.
  apply list_find_Some in Hl as (Hi & _). by apply (Forall_lookup_1 _ _ _ _ Hx Hi).
Qed.

(** C33: "roundtrips" with zod (lines 49-54): an event [{type: "Hello",
    data: {hello: date}}] encoded by the codec of line 47 decodes to that
    same event, whatever id and position the store gives it, the date
    restored from its ISO text, as long as zod takes
    the ISO text [JSON.stringify] writes for a [Date] as a datetime. *)
Theorem zod_hello_roundtrips t fresh idx :
  is_datetime (toISOString t) = true →
  tryDecode zod_codec (to_timeline fresh idx (Types.encode zod_codec
    (mkAnyEvent None "Hello" None (Some (JObj [("hello", JDate t)])) None) ())) =
  Ok (Some (mkAnyEvent None "Hello" None (Some (JObj [("hello", JDate t)])) None)).
Proof.
  intros Hdt. unfold zod_codec. rewrite upcast_json_decode_encode.
  - simpl. rewrite lookup_singleton_eq. simpl. by rewrite Hdt, parseDate_toISOString.
  - intros x [Hx|Hx]; simpl in Hx; inversion Hx; reflexivity.
Qed.

(** C32: "does not roundtrip complex types" (lines 62-69), for every event:
    [JSON.parse] never builds a [Date], so [z.date()] rejects every
    [Hello] payload and the codec of line 64 decodes no event at all; an
    event of another type is skipped, one of type [Hello] throws or is
    unreadable. *)
Theorem zod_date_never_decodes te e : tryDecode zod_date_codec te ≠ Ok (Some e).
Proof.
  unfold zod_date_codec, upcast, json. cbn [tryDecode].
  destruct (parse_payload (te_data te)) as [d|] eqn:Hd; [|done]. rewrite bind_Ok.
  destruct (parse_payload (te_meta te)) as [m|]; [|done]. rewrite !bind_Ok. cbn [ae_type ae_data].
  destruct (decide (te_type te = "Hello")) as [->|Hne];
    [rewrite lookup_singleton_eq|by rewrite lookup_singleton_ne].
  assert (Hp : ∀ v, d = Some v → plain v = true).
  { intros v ->. destruct (te_data te) as [txt|]; [|done]. simpl in Hd.
    case_bool_decide; [done|]. destruct (parse txt) as [v'|] eqn:Hparse; simplify_eq/=.
    by eapply parse_plain. }
  unfold ZodDateSchema_parse. destruct d as [[| | | | |fs|]|]; try done.
  destruct (zod_field _ "hello") as [y|] eqn:Hf; [|done].
  pose proof (zod_field_plain _ _ _ Hp Hf). by destruct y.
Qed.

End ZodTests.

(** ** Witnesses, with dates printed as decimal timestamps ([demo_date]) *)

Definition other_event : TimelineEvent string := mkTimelineEvent "id-1" "Other" 0 (Some "{}") None.
Definition hello_empty_event : TimelineEvent string := mkTimelineEvent "id-2" "Hello" 1 (Some "{}") None.

Lemma upcast_skips_unknown_witness :
  tryDecode (C := unit) json other_event = Ok (Some (mkAnyEvent None "Other" None (Some (JObj [])) None)) ∧
  ({[ "Hello" := HelloSchema ]} : gmap string Validator) !! "Other" = None ∧
  tryDecode (upcast (C := unit) json {[ "Hello" := HelloSchema ]}) other_event = Ok None.
Proof.
  assert (Hb : tryDecode (C := unit) json other_event =
               Ok (Some (mkAnyEvent None "Other" None (Some (JObj [])) None)))
    by (vm_compute; reflexivity).
  assert (Hm : ({[ "Hello" := HelloSchema ]} : gmap string Validator) !! "Other" = None)
    by (vm_compute; reflexivity).
  split; [exact Hb|]. split; [exact Hm|]. exact (upcast_skips_unknown json _ _ _ Hb Hm).
Defined.

Lemma upcast_rejects_invalid_witness :
  tryDecode (C := unit) json hello_empty_event = Ok (Some (mkAnyEvent None "Hello" None (Some (JObj [])) None)) ∧
  ({[ "Hello" := HelloSchema ]} : gmap string Validator) !! "Hello" = Some HelloSchema ∧
  HelloSchema (Some (JObj [])) = Err (UserError "unable to decode date") ∧
  tryDecode (upcast (C := unit) json {[ "Hello" := HelloSchema ]}) hello_empty_event =
    Err (UpcastValidationError "Hello").
Proof.
  assert (Hb : tryDecode (C := unit) json hello_empty_event =
               Ok (Some (mkAnyEvent None "Hello" None (Some (JObj [])) None)))
    by (vm_compute; reflexivity).
  assert (Hm : ({[ "Hello" := HelloSchema ]} : gmap string Validator) !! "Hello" = Some HelloSchema)
    by apply lookup_singleton_eq.
  assert (Hv : HelloSchema (Some (JObj [])) = Err (UserError "unable to decode date"))
    by reflexivity.
  split; [exact Hb|]. split; [exact Hm|]. split; [exact Hv|].
  exact (upcast_rejects_invalid json _ _ _ _ _ Hb Hm Hv).
Defined.

Definition hello_text_event : AnyEvent jsval :=
  mkAnyEvent None "Hello" None (Some (JObj [("at", JStr "5")])) None.

Lemma upcast_json_roundtrip_witness :
  (∀ x, payload_in (as_stream_event hello_text_event) x → json_wf x = true) ∧
  ({[ "Hello" := HelloSchema ]} : gmap string Validator) !! ae_type hello_text_event = Some HelloSchema ∧
  HelloSchema (read_back (ae_data hello_text_event)) = Ok (JObj [("at", JDate 5)]) ∧
  tryDecode (upcast (C := unit) json {[ "Hello" := HelloSchema ]})
    (to_timeline "id-3" 2 (Types.encode (upcast json {[ "Hello" := HelloSchema ]}) hello_text_event ())) =
  Ok (Some (mkAnyEvent None (ae_type hello_text_event) None
                       (Some (JObj [("at", JDate 5)])) (read_back (ae_meta hello_text_event)))).
Proof.
  assert (Hwf : ∀ x, payload_in (as_stream_event hello_text_event) x → json_wf x = true)
    by (intros x [Hx|Hx]; simpl in Hx; inversion Hx; reflexivity).
  assert (Hm : ({[ "Hello" := HelloSchema ]} : gmap string Validator) !! ae_type hello_text_event
               = Some HelloSchema) by apply lookup_singleton_eq.
  assert (Hv : HelloSchema (read_back (ae_data hello_text_event)) = Ok (JObj [("at", JDate 5)]))
    by (vm_compute; reflexivity).
  split; [exact Hwf|]. split; [exact Hm|]. split; [exact Hv|].
  exact (upcast_json_roundtrip _ _ () "id-3" 2 _ _ Hwf Hm Hv).
Defined.

Lemma hello_fails_on_bad_date_witness :
  parseDate "hello" = None ∧
  tryDecode hello_codec (to_timeline "id-4" 0 (Types.encode hello_codec
    (mkAnyEvent None "Hello" None (Some (JObj [("at", JStr "hello")])) None) ())) =
  Err (UpcastValidationError "Hello").
Proof.
  assert (Hd : parseDate "hello" = None) by (vm_compute; reflexivity).
  split; [exact Hd|]. exact (hello_fails_on_bad_date "id-4" 0 Hd).
Defined.

(** zod's datetime check read as "a text [Date] parses". *)
Definition demo_is_datetime (s : string) : bool :=
  match parseDate s with Some _ => true | None => false end.

Lemma zod_hello_roundtrips_witness :
  demo_is_datetime (toISOString 5) = true ∧
  tryDecode (zod_codec demo_is_datetime) (to_timeline "id-5" 0 (Types.encode (zod_codec demo_is_datetime)
    (mkAnyEvent None "Hello" None (Some (JObj [("hello", JDate 5)])) None) ())) =
  Ok (Some (mkAnyEvent None "Hello" None (Some (JObj [("hello", JDate 5)])) None)).
Proof.
  assert (Hd : demo_is_datetime (toISOString 5) = true) by (vm_compute; reflexivity).
  split; [exact Hd|]. exact (zod_hello_roundtrips demo_is_datetime 5 "id-5" 0 Hd).
Defined.
