(* ===== verification/Reader.v ===== *)
(** * The category reader and the checkpoint store (spec sections 4.5, 4.6)

    The reader of the message-db consumer package is not under [src/]; its
    test [packages/message-db-consumer/tests/reader.test.mts] is.  The
    store is a list of messages in global-position order, each with the
    name of its stream; [readCategoryMessages] filters it by category,
    position, optional condition and consumer-group shard, cuts it to the
    batch size and reports the checkpoint and [isTail].  The checkpoint
    store maps (category, group) to a position; [dispatch] is the loop of
    the spec's control flow: read from the stored checkpoint, hand the
    batch over, store the new checkpoint. *)

From S2P Require Import Prelude Types Json.
From Stdlib Require Import Sorting.Sorted.
From stdpp Require Import sorting.

(** A message of a category read: its stream, its global position, the
    event. *)
Record CategoryMessage (F : Type) := mkCategoryMessage {
  msg_stream : string;
  msg_global : Z;
  msg_event : TimelineEvent F
}.
Arguments mkCategoryMessage {F} _ _ _.
Arguments msg_stream {F} _.
Arguments msg_global {F} _.
Arguments msg_event {F} _.

(** The underlying store: every message, in global-position order, and the
    server-side flag [message_store.sql_condition]. *)
Record MessageStore (F : Type) := mkMessageStore {
  ms_log : list (CategoryMessage F);
  ms_sql_condition : bool
}.
Arguments mkMessageStore {F} _ _.
Arguments ms_log {F} _.
Arguments ms_sql_condition {F} _.

(** The arguments of [readCategoryMessages]; the SQL condition is the
    predicate it stands for. *)
Record ReadRequest (F : Type) := mkReadRequest {
  rq_category : string;
  rq_fromPositionInclusive : Z;
  rq_batchSize : nat;
  rq_condition : option (CategoryMessage F → bool);
  rq_consumerGroupMember : option nat;
  rq_consumerGroupSize : option nat
}.
Arguments mkReadRequest {F} _ _ _ _ _ _.
Arguments rq_category {F} _.
Arguments rq_fromPositionInclusive {F} _.
Arguments rq_batchSize {F} _.
Arguments rq_condition {F} _.
Arguments rq_consumerGroupMember {F} _.
Arguments rq_consumerGroupSize {F} _.

Record Batch (F : Type) := mkBatch {
  messages : list (CategoryMessage F);
  checkpoint : Z;
  isTail : bool
}.
Arguments mkBatch {F} _ _ _.
Arguments messages {F} _.
Arguments checkpoint {F} _.
Arguments isTail {F} _.

(** The checkpoint store: (category, group) to a position. *)
Abbreviation CheckpointStore := (gmap (string * string) Z).

(** ** Generic facts on strictly sorted lists *)
Section Sorted.
Context {A : Type} (R : A → A → Prop).

Lemma StronglySorted_filter (P : A → Prop) `{∀ x, Decision (P x)} l :
  StronglySorted R l → StronglySorted R (filter P l).
Proof.
  induction 1 as [|x l _ IH Hx]; [constructor|]. rewrite filter_cons.
  case_decide; [|done]. constructor; [done|].
  rewrite Forall_forall in Hx |- *. intros y Hy.
  apply list_elem_of_filter in Hy as [_ Hy]. auto.
Qed.

Lemma StronglySorted_app_rel xs ys x y :
  StronglySorted R (xs ++ ys) → x ∈ xs → y ∈ ys → R x y.
Proof.
  induction xs as [|z xs IH]; simpl; [by intros _ ?%elem_of_nil|].
  intros Hs Hx Hy. apply StronglySorted_inv in Hs as [Hs Hz].
  apply elem_of_cons in Hx as [->|Hx]; [|by apply IH].
  rewrite Forall_forall in Hz. apply Hz, elem_of_app. by right.
Qed.

Lemma StronglySorted_app l1 l2 :
  StronglySorted R l1 → StronglySorted R l2 → (∀ x y, x ∈ l1 → y ∈ l2 → R x y) →
  StronglySorted R (l1 ++ l2).
Proof.
  induction 1 as [|x l1 _ IH Hx]; intros H2 Hr; simpl; [done|].
  constructor; [apply IH; [done|]; intros; apply Hr; [right|]; done|].
  apply Forall_app. split; [done|]. apply Forall_forall. intros y Hy. apply Hr; [left|]; done.
Qed.

Lemma sorted_last_max l x y :
  StronglySorted R l → last l = Some x → y ∈ l → y = x ∨ R y x.
Proof.
  intros Hs [l' ->]%last_Some [Hy|Hy%list_elem_of_singleton]%elem_of_app; [|by left].
  right. by apply (StronglySorted_app_rel l' [x]); [| |left].
Qed.

(** In a sorted list the last of a longer prefix is not before the last of
    a shorter one. *)
Lemma last_take_mono l n1 n2 x y :
  StronglySorted R l → n1 ≤ n2 →
  last (take n1 l) = Some x → last (take n2 l) = Some y → x = y ∨ R x y.
Proof.
  intros Hs Hn Hx Hy.
  assert (Ht : take n2 l = take n1 l ++ take (n2 - n1) (drop n1 l)).
  { rewrite take_take_drop. f_equal. lia. }
  rewrite Ht, last_app in Hy.
  destruct (last (take (n2 - n1) (drop n1 l))) as [z|] eqn:Hz; [|by left; congruence].
  right. injection Hy as <-. apply last_Some_elem_of in Hx, Hz.
  apply (StronglySorted_app_rel (take n1 l) (drop n1 l)); [by rewrite take_drop|done|].
  by apply subseteq_take in Hz.
Qed.
End Sorted.

Section Reader.
Context {F : Type}.
(** The deterministic hash of a stream's identity that shards a category. *)
Context (hash : string → nat).

(** The shard of a stream in a group of [size] members. *)
Definition shard (size : nat) (sn : string) : nat := hash sn mod size.

Definition in_group (rq : ReadRequest F) (m : CategoryMessage F) : bool :=
  match rq_consumerGroupMember rq, rq_consumerGroupSize rq with
  | Some member, Some size => Nat.eqb (shard size (msg_stream m)) member
  | _, _ => true
  end.

(** Whether the store returns [m] for [rq], before the batch size cut. *)
Definition selected (rq : ReadRequest F) (m : CategoryMessage F) : bool :=
  bool_decide (category_of (msg_stream m) = rq_category rq) &&
  bool_decide (rq_fromPositionInclusive rq ≤ msg_global m)%Z &&
  default true ((λ c, c m) <$> rq_condition rq) &&
  in_group rq m.

(** [readCategoryMessages]: fails fast on a condition the store does not
    honour; otherwise the first [batchSize] selected messages, the
    position of the last one (the requested position if there is none),
    and whether fewer than [batchSize] came back. *)
Definition readCategoryMessages (st : MessageStore F) (rq : ReadRequest F) : result (Batch F) :=
  if (if rq_condition rq is Some _ then negb (ms_sql_condition st) else false)
  then Err ConditionNotActivated
  else
    let ms := take (rq_batchSize rq) (filter (λ m, selected rq m = true) (ms_log st)) in
    Ok (mkBatch ms (default (rq_fromPositionInclusive rq) (msg_global <$> last ms))
                (Nat.ltb (length ms) (rq_batchSize rq))).

(** Global positions strictly increase along the store. *)
Definition before (m1 m2 : CategoryMessage F) : Prop := (msg_global m1 < msg_global m2)%Z.
Definition positions_sorted (st : MessageStore F) : Prop := StronglySorted before (ms_log st).
Global Instance before_dec m1 m2 : Decision (before m1 m2) := Z.lt_dec _ _.

(** ** The checkpoint store *)

Definition ckpt_read (cs : CheckpointStore) (category group : string) : option Z :=
  cs !! (category, group).

(** [write] replaces the stored position, whatever it was. *)
Definition ckpt_write (cs : CheckpointStore) (category group : string) (pos : Z) : CheckpointStore :=
  <[(category, group) := pos]> cs.

(** A request read from another position. *)
Definition with_from (rq : ReadRequest F) (from : Z) : ReadRequest F :=
  mkReadRequest (rq_category rq) from (rq_batchSize rq) (rq_condition rq)
    (rq_consumerGroupMember rq) (rq_consumerGroupSize rq).

(** One turn of the consumer loop for one group member: read from the
    stored checkpoint (from [rq]'s position the first time), hand the
    batch over, store the batch's checkpoint. *)
Definition dispatch (st : MessageStore F) (cs : CheckpointStore) (group : string)
    (rq : ReadRequest F) : result (list (CategoryMessage F) * CheckpointStore) :=
  let from := default (rq_fromPositionInclusive rq) (ckpt_read cs (rq_category rq) group) in
  batch ← readCategoryMessages st (with_from rq from);
  Ok (messages batch, ckpt_write cs (rq_category rq) group (checkpoint batch)).

(** [n] turns of the consumer loop: every message handed over, in order. *)
Fixpoint consume (st : MessageStore F) (cs : CheckpointStore) (group : string)
    (rq : ReadRequest F) (n : nat) : result (list (CategoryMessage F)) :=
  match n with
  | 0 => Ok []
  | S n' =>
      '(ms, cs') ← dispatch st cs group rq;
      rest ← consume st cs' group rq n';
      Ok (ms ++ rest)
  end.

(** The same read, by member [k] of a group of [size], or by no group. *)
Definition as_member (rq : ReadRequest F) (k size : nat) : ReadRequest F :=
  mkReadRequest (rq_category rq) (rq_fromPositionInclusive rq) (rq_batchSize rq)
    (rq_condition rq) (Some k) (Some size).
Definition ungrouped (rq : ReadRequest F) : ReadRequest F :=
  mkReadRequest (rq_category rq) (rq_fromPositionInclusive rq) (rq_batchSize rq)
    (rq_condition rq) None None.

(** ** The result of a read *)
Lemma read_ok st rq b :
  readCategoryMessages st rq = Ok b →
  let ms := take (rq_batchSize rq) (filter (λ m, selected rq m = true) (ms_log st)) in
  messages b = ms ∧
  checkpoint b = default (rq_fromPositionInclusive rq) (msg_global <$> last ms) ∧
  isTail b = Nat.ltb (length ms) (rq_batchSize rq).
Proof.
  unfold readCategoryMessages. destruct (if _ is Some _ then _ else _); [done|].
  by intros [= <-].
Qed.

Lemma read_succeeds st rq :
  (rq_condition rq = None ∨ ms_sql_condition st = true) →
  ∃ b, readCategoryMessages st rq = Ok b.
Proof.
  unfold readCategoryMessages. intros [->| ->]; [by eexists|].
  destruct (rq_condition rq); by eexists.
Qed.

(** A read fails only when it asks for a condition the store has not
    activated, and then with [ConditionNotActivated] and no partial batch. *)
Theorem read_fails_only_on_condition st rq e :
  readCategoryMessages st rq = Err e ↔
  e = ConditionNotActivated ∧ is_Some (rq_condition rq) ∧ ms_sql_condition st = false.
Proof.
  unfold readCategoryMessages. split.
  - destruct (rq_condition rq), (ms_sql_condition st); simpl; intros H; simplify_eq; eauto.
  - intros (-> & [c ->] & ->). done.
Qed.

(** ** The store's positions *)
Lemma imap_positions (c : Z) (f : nat → string → CategoryMessage F) types :
  (∀ i ty, msg_global (f i ty) = c + Z.of_nat i)%Z →
  StronglySorted before (imap f types) ∧ ∀ y, y ∈ imap f types → (c ≤ msg_global y)%Z.
Proof.
  revert c f. induction types as [|ty tys IH]; intros c f Hf; simpl.
  - split; [constructor|]. by intros ? ?%elem_of_nil.
  - destruct (IH (c + 1)%Z (λ i, f (S i))) as [Hs Hge].
    { intros i ty'. rewrite Hf. lia. }
    assert (Hhd : msg_global (f 0 ty) = c) by (rewrite Hf; lia).
    split.
    + constructor; [done|]. apply Forall_forall. intros y Hy. apply Hge in Hy. unfold before. lia.
    + intros y [->|Hy]%elem_of_cons; [lia|]. apply Hge in Hy. lia.
Qed.

(** ** Consumer groups *)
Lemma selected_as_member rq k size m :
  selected (as_member rq k size) m = selected (ungrouped rq) m && Nat.eqb (shard size (msg_stream m)) k.
Proof. unfold selected, in_group. simpl. by rewrite andb_true_r. Qed.

Lemma read_all st rq b :
  length (ms_log st) ≤ rq_batchSize rq →
  readCategoryMessages st rq = Ok b →
  ∀ m, m ∈ messages b ↔ m ∈ ms_log st ∧ selected rq m = true.
Proof.
  intros Hlen Hr m. destruct (read_ok _ _ _ Hr) as (-> & _ & _).
  rewrite take_ge; [by rewrite list_elem_of_filter; naive_solver|].
  etrans; [apply length_filter|]. done.
Qed.

Lemma read_ok_condition st rq b :
  readCategoryMessages st rq = Ok b → rq_condition rq = None ∨ ms_sql_condition st = true.
Proof.
  unfold readCategoryMessages. destruct (rq_condition rq), (ms_sql_condition st); naive_solver.
Qed.

(** ** Checkpoints *)

(** A sorted list splits at a position: the messages before it, then the
    messages from it on. *)
Lemma sorted_split_at (L : list (CategoryMessage F)) t :
  StronglySorted before L →
  ∃ A, L = A ++ filter (λ m, t ≤ msg_global m)%Z L ∧ ∀ m, m ∈ A → (msg_global m < t)%Z.
Proof.
  induction 1 as [|x L _ IH Hx]; [exists []; split; [done|by intros ? ?%elem_of_nil]|]. rewrite filter_cons. case_decide as Ht.
  - exists []. split; [|by intros ? ?%elem_of_nil]. simpl. f_equal. symmetry.
    apply filter_all. eapply Forall_impl; [exact Hx|]. unfold before. intros; lia.
  - destruct IH as (A & HA & Hlt). exists (x :: A). split; [by rewrite HA at 1|].
    intros m [->|Hm]%elem_of_cons; [lia|auto].
Qed.

Lemma selected_with_from rq from1 from2 m :
  (from1 ≤ from2)%Z →
  selected (with_from rq from2) m = true ↔
  selected (with_from rq from1) m = true ∧ (from2 ≤ msg_global m)%Z.
Proof.
  intros Hle. unfold selected; simpl. rewrite !andb_true_iff, !bool_decide_eq_true.
  split; intros; destruct_and!; split_and!; auto; lia.
Qed.

(** Checkpoint monotonicity (spec section 8): on a store whose global
    positions increase, reading from a later position never gives an
    earlier checkpoint. *)
Theorem checkpoint_monotone st rq from1 from2 b1 b2 :
  positions_sorted st → (from1 ≤ from2)%Z →
  readCategoryMessages st (with_from rq from1) = Ok b1 →
  readCategoryMessages st (with_from rq from2) = Ok b2 →
  (checkpoint b1 ≤ checkpoint b2)%Z.
Proof.
  intros Hs Hle H1 H2.
  destruct (read_ok _ _ _ H1) as (_ & -> & _), (read_ok _ _ _ H2) as (_ & -> & _). simpl.
  set (L := filter (λ m, selected (with_from rq from1) m = true) (ms_log st)).
  assert (HL : StronglySorted before L) by (by apply StronglySorted_filter).
  assert (HL2 : filter (λ m, selected (with_from rq from2) m = true) (ms_log st) =
                filter (λ m, from2 ≤ msg_global m)%Z L).
  { unfold L. rewrite list_filter_filter. apply list_filter_iff.
    intros m. rewrite selected_with_from by done. tauto. }
  rewrite HL2. destruct (sorted_split_at L from2 HL) as (A & HA & HAlt).
  set (L2 := filter (λ m, from2 ≤ msg_global m)%Z L) in *.
  assert (HL2ge : ∀ m, m ∈ L2 → (from2 ≤ msg_global m)%Z).
  { intros m Hm. by apply list_elem_of_filter in Hm as [? _]. }
  assert (HsL2 : StronglySorted before L2) by (by apply StronglySorted_filter).
  destruct (last (take (rq_batchSize rq) L2)) as [m2|] eqn:Hm2; simpl.
  - (* the later read returned something: compare the two last messages *)
    rewrite HA, take_app.
    destruct (decide (rq_batchSize rq ≤ length A)) as [Hb|Hb].
    + rewrite (proj2 (Nat.sub_0_le _ _) Hb), take_0, app_nil_r.
      destruct (last (take _ A)) as [m1|] eqn:Hm1; simpl.
      * apply last_Some_elem_of, subseteq_take, HAlt in Hm1.
        apply last_Some_elem_of, subseteq_take, HL2ge in Hm2. lia.
      * apply last_Some_elem_of, subseteq_take, HL2ge in Hm2. lia.
    + rewrite take_ge by lia. rewrite last_app.
      destruct (last (take (rq_batchSize rq - length A) L2)) as [m1|] eqn:Hm1; simpl.
      * destruct (last_take_mono before L2 _ _ _ _ HsL2 (Nat.le_sub_l _ _) Hm1 Hm2) as [->|Hb']; [lia|].
        unfold before in Hb'. lia.
      * destruct (last A) as [m1|] eqn:HmA; simpl.
        -- apply last_Some_elem_of, HAlt in HmA.
           apply last_Some_elem_of, subseteq_take, HL2ge in Hm2. lia.
        -- apply last_Some_elem_of, subseteq_take, HL2ge in Hm2. lia.
  - (* the later read returned nothing: its checkpoint is [from2] *)
    destruct (rq_batchSize rq) as [|n]; [simpl; lia|].
    apply last_None in Hm2. destruct L2 as [|m L2']; [|done].
    rewrite app_nil_r in HA.
    destruct (last (take _ L)) as [m1|] eqn:Hm1; simpl; [|lia].
    apply last_Some_elem_of, subseteq_take in Hm1. rewrite HA in Hm1. apply HAlt in Hm1. lia.
Qed.

Lemma selected_from_self rq from m :
  selected (with_from rq from) m = true → selected (with_from rq (msg_global m)) m = true.
Proof.
  intros Hm. apply (selected_with_from rq from); [|done].
  unfold selected in Hm. simpl in Hm. apply andb_true_iff in Hm as [Hm _].
  apply andb_true_iff in Hm as [Hm _]. apply andb_true_iff in Hm as [_ Hm].
  by apply bool_decide_eq_true in Hm.
Qed.

(** Resuming from the stored checkpoint, which is the position of the
    last message handed over, reads that message again: with a batch size
    of 1, once [dispatch] has handed a message over, every later turn hands
    the same message over and stores the same checkpoint, so the consumer
    never gets past it. *)
Theorem dispatch_livelock st cs group rq ms cs' :
  rq_batchSize rq = 1 →
  dispatch st cs group rq = Ok (ms, cs') → ms ≠ [] →
  dispatch st cs' group rq = Ok (ms, cs').
Proof.
  intros Hb Hd Hne. unfold dispatch in *.
  set (from := default (rq_fromPositionInclusive rq) (ckpt_read cs (rq_category rq) group)) in *.
  destruct (readCategoryMessages st (with_from rq from)) as [b|] eqn:Hr; [|done].
  simpl in Hd. injection Hd as <- <-.
  destruct (read_ok _ _ _ Hr) as (Hms & Hcp & _). simpl in Hms, Hcp. rewrite Hb in Hms, Hcp.
  destruct (filter _ (ms_log st)) as [|m R] eqn:HL; [by rewrite Hms in Hne|].
  simpl in Hms, Hcp.
  assert (Hsel : selected (with_from rq from) m = true).
  { assert (Hin : m ∈ filter (λ m, selected (with_from rq from) m = true) (ms_log st))
      by (rewrite HL; left). by apply list_elem_of_filter in Hin as [? _]. }
  unfold ckpt_read, ckpt_write. rewrite lookup_insert_eq. simpl. rewrite Hcp.
  destruct (read_succeeds st (with_from rq (msg_global m))) as [b' Hr'].
  { apply (read_ok_condition _ _ _ Hr). }
  rewrite Hr'. simpl. destruct (read_ok _ _ _ Hr') as (Hms' & Hcp' & _). simpl in Hms', Hcp'.
  assert (HL' : filter (λ m', selected (with_from rq (msg_global m)) m' = true) (ms_log st) =
                filter (λ m', msg_global m ≤ msg_global m')%Z (m :: R)).
  { rewrite <- HL, list_filter_filter. apply list_filter_iff. intros m'.
    rewrite (selected_with_from rq from); [tauto|].
    unfold selected in Hsel. simpl in Hsel. rewrite !andb_true_iff, !bool_decide_eq_true in Hsel. tauto. }
  rewrite HL', filter_cons, decide_True in Hms', Hcp' by lia. rewrite Hb in Hms', Hcp'. simpl in Hms', Hcp'.
  rewrite Hms', Hcp', Hms. by rewrite insert_insert_eq.
Qed.

(** What member [k] of a group reads, when the batch size cuts nothing:
    the ungrouped result restricted to the streams of shard [k]. *)
Lemma read_member_iff st rq k size bk b m :
  length (ms_log st) ≤ rq_batchSize rq →
  readCategoryMessages st (as_member rq k size) = Ok bk →
  readCategoryMessages st (ungrouped rq) = Ok b →
  m ∈ messages bk ↔ m ∈ messages b ∧ shard size (msg_stream m) = k.
Proof.
  intros Hlen Hbk Hb.
  rewrite (read_all st (as_member rq k size) bk Hlen Hbk), (read_all st (ungrouped rq) b Hlen Hb).
  rewrite selected_as_member, andb_true_iff, Nat.eqb_eq. naive_solver.
Qed.

(** Consumer groups partition a category: for a group of [size]
    members, every member's read succeeds when the ungrouped one does; a
    message is in the ungrouped result exactly when it is in the result of
    some member; and no message reaches two members (reads with a batch
    size that does not cut the result). *)
Theorem consumer_groups_partition st rq size b :
  0 < size →
  length (ms_log st) ≤ rq_batchSize rq →
  readCategoryMessages st (ungrouped rq) = Ok b →
  (∀ k, ∃ bk, readCategoryMessages st (as_member rq k size) = Ok bk) ∧
  (∀ m, m ∈ messages b ↔
     ∃ k bk, k < size ∧ readCategoryMessages st (as_member rq k size) = Ok bk ∧ m ∈ messages bk) ∧
  (∀ k1 k2 b1 b2 m,
     readCategoryMessages st (as_member rq k1 size) = Ok b1 →
     readCategoryMessages st (as_member rq k2 size) = Ok b2 →
     m ∈ messages b1 → m ∈ messages b2 → k1 = k2).
Proof.
  intros Hsize Hlen Hb.
  assert (Hk : ∀ k, ∃ bk, readCategoryMessages st (as_member rq k size) = Ok bk).
  { intros k. apply read_succeeds. apply (read_ok_condition _ _ _ Hb). }
  assert (Hm : ∀ k bk m, readCategoryMessages st (as_member rq k size) = Ok bk →
             m ∈ messages bk ↔ m ∈ messages b ∧ shard size (msg_stream m) = k)
    by (intros k bk m Hbk; by apply (read_member_iff st rq k size bk b m Hlen Hbk Hb)).
  split_and!; [done| |].
  - intros m. split.
    + intros Hin. destruct (Hk (shard size (msg_stream m))) as [bk Hbk].
      exists (shard size (msg_stream m)), bk. split_and!; [apply Nat.mod_upper_bound; lia|done|].
      by apply (Hm _ _ _ Hbk).
    + intros (k & bk & _ & Hbk & Hin). by apply (Hm _ _ _ Hbk).
  - intros k1 k2 b1 b2 m H1 H2 Hin1 Hin2.
    apply (Hm _ _ _ H1) in Hin1 as [_ <-]. by apply (Hm _ _ _ H2) in Hin2 as [_ <-].
Qed.

End Reader.

(** ** The fixtures and scenarios of [reader.test.mts] *)

(** The store appends a batch to a stream: consecutive global positions
    after the last one (message-db starts at 1), stream positions after
    the stream's last one, ids from the global position. *)
Definition append_messages {F} (st : MessageStore F) (sn : string) (types : list string)
    : MessageStore F :=
  let g0 := default 0%Z (msg_global <$> last (ms_log st)) in
  let p0 := length (filter (λ m, msg_stream m = sn) (ms_log st)) in
  mkMessageStore
    (ms_log st ++ imap (λ i ty,
       let g := (g0 + 1 + Z.of_nat i)%Z in
       mkCategoryMessage sn g (mkTimelineEvent ("id-" +:+ String.string_of_list_ascii (print_num g)) ty (Z.of_nat (p0 + i)) None None))
       types)
    (ms_sql_condition st).

Definition empty_store {F} : MessageStore F := mkMessageStore [] false.

(** Appending to a stream keeps the store's global positions strictly
    increasing, the order the reader's checkpoints rely on. *)
Theorem append_keeps_positions_sorted {F} (st : MessageStore F) sn types :
  positions_sorted st → positions_sorted (append_messages st sn types).
Proof.
  intros Hs. unfold positions_sorted, append_messages; simpl.
  set (g0 := default 0%Z (msg_global <$> last (ms_log st))).
  destruct (imap_positions (F := F) (g0 + 1) (λ i ty, mkCategoryMessage sn (g0 + 1 + Z.of_nat i)%Z
              (mkTimelineEvent ("id-" +:+ String.string_of_list_ascii (print_num (g0 + 1 + Z.of_nat i)%Z)) ty
                 (Z.of_nat (length (filter (λ m, msg_stream m = sn) (ms_log st)) + i)) None None))
              types) as [Hn Hge]; [done|].
  apply StronglySorted_app; [done|done|].
  intros x y Hx Hy. apply Hge in Hy. unfold before.
  destruct (last (ms_log st)) as [l|] eqn:Hl.
  - unfold g0 in Hy. simpl in Hy.
    destruct (sorted_last_max before _ l x Hs Hl Hx) as [->|Hlt]; [lia|unfold before in Hlt; lia].
  - apply last_None in Hl. rewrite Hl in Hx. by apply elem_of_nil in Hx.
Qed.

(** Lines 13-19: 100 [TestEvent]s then one [ExclusiveEvent] in one stream. *)
Definition test_category : string := "cat1".
Definition test_stream : string := stream_name_create test_category "stream1".
Definition store_A : MessageStore string :=
  append_messages (append_messages empty_store test_stream (repeat "TestEvent" 100))
    test_stream ["ExclusiveEvent"].


Definition read_A (condition : option (CategoryMessage string → bool)) : ReadRequest string :=
  mkReadRequest test_category 0 10 condition None None.















(** Lines 58-65: 100 streams of one category, one [TestEvent] each. *)
Definition test_category_D : string := "cat2".
Definition store_D : MessageStore string :=
  foldl (λ st i, append_messages st
                   (stream_name_create test_category_D ("s" +:+ String.string_of_list_ascii (print_num (Z.of_nat i)))) ["TestEvent"])
        empty_store (seq 0 100).

(** Lines 69-72: three members of a group of three. *)
Definition consumers : list (nat * nat) := map (λ i, (i, 3)) (seq 0 3).

(** Lines 75-81: each member reads 100 messages from position 0. *)
Definition read_D : ReadRequest string := mkReadRequest test_category_D 0 100 None None None.

(** Line 85: the ids of a batch. *)
Definition batch_ids (b : Batch string) : list string := map (λ m, te_id (msg_event m)) (messages b).

(** [setIntersection] (lines 93-95). *)
Definition setIntersection (a b : list string) : list string := filter (λ x, x ∈ b) a.

Lemma NoDup_map_inj_in {A B} (f : A → B) l x y :
  NoDup (map f l) → x ∈ l → y ∈ l → f x = f y → x = y.
Proof.
  induction l as [|z l IH]; simpl; [by intros _ ?%elem_of_nil|].
  intros [Hz Hl]%NoDup_cons [->|Hx]%elem_of_cons [->|Hy]%elem_of_cons Hf; auto.
  - contradict Hz. rewrite Hf. by apply list_elem_of_fmap_2.
  - contradict Hz. rewrite <- Hf. by apply list_elem_of_fmap_2.
Qed.

Section StoreD.
Context (hash : string → nat).

(** [store_D] has 100 messages with distinct ids, all in the category and
    at positive global positions. *)
Lemma store_D_shape :
  length (ms_log store_D) = 100 ∧ NoDup (map (λ m, te_id (msg_event m)) (ms_log store_D)) ∧
  Forall (λ m, selected hash (ungrouped read_D) m = true ∧ (0 < msg_global m)%Z) (ms_log store_D).
Proof.
  split_and!; [vm_compute; reflexivity|apply (bool_decide_unpack _); vm_compute; exact I|].
  apply Forall_forall. intros m Hm. split.
  - assert (Hf : forallb (selected hash (ungrouped read_D)) (ms_log store_D) = true)
      by (vm_compute; reflexivity).
    rewrite forallb_forall in Hf. apply Hf. by apply list_elem_of_In.
  - assert (Hf : forallb (λ m, Z.ltb 0 (msg_global m)) (ms_log store_D) = true)
      by (vm_compute; reflexivity).
    rewrite forallb_forall in Hf. apply Z.ltb_lt, Hf. by apply list_elem_of_In.
Qed.

#[local] Opaque store_D.

Lemma store_D_member_ok k : ∃ b, readCategoryMessages hash store_D (as_member read_D k 3) = Ok b.
Proof. apply read_succeeds. by left. Qed.

(** A member reads exactly the messages of its shard. *)
Lemma store_D_member k b :
  readCategoryMessages hash store_D (as_member read_D k 3) = Ok b →
  ∀ m, m ∈ messages b ↔ m ∈ ms_log store_D ∧ shard hash 3 (msg_stream m) = k.
Proof.
  intros Hb m. destruct store_D_shape as (Hlen & _ & Hsel).
  assert (Hle : length (ms_log store_D) ≤ rq_batchSize (as_member read_D k 3))
    by (rewrite Hlen; cbn; lia).
  rewrite (read_all hash store_D _ b Hle Hb m), selected_as_member, andb_true_iff, Nat.eqb_eq.
  split; [intros [Hm [_ Hs]]; by split|]. intros [Hm Hs]. split_and!; [done| |done].
  by destruct (proj1 (Forall_forall _ _) Hsel m Hm).
Qed.

(** Two members read no common id. *)
Lemma store_D_disjoint k1 k2 b1 b2 :
  k1 ≠ k2 →
  readCategoryMessages hash store_D (as_member read_D k1 3) = Ok b1 →
  readCategoryMessages hash store_D (as_member read_D k2 3) = Ok b2 →
  setIntersection (batch_ids b1) (batch_ids b2) = [].
Proof.
  intros Hne H1 H2. destruct store_D_shape as (_ & Hids & _).
  apply elem_of_nil_inv. intros x.
  unfold setIntersection. rewrite list_elem_of_filter. unfold batch_ids.
  intros [(m2 & -> & Hm2)%list_elem_of_fmap (m1 & Hid & Hm1)%list_elem_of_fmap].
  apply (store_D_member _ _ H1) in Hm1 as [Hm1 <-]. apply (store_D_member _ _ H2) in Hm2 as [Hm2 <-].
  assert (m1 = m2) as -> by (by apply (NoDup_map_inj_in _ _ _ _ Hids)). done.
Qed.

(** C9: The consumer-group test of [reader.test.mts] (lines 67-91), whatever
    the hash the store shards with: every member's read succeeds, the ids
    two members read have an empty [setIntersection], and together they
    read every message of the category. *)
Theorem consumer_group_test :
  (∀ member size, (member, size) ∈ consumers →
     ∃ b, readCategoryMessages hash store_D (as_member read_D member size) = Ok b) ∧
  (∀ k1 k2 b1 b2, k1 ≠ k2 →
     readCategoryMessages hash store_D (as_member read_D k1 3) = Ok b1 →
     readCategoryMessages hash store_D (as_member read_D k2 3) = Ok b2 →
     setIntersection (batch_ids b1) (batch_ids b2) = []) ∧
  (∀ m, m ∈ ms_log store_D →
     ∃ k b, k < 3 ∧ readCategoryMessages hash store_D (as_member read_D k 3) = Ok b ∧ m ∈ messages b).
Proof.
  split_and!.
  - intros member size _. apply read_succeeds. by left.
  - apply store_D_disjoint.
  - intros m Hm. destruct (store_D_member_ok (shard hash 3 (msg_stream m))) as [bk Hbk].
    exists (shard hash 3 (msg_stream m)), bk. split_and!; [apply Nat.mod_upper_bound; lia|done|].
    by apply (store_D_member _ _ Hbk).
Qed.

(** The [expect]s on each member's batch (lines 82-84). *)
Definition batch_expectations (b : Batch string) : bool :=
  isTail b && (0 <? length (messages b)) && (0 <? checkpoint b)%Z.

(** The consumer-group test (lines 67-91) as the boolean its [expect]s
    make: each member reads (a throw fails the test), its batch meets the
    expectations, and the id sets of the three members are pairwise
    disjoint ([messages[i]] is the set of member [i]). *)
Definition test_consumer_groups : bool :=
  match mapM (λ '(k, size), readCategoryMessages hash store_D (as_member read_D k size)) consumers with
  | Ok bs =>
      forallb batch_expectations bs &&
      match map batch_ids bs with
      | [s0; s1; s2] =>
          (length (setIntersection s0 s1) =? 0) && (length (setIntersection s0 s2) =? 0) &&
          (length (setIntersection s1 s2) =? 0)
      | _ => false
      end
  | Err _ => false
  end.

Lemma expectations_nonempty k b :
  readCategoryMessages hash store_D (as_member read_D k 3) = Ok b →
  batch_expectations b = true → ∃ m, m ∈ ms_log store_D ∧ shard hash 3 (msg_stream m) = k.
Proof.
  intros Hb He. unfold batch_expectations in He. apply andb_true_iff in He as [He _].
  apply andb_true_iff in He as [_ He]. apply Nat.ltb_lt in He.
  destruct (messages b) as [|m ms] eqn:Hms; [simpl in He; lia|].
  exists m. apply (store_D_member _ _ Hb). rewrite Hms. by left.
Qed.

(** A member whose shard holds a message, while another shard holds one
    too, meets the expectations. *)
Lemma expectations_hold k b m m' :
  readCategoryMessages hash store_D (as_member read_D k 3) = Ok b →
  m ∈ ms_log store_D → shard hash 3 (msg_stream m) = k →
  m' ∈ ms_log store_D → shard hash 3 (msg_stream m') ≠ k →
  batch_expectations b = true.
Proof.
  intros Hb Hm Hk Hm' Hk'. destruct store_D_shape as (Hlen & _ & Hsel).
  destruct (read_ok _ _ _ _ Hb) as (Hms & Hck & Ht). rewrite <- Hms in Hck, Ht.
  assert (Hin : m ∈ messages b) by (by apply (store_D_member _ _ Hb)).
  assert (Hlt : length (messages b) < 100).
  { rewrite Hms, length_take, <- Hlen.
    enough (length (filter (λ x, selected hash (as_member read_D k 3) x = true) (ms_log store_D))
            < length (ms_log store_D)) by lia.
    apply (length_filter_lt _ _ m'); [done|].
    rewrite selected_as_member, andb_true_iff, Nat.eqb_eq. tauto. }
  destruct (last (messages b)) as [l|] eqn:Hl; [|apply last_None in Hl; rewrite Hl in Hin; by apply elem_of_nil in Hin].
  assert (Hlog : l ∈ ms_log store_D) by (apply (store_D_member _ _ Hb); by eapply last_Some_elem_of).
  unfold batch_expectations. rewrite Ht, Hck. simpl.
  destruct (proj1 (Forall_forall _ _) Hsel l Hlog) as [_ Hpos].
  apply andb_true_iff; split; [apply andb_true_iff; split|]; [apply Nat.ltb_lt; simpl; lia| |by apply Z.ltb_lt].
  apply Nat.ltb_lt. destruct (messages b); [by apply elem_of_nil in Hin|simpl; lia].
Qed.

(** C10: The consumer-group test of [reader.test.mts] passes exactly when
    the hash the store shards with sends at least one of the 100 streams
    to each of the three members; the reader itself guarantees only the
    disjointness, so the test depends on how the hash spreads the
    streams. *)
Theorem consumer_groups_test_passes_iff :
  test_consumer_groups = true ↔
  ∀ k, k < 3 → ∃ m, m ∈ ms_log store_D ∧ shard hash 3 (msg_stream m) = k.
Proof.
  destruct (store_D_member_ok 0) as [b0 H0], (store_D_member_ok 1) as [b1 H1],
    (store_D_member_ok 2) as [b2 H2].
  unfold test_consumer_groups. change consumers with [(0, 3); (1, 3); (2, 3)].
  cbn [mapM]. rewrite H0, H1, H2. cbn [mbind result_bind mret result_ret map forallb].
  rewrite (store_D_disjoint 0 1 b0 b1), (store_D_disjoint 0 2 b0 b2), (store_D_disjoint 1 2 b1 b2) by done.
  cbn [length Nat.eqb andb]. rewrite !andb_true_r, !andb_true_iff. split.
  - intros (E0 & E1 & E2) k Hk.
    destruct k as [|[|[|k]]]; [eauto using expectations_nonempty..|lia].
  - intros Hall. destruct (Hall 0) as (m0 & Hm0 & Hs0); [lia|].
    destruct (Hall 1) as (m1 & Hm1 & Hs1); [lia|]. destruct (Hall 2) as (m2 & Hm2 & Hs2); [lia|].
    split_and!.
    + apply (expectations_hold 0 b0 m0 m1); auto; lia.
    + apply (expectations_hold 1 b1 m1 m0); auto; lia.
    + apply (expectations_hold 2 b2 m2 m0); auto; lia.
Qed.

End StoreD.

(** ** Witnesses *)
Definition ok_or {A} (d : A) (r : result A) : A := match r with Ok a => a | Err _ => d end.
Definition no_batch : Batch string := mkBatch [] 0 false.
(** A hash for the witnesses: the sum of the character codes. *)
Definition demo_hash (s : string) : nat :=
  foldr (λ c acc, nat_of_ascii c + acc) 0 (String.list_ascii_of_string s).

Lemma append_keeps_positions_sorted_witness :
  positions_sorted (empty_store (F := string)) ∧
  positions_sorted (append_messages (empty_store (F := string)) test_stream ["TestEvent"; "TestEvent"]).
Proof.
  assert (H : positions_sorted (empty_store (F := string))) by constructor.
  split; [exact H|]. exact (append_keeps_positions_sorted _ _ _ H).
Defined.

Definition batch_A (from : Z) : Batch string :=
  ok_or no_batch (readCategoryMessages demo_hash store_A (with_from (read_A None) from)).

Lemma checkpoint_monotone_witness :
  positions_sorted store_A ∧ (5 ≤ 95)%Z ∧
  readCategoryMessages demo_hash store_A (with_from (read_A None) 5) = Ok (batch_A 5) ∧
  readCategoryMessages demo_hash store_A (with_from (read_A None) 95) = Ok (batch_A 95) ∧
  (checkpoint (batch_A 5) ≤ checkpoint (batch_A 95))%Z.
Proof.
  assert (Hs : positions_sorted store_A) by (apply (bool_decide_unpack _); vm_compute; exact I).
  assert (Hle : (5 ≤ 95)%Z) by lia.
  assert (H1 : readCategoryMessages demo_hash store_A (with_from (read_A None) 5) = Ok (batch_A 5))
    by (vm_compute; reflexivity).
  assert (H2 : readCategoryMessages demo_hash store_A (with_from (read_A None) 95) = Ok (batch_A 95))
    by (vm_compute; reflexivity).
  split; [exact Hs|]. split; [exact Hle|]. split; [exact H1|]. split; [exact H2|].
  exact (checkpoint_monotone demo_hash _ _ _ _ _ _ Hs Hle H1 H2).
Defined.

Definition read_one : ReadRequest string := mkReadRequest test_category 0 1 None None None.
Definition dispatched : list (CategoryMessage string) * CheckpointStore :=
  ok_or ([], ∅) (dispatch demo_hash store_A ∅ "group" read_one).

Lemma dispatch_livelock_witness :
  rq_batchSize read_one = 1 ∧
  dispatch demo_hash store_A ∅ "group" read_one = Ok dispatched ∧ dispatched.1 ≠ [] ∧
  dispatch demo_hash store_A dispatched.2 "group" read_one = Ok dispatched.
Proof.
  assert (Hb : rq_batchSize read_one = 1) by reflexivity.
  assert (Hd : dispatch demo_hash store_A ∅ "group" read_one = Ok (dispatched.1, dispatched.2))
    by (vm_compute; reflexivity).
  assert (Hne : dispatched.1 ≠ []) by (vm_compute; discriminate).
  split; [exact Hb|]. split; [exact Hd|]. split; [exact Hne|].
  exact (dispatch_livelock demo_hash _ _ _ _ _ _ Hb Hd Hne).
Defined.

Definition batch_D : Batch string :=
  ok_or no_batch (readCategoryMessages demo_hash store_D (ungrouped read_D)).

Lemma consumer_groups_partition_witness :
  0 < 3 ∧ length (ms_log store_D) ≤ rq_batchSize read_D ∧
  readCategoryMessages demo_hash store_D (ungrouped read_D) = Ok batch_D ∧
  ((∀ k, ∃ bk, readCategoryMessages demo_hash store_D (as_member read_D k 3) = Ok bk) ∧
   (∀ m, m ∈ messages batch_D ↔
      ∃ k bk, k < 3 ∧ readCategoryMessages demo_hash store_D (as_member read_D k 3) = Ok bk ∧
              m ∈ messages bk) ∧
   (∀ k1 k2 b1 b2 m,
      readCategoryMessages demo_hash store_D (as_member read_D k1 3) = Ok b1 →
      readCategoryMessages demo_hash store_D (as_member read_D k2 3) = Ok b2 →
      m ∈ messages b1 → m ∈ messages b2 → k1 = k2)).
Proof.
  assert (H3 : 0 < 3) by lia.
  assert (Hlen : length (ms_log store_D) ≤ rq_batchSize read_D) by (vm_compute; lia).
  assert (Hb : readCategoryMessages demo_hash store_D (ungrouped read_D) = Ok batch_D)
    by (vm_compute; reflexivity).
  split; [exact H3|]. split; [exact Hlen|]. split; [exact Hb|].
  exact (consumer_groups_partition demo_hash _ _ _ _ H3 Hlen Hb).
Defined.

(** The first message of the test's store. *)
Definition first_A : CategoryMessage string := default (mkCategoryMessage "" 0 (mkTimelineEvent "" "" 0 None None)) (head (ms_log store_A)).

Lemma mjoin_repeat_singleton {A} (x : A) n : mjoin (repeat [x] n) = repeat x n.
Proof. induction n as [|n IH]; [done|]. simpl. by rewrite IH. Qed.

(** Without a consumer group the hash is not used. *)
Lemma consume_ungrouped_hash {F} (h1 h2 : string → nat) (st : MessageStore F) cs group rq n :
  rq_consumerGroupMember rq = None →
  consume h1 st cs group rq n = consume h2 st cs group rq n.
Proof.
  intros Hm. revert cs. induction n as [|n IH]; intros cs; [done|]. cbn [consume].
  assert (Hd : dispatch h1 st cs group rq = dispatch h2 st cs group rq).
  { unfold dispatch, readCategoryMessages, selected, in_group. simpl. by rewrite Hm. }
  rewrite Hd. destruct (dispatch h2 st cs group rq) as [[ms cs']|]; [|done].
  rewrite !bind_Ok. cbv beta iota. by rewrite IH.
Qed.

Lemma consume_stuck {F} (hash : string → nat) (st : MessageStore F) cs group rq ms n :
  rq_batchSize rq = 1 → dispatch hash st cs group rq = Ok (ms, cs) →
  consume hash st cs group rq n = Ok (mjoin (repeat ms n)).
Proof.
  intros Hb Hd. induction n as [|n IH]; [done|]. simpl. rewrite Hd. simpl. by rewrite IH.
Qed.

(** C18: A consumer of the test's category (lines 13-19) that reads one
    message at a time and resumes from its stored checkpoint is handed the
    first message on every turn: after [n] turns it has received that
    message [n] times and nothing else, whatever the group hash. *)
Theorem test_consumer_livelock (hash : string → nat) n :
  consume hash store_A ∅ "group" read_one n = Ok (repeat first_A n).
Proof.
  rewrite (consume_ungrouped_hash hash demo_hash) by done.
  destruct n as [|n]; [done|].
  assert (Hd : dispatch demo_hash store_A ∅ "group" read_one = Ok ([first_A], dispatched.2))
    by (vm_compute; reflexivity).
  cbn [consume]. rewrite Hd, bind_Ok. cbv beta iota.
  rewrite (consume_stuck demo_hash store_A dispatched.2 "group" read_one [first_A] n), bind_Ok.
  - by rewrite mjoin_repeat_singleton.
  - done.
  - by apply (dispatch_livelock demo_hash store_A ∅ "group" read_one [first_A] dispatched.2).
Qed.

(** C19: Checkpoint monotonicity on the test's store (lines 13-19): reading
    from a later position never gives an earlier checkpoint, whatever the
    batch size, condition, group and hash. *)
Theorem test_store_checkpoint_monotone (hash : string → nat) rq from1 from2 b1 b2 :
  (from1 ≤ from2)%Z →
  readCategoryMessages hash store_A (with_from rq from1) = Ok b1 →
  readCategoryMessages hash store_A (with_from rq from2) = Ok b2 →
  (checkpoint b1 ≤ checkpoint b2)%Z.
Proof.
  apply checkpoint_monotone. apply (bool_decide_unpack _). vm_compute. exact I.
Qed.

Lemma test_store_checkpoint_monotone_witness :
  (5 ≤ 95)%Z ∧
  readCategoryMessages demo_hash store_A (with_from (read_A None) 5) = Ok (batch_A 5) ∧
  readCategoryMessages demo_hash store_A (with_from (read_A None) 95) = Ok (batch_A 95) ∧
  (checkpoint (batch_A 5) ≤ checkpoint (batch_A 95))%Z.
Proof.
  assert (Hle : (5 ≤ 95)%Z) by lia.
  assert (H1 : readCategoryMessages demo_hash store_A (with_from (read_A None) 5) = Ok (batch_A 5))
    by (vm_compute; reflexivity).
  assert (H2 : readCategoryMessages demo_hash store_A (with_from (read_A None) 95) = Ok (batch_A 95))
    by (vm_compute; reflexivity).
  split; [exact Hle|]. split; [exact H1|]. split; [exact H2|].
  exact (test_store_checkpoint_monotone demo_hash _ _ _ _ _ Hle H1 H2).
Defined.
