(* ===== verification/Category.v ===== *)
(** * The Category Store and its cache (spec sections 4.2 and 4.3)

    The store keeps, per stream name, the list of events written to it; the
    cache keeps, per stream name, the last (version, state) the process
    observed.  [load] folds the events after the cached version onto the
    cached state (or returns the cached state as is under
    [AnyCachedValue]); [sync] appends under an expected version and
    refreshes the cache.  Modelled from the spec: the store code of the
    repository is not under [src/]. *)

From S2P Require Import Prelude Types.

(** Freshness of a load ([LoadOption] of the core package). *)
Inductive LoadOption := RequireLoad | RequireLeader | AnyCachedValue.

Global Instance LoadOption_eq_dec : EqDecision LoadOption.
Proof. solve_decision. Defined.

Record CacheEntry (S : Type) := mkCacheEntry { ce_version : Z; ce_state : S }.
Arguments mkCacheEntry {S} _ _.
Arguments ce_version {S} _.
Arguments ce_state {S} _.

(** The outcome of an append: the new version and state, or a conflict. *)
Inductive SyncResult (S : Type) :=
| Written (version : Z) (state : S)
| Conflict.
Arguments Written {S} _ _.
Arguments Conflict {S}.

Section Category.
Context {E F C St : Type}.
Context (codec : Codec E F C) (fold : St → list E → St) (initial : St).
(** The id the store generates for an event written without one. *)
Context (fresh_id : Z → string).

Definition log_of (store : gmap string (list (StreamEvent F))) (sn : string)
    : list (StreamEvent F) :=
  default [] (store !! sn).

Definition stream_version (store : gmap string (list (StreamEvent F))) sn : Z :=
  version_of_length (length (log_of store sn)).

(** The events of a log read back from position [pos] on. *)
Fixpoint timeline_from (pos : nat) (log : list (StreamEvent F))
    : list (TimelineEvent F) :=
  match log with
  | [] => []
  | e :: l => to_timeline (fresh_id (Z.of_nat pos)) (Z.of_nat pos) e
                :: timeline_from (S pos) l
  end.

Definition decode_from (pos : nat) (log : list (StreamEvent F)) : result (list E) :=
  collect_defined (tryDecode codec) (timeline_from pos log).

(** [load(streamName, option)]: the version and state of the stream. *)
Definition load (opt : LoadOption) (store : gmap string (list (StreamEvent F)))
    (cache : gmap string (CacheEntry St)) (sn : string)
    : result (Z * St * gmap string (CacheEntry St)) :=
  let log := log_of store sn in
  let v := version_of_length (length log) in
  match opt, cache !! sn with
  | AnyCachedValue, Some ce => Ok (ce_version ce, ce_state ce, cache)
  | _, Some ce =>
      let n := Z.to_nat (ce_version ce + 1) in
      evs ← decode_from n (drop n log);
      let st := fold (ce_state ce) evs in
      Ok (v, st, <[sn := mkCacheEntry v st]> cache)
  | _, None =>
      evs ← decode_from 0 log;
      let st := fold initial evs in
      Ok (v, st, <[sn := mkCacheEntry v st]> cache)
  end.

(** [sync]: append [events] if the stream is still at [expected]. *)
Definition sync (store : gmap string (list (StreamEvent F)))
    (cache : gmap string (CacheEntry St)) (sn : string) (ctx : C)
    (expected : Z) (st : St) (events : list E)
    : SyncResult St * gmap string (list (StreamEvent F)) * gmap string (CacheEntry St) :=
  let log := log_of store sn in
  if decide (version_of_length (length log) = expected) then
    let log' := log ++ map (λ e, encode codec e ctx) events in
    let v' := version_of_length (length log') in
    let st' := fold st events in
    (Written v' st', <[sn := log']> store, <[sn := mkCacheEntry v' st']> cache)
  else (Conflict, store, cache).

(** ** What the cache may hold: the fold of some prefix of the stream,
    tagged with that prefix's version. *)
Definition coherent_at (log : list (StreamEvent F)) (v : Z) (st : St) : Prop :=
  ∃ n evs, n ≤ length log ∧ v = version_of_length n ∧
    decode_from 0 (take n log) = Ok evs ∧ st = fold initial evs.

Definition cache_coherent (store : gmap string (list (StreamEvent F)))
    (cache : gmap string (CacheEntry St)) : Prop :=
  ∀ sn ce, cache !! sn = Some ce →
    coherent_at (log_of store sn) (ce_version ce) (ce_state ce).

Lemma cache_coherent_empty store : cache_coherent store ∅.
Proof. intros sn ce Hce. by rewrite lookup_empty in Hce. Qed.

(** ** Lemmas on reading back a log *)
Lemma timeline_from_app pos l1 l2 :
  timeline_from pos (l1 ++ l2) = timeline_from pos l1 ++ timeline_from (pos + length l1) l2.
Proof.
  revert pos; induction l1 as [|e l1 IH]; intros pos; simpl.
  - by rewrite Nat.add_0_r.
  - by rewrite IH, Nat.add_succ_r.
Qed.

Lemma decode_from_app pos l1 l2 :
  decode_from pos (l1 ++ l2) =
    (r1 ← decode_from pos l1; r2 ← decode_from (pos + length l1) l2; Ok (r1 ++ r2)).
Proof. unfold decode_from. by rewrite timeline_from_app, collect_defined_app. Qed.

Lemma decode_from_take_drop n log evs1 evs2 :
  n ≤ length log →
  decode_from 0 (take n log) = Ok evs1 →
  decode_from n (drop n log) = Ok evs2 →
  decode_from 0 log = Ok (evs1 ++ evs2).
Proof.
  intros Hn H1 H2. rewrite <- (take_drop n log) at 1.
  rewrite decode_from_app, H1. simpl.
  rewrite length_take, Nat.min_l by lia. by rewrite H2.
Qed.

Lemma coherent_at_full log evs :
  decode_from 0 log = Ok evs →
  coherent_at log (version_of_length (length log)) (fold initial evs).
Proof. intros H. exists (length log), evs. rewrite take_ge by lia. auto. Qed.

Lemma coherent_at_app log log' v st :
  coherent_at log v st → coherent_at (log ++ log') v st.
Proof.
  intros (n & evs & Hn & -> & Hd & ->). exists n, evs.
  rewrite length_app, take_app_le by lia. auto with lia.
Qed.


Lemma decode_from_split n log evs evs1 :
  n ≤ length log →
  decode_from 0 log = Ok evs →
  decode_from 0 (take n log) = Ok evs1 →
  ∃ evs2, decode_from n (drop n log) = Ok evs2 ∧ evs = evs1 ++ evs2.
Proof.
  intros Hn Hall H1. rewrite <- (take_drop n log), decode_from_app, H1 in Hall.
  simpl in Hall. rewrite length_take, Nat.min_l in Hall by lia.
  destruct (decode_from n (drop n log)) as [evs2|]; simpl in Hall; res_inv; eauto.
Qed.

Lemma to_nat_version_succ n : Z.to_nat (version_of_length n + 1) = n.
Proof. unfold version_of_length. lia. Qed.

Lemma log_of_insert store sn sn' l :
  log_of (<[sn := l]> store) sn' = if decide (sn = sn') then l else log_of store sn'.
Proof. unfold log_of. case_decide; subst; [by rewrite lookup_insert_eq|by rewrite lookup_insert_ne]. Qed.

Lemma cache_coherent_insert store cache sn v st :
  cache_coherent store cache →
  coherent_at (log_of store sn) v st →
  cache_coherent store (<[sn := mkCacheEntry v st]> cache).
Proof.
  intros Hc Hnew sn' ce. rewrite lookup_insert.
  case_decide; [intros [= <-]; subst; done|apply Hc].
Qed.

(** Encoded events that decode back read back as themselves. *)
Lemma decode_from_encoded `{!CodecRoundtrip codec} pos ctx evs :
  decode_from pos (map (λ e, encode codec e ctx) evs) = Ok evs.
Proof.
  revert pos; induction evs as [|e evs IH]; intros pos; [done|].
  unfold decode_from in *. simpl. rewrite codec_roundtrip. simpl.
  by rewrite IH.
Qed.

Lemma cache_coherent_extend store cache sn l :
  cache_coherent store cache →
  cache_coherent (<[sn := log_of store sn ++ l]> store) cache.
Proof.
  intros Hc sn' ce Hce. rewrite log_of_insert.
  case_decide; subst; [apply coherent_at_app|]; by apply Hc.
Qed.

Lemma coherent_at_current log v st :
  coherent_at log v st → v = version_of_length (length log) →
  ∃ evs, decode_from 0 log = Ok evs ∧ st = fold initial evs.
Proof.
  intros (n & evs & Hn & -> & Hd & ->) Hv.
  apply version_of_length_inj in Hv as ->. rewrite take_ge in Hd by lia. eauto.
Qed.


(** [sync] writes exactly when the stream is at the expected version; the
    new version counts the appended events. *)
Theorem sync_written store cache sn ctx v st evs v' st' store' cache' :
  sync store cache sn ctx v st evs = (Written v' st', store', cache') →
  v = stream_version store sn ∧
  v' = (v + Z.of_nat (length evs))%Z ∧ st' = fold st evs ∧
  store' = <[sn := log_of store sn ++ map (λ e, encode codec e ctx) evs]> store ∧
  cache' = <[sn := mkCacheEntry v' st']> cache.
Proof.
  unfold sync, stream_version. case_decide as Hv; [|done].
  intros [= <- <- <- <-]. rewrite length_app, length_map.
  unfold version_of_length in *. split_and!; auto with lia.
Qed.

Lemma sync_conflict store cache sn ctx v st evs :
  fst (fst (sync store cache sn ctx v st evs)) = Conflict ↔ stream_version store sn ≠ v.
Proof. unfold sync, stream_version. by case_decide. Qed.

Lemma sync_conflict_unchanged store cache sn ctx v st evs r store' cache' :
  sync store cache sn ctx v st evs = (r, store', cache') →
  r = Conflict → store' = store ∧ cache' = cache.
Proof. unfold sync. case_decide; by intros [= <- <- <-]. Qed.

(** The version a load returns: the cached one under [AnyCachedValue] on
    a hit, else the stream's current version, then recorded in the cache. *)
Lemma load_version opt store cache sn v st cache' :
  load opt store cache sn = Ok (v, st, cache') →
  (opt = AnyCachedValue ∧ (∃ ce, cache !! sn = Some ce ∧ v = ce_version ce) ∧ cache' = cache) ∨
  (v = stream_version store sn ∧ cache' = <[sn := mkCacheEntry v st]> cache).
Proof.
  unfold load, stream_version.
  destruct (cache !! sn) as [ce|] eqn:Hce; destruct opt; simpl;
    try (intros [= <- <- <-]; left; by eauto);
    (destruct (decode_from _ _); simpl; [intros [= <- <- <-]; by right|done]).
Qed.

Section Laws.
Context `{!Composable fold}.

(** a load that is not [AnyCachedValue], through a coherent cache,
    returns what folding the whole stream from [initial] returns. *)
Theorem load_fresh_spec opt store cache sn evs :
  opt ≠ AnyCachedValue →
  cache_coherent store cache →
  decode_from 0 (log_of store sn) = Ok evs →
  load opt store cache sn =
    Ok (stream_version store sn, fold initial evs,
        <[sn := mkCacheEntry (stream_version store sn) (fold initial evs)]> cache).
Proof.
  intros Hopt Hc Hd. unfold load, stream_version.
  destruct (cache !! sn) as [ce|] eqn:Hce.
  - destruct (Hc sn ce Hce) as (n & evs1 & Hn & Hv & H1 & Hs).
    destruct (decode_from_split n _ _ _ Hn Hd H1) as (evs2 & H2 & ->).
    destruct opt; [..|congruence]; simpl;
      rewrite Hv, to_nat_version_succ, H2; simpl; by rewrite Hs, fold_app.
  - rewrite Hd. by destruct opt.
Qed.

(** C16: The cache is transparent: a load that is not [AnyCachedValue]
    returns the same version and state through any coherent cache as
    through an empty one, whenever the whole stream decodes. *)
Theorem load_cache_transparent opt store cache sn evs :
  opt ≠ AnyCachedValue →
  cache_coherent store cache →
  decode_from 0 (log_of store sn) = Ok evs →
  (λ r, (r.1.1, r.1.2)) <$> load opt store cache sn =
  (λ r, (r.1.1, r.1.2)) <$> load opt store ∅ sn.
Proof.
  intros Hopt Hc Hd.
  by rewrite !(load_fresh_spec opt store _ sn evs) by auto using cache_coherent_empty.
Qed.

Theorem load_preserves_coherence opt store cache sn v st cache' :
  cache_coherent store cache →
  load opt store cache sn = Ok (v, st, cache') →
  cache_coherent store cache' ∧ coherent_at (log_of store sn) v st.
Proof.
  intros Hc Hl. unfold load in Hl.
  destruct (cache !! sn) as [ce|] eqn:Hce.
  - destruct (Hc sn ce Hce) as (n & evs1 & Hn & Hv & H1 & Hs).
    destruct opt; [..|res_inv; split; [done|by apply Hc]].
    all: rewrite Hv, to_nat_version_succ in Hl; res_inv.
    all: rewrite Hs, fold_app; pose proof (decode_from_take_drop _ _ _ _ Hn H1 Ha);
      split; [apply cache_coherent_insert|]; eauto using coherent_at_full.
  - destruct opt; res_inv;
      (split; [apply cache_coherent_insert|]); eauto using coherent_at_full.
Qed.

Theorem sync_preserves_coherence `{!CodecRoundtrip codec}
    store cache sn ctx v st evs r store' cache' :
  cache_coherent store cache →
  coherent_at (log_of store sn) v st →
  sync store cache sn ctx v st evs = (r, store', cache') →
  cache_coherent store' cache'.
Proof.
  intros Hc Hst Hs. unfold sync in Hs.
  case_decide as Hv; [|by simplify_eq].
  injection Hs as <- <- <-.
  destruct (coherent_at_current _ _ _ Hst (eq_sym Hv)) as (evs1 & Hd & ->).
  apply cache_coherent_insert; [by apply cache_coherent_extend|].
  rewrite log_of_insert, decide_True, fold_app by done.
  apply coherent_at_full. rewrite decode_from_app, Hd. simpl.
  by rewrite decode_from_encoded.
Qed.
End Laws.
End Category.

#[export] Hint Resolve coherent_at_app coherent_at_full : equinox.
#[export] Hint Rewrite @decode_from_app : equinox_rw.
