(* ===== verification/LatestKnown.v ===== *)
(** * Loading only the latest event of a stream

    A category created with the [LatestKnownEvent] access strategy (the
    Message DB category the example application builds with
    [Config.MessageDb.createLatestKnown]) does not read a stream from its
    start: it reads the stream's last event, decodes it and folds it onto
    [initial]; the version is the stream's version.  The memory store reads
    every event.  For a fold that only looks at the last event the two
    agree ([latest_known_agrees]) except when that last event is one the
    codec does not know: then the full load keeps the state of the events
    before it, and the latest-known load falls back to [initial].
    Modelled from the store package, which is not under [src/]. *)

From S2P Require Import Prelude Types Category.

(** The access strategies a category is created with. *)
Inductive AccessStrategy := Unoptimized | LatestKnownEvent.

Global Instance AccessStrategy_eq_dec : EqDecision AccessStrategy.
Proof. solve_decision. Defined.

(** A fold whose result is that of the last event alone, folded onto
    [initial]: what both folds of the applications are. *)
Class LastDetermined {E S} (fold : S → list E → S) (initial : S) := {
  last_determined_nil : fold initial [] = initial;
  last_determined : ∀ s evs x, last evs = Some x → fold s evs = fold initial [x]
}.

Lemma fold_last_determined {E S} (evolve : S → E → S) (initial : S) :
  (∀ s1 s2 e, evolve s1 e = evolve s2 e) → LastDetermined (fold_last evolve) initial.
Proof.
  intros Hev. split; [done|]. intros s evs x Hx. unfold fold_last. rewrite Hx. apply Hev.
Qed.

Section LatestKnown.
Context {E F C St : Type}.
Context (codec : Codec E F C) (fold : St → list E → St) (initial : St).
Context (fresh_id : Z → string).

Abbreviation decode_from := (decode_from codec fresh_id).
Abbreviation log_of := (@log_of F).

(** [readLastEvent] then [tryDecode]: the decoded last event, if any. *)
Definition read_last (store : gmap string (list (StreamEvent F))) (sn : string) : result (list E) :=
  let log := log_of store sn in
  match last log with
  | Some e => decode_from (pred (length log)) [e]
  | None => Ok []
  end.

(** The load of a [LatestKnownEvent] category. *)
Definition load_latest (store : gmap string (list (StreamEvent F))) (sn : string) : result (Z * St) :=
  evs ← read_last store sn;
  Ok (stream_version store sn, fold initial evs).

(** The category's load, by access strategy. *)
Definition load_with (acc : AccessStrategy) (opt : LoadOption)
    (store : gmap string (list (StreamEvent F))) (cache : gmap string (CacheEntry St)) (sn : string)
    : result (Z * St) :=
  match acc with
  | Unoptimized => '(v, st, _) ← load codec fold initial fresh_id opt store cache sn; Ok (v, st)
  | LatestKnownEvent => load_latest store sn
  end.

(** The stream ends with an event the codec does not know. *)
Definition last_is_foreign (store : gmap string (list (StreamEvent F))) (sn : string) : bool :=
  match last (log_of store sn), read_last store sn with
  | Some _, Ok [] => true
  | _, _ => false
  end.

(** ** Lemmas *)
Lemma decode_from_single pos e r :
  decode_from pos [e] = Ok r → r = [] ∨ ∃ x, r = [x].
Proof.
  unfold Category.decode_from. cbn [timeline_from collect_defined].
  destruct (tryDecode _ _) as [[x|]|]; simpl; intros; simplify_eq; eauto.
Qed.

Lemma read_last_snoc store sn l e :
  log_of store sn = l ++ [e] → read_last store sn = decode_from (length l) [e].
Proof.
  intros Hl. unfold read_last. rewrite Hl, last_snoc, length_app. simpl. by rewrite Nat.add_1_r.
Qed.

(** The full load of a stream with no cache entry. *)
Lemma load_empty_cache opt store sn v st cache' :
  load codec fold initial fresh_id opt store ∅ sn = Ok (v, st, cache') →
  ∃ evs, decode_from 0 (log_of store sn) = Ok evs ∧ v = stream_version store sn ∧ st = fold initial evs.
Proof.
  unfold load. rewrite lookup_empty. destruct opt;
    (destruct (Category.decode_from _ _ _ _) as [evs|] eqn:Hd; simpl; intros; simplify_eq; eauto).
Qed.

Section Agree.
Context `{!LastDetermined fold initial}.

(** On a stream the full load decodes, the decoded last event folds to
    the state of the whole stream, unless that event is foreign. *)
Lemma read_last_agrees store sn evs :
  decode_from 0 (log_of store sn) = Ok evs → last_is_foreign store sn = false →
  ∃ evs', read_last store sn = Ok evs' ∧ fold initial evs' = fold initial evs.
Proof.
  intros Hd Hfor. unfold last_is_foreign in Hfor.
  destruct (last (log_of store sn)) as [e|] eqn:Hl.
  - apply last_Some in Hl as [l Hl]. rewrite (read_last_snoc _ _ _ _ Hl) in Hfor |- *.
    rewrite Hl, decode_from_app in Hd.
    destruct (decode_from 0 l) as [r1|]; [|done]. simpl in Hd.
    destruct (decode_from (length l) [e]) as [r2|] eqn:H2; [|done]. simplify_eq/=.
    destruct (decode_from_single _ _ _ H2) as [->|[x ->]]; [done|].
    exists [x]. split; [done|]. symmetry. apply last_determined. by rewrite last_snoc.
  - apply last_None in Hl. rewrite Hl in Hd. unfold read_last. rewrite Hl.
    unfold Category.decode_from in Hd. simpl in Hd. simplify_eq. by exists [].
Qed.

(** For a fold determined by the last event, the latest-known load gives
    what the full load gives, unless the last event is foreign. *)
Lemma load_latest_agrees opt store sn v st cache' :
  load codec fold initial fresh_id opt store ∅ sn = Ok (v, st, cache') →
  last_is_foreign store sn = false →
  load_with LatestKnownEvent opt store ∅ sn = Ok (v, st).
Proof.
  intros Hload Hfor. destruct (load_empty_cache _ _ _ _ _ _ Hload) as (evs & Hd & -> & ->).
  destruct (read_last_agrees _ _ _ Hd Hfor) as (evs' & Hr & Hf).
  cbn [load_with]. unfold load_latest. rewrite Hr. simpl. by rewrite Hf.
Qed.
End Agree.

End LatestKnown.

(** C17: For a fold of the shape both applications use,
    [events.length ? evolve(s, events[events.length - 1]) : s] with an
    [evolve] that does not look at the state, a [LatestKnownEvent] load
    gives the version and state the full load gives, unless the stream
    ends with an event the codec does not know (then the full load folds
    the events before it, the latest-known load gives [initial]). *)
Theorem latest_known_agrees {E F C St} (codec : Codec E F C) (evolve : St → E → St) (initial : St)
    (fresh_id : Z → string) opt store sn v st cache' :
  (∀ s1 s2 e, evolve s1 e = evolve s2 e) →
  load codec (fold_last evolve) initial fresh_id opt store ∅ sn = Ok (v, st, cache') →
  last_is_foreign codec fresh_id store sn = false →
  load_with codec (fold_last evolve) initial fresh_id LatestKnownEvent opt store ∅ sn = Ok (v, st).
Proof.
  intros Hev Hload Hfor. pose proof (fold_last_determined evolve initial Hev).
  destruct (load_empty_cache codec _ initial fresh_id _ _ _ _ _ _ Hload) as (evs & Hd & -> & ->).
  destruct (read_last_agrees codec _ initial fresh_id _ _ _ Hd Hfor) as (evs' & Hr & Hf).
  cbn [load_with]. unfold load_latest. rewrite Hr. simpl. by rewrite Hf.
Qed.
