(* ===== verification/Decider.v ===== *)
(** * The Decider / transaction engine (spec section 4.4)

    [transact(decide)] loads the stream, runs [decide] on the state, and
    appends the events it returns under the loaded version; on a version
    conflict it reloads with [RequireLoad] and runs [decide] again, at most
    [max_attempts] times.  Several transactions run concurrently: each is a
    program counter ([TxnPc]) in a [World] that also holds the shared store,
    the process-wide cache, the external effects the [decide] callbacks
    performed, and a ghost history of the commits.  [txn_step] is one
    suspension-free step of one transaction; [env_step] is a write by
    another process.  Modelled from the spec: the engine code is not under
    [src/]. *)

From S2P Require Import Prelude Types Category.

(** Where a transaction is: before a load, after a load (about to run
    [decide]), with events to append, or finished. Attempts count from 1. *)
Inductive TxnPc {St E : Type} :=
| TxLoad (attempt : nat) (opt : LoadOption)
| TxDecide (attempt : nat) (version : Z) (state : St)
| TxSync (attempt : nat) (version : Z) (state : St) (events : list E)
| TxDone (outcome : result unit).
Arguments TxnPc : clear implicits.

Section Decider.
Context {E F C St X : Type}.
Context (codec : Codec E F C) (fold : St → list E → St) (initial : St).
Context (fresh_id : Z → string) (max_attempts : nat).

(** A [decide] callback: the external effects it performs before it
    returns, and the events it returns (or what it throws). *)
Definition Decision := St → list X * result (list E).

Record Txn := mkTxn {
  tx_stream : string;
  tx_ctx : C;
  tx_decide : Decision;
  tx_pc : TxnPc St E
}.

Definition with_pc (t : Txn) (pc : TxnPc St E) : Txn :=
  mkTxn (tx_stream t) (tx_ctx t) (tx_decide t) pc.

(** Ghost: a committed append, the state its decision was made on, and
    the log position it was appended at. *)
Record Commit := mkCommit {
  cm_stream : string;
  cm_pos : nat;
  cm_state : St;
  cm_events : list E;
  cm_decide : Decision
}.

Record World := mkWorld {
  w_store : gmap string (list (StreamEvent F));
  w_cache : gmap string (CacheEntry St);
  w_effects : list X;
  w_txns : list Txn;
  w_commits : list Commit
}.

(** [query(render, option)]: load, then render the state; no append. *)
Definition query {R} (opt : LoadOption) (render : St → R)
    (store : gmap string (list (StreamEvent F))) (cache : gmap string (CacheEntry St))
    (sn : string) : result (R * gmap string (CacheEntry St)) :=
  r ← load codec fold initial fresh_id opt store cache sn;
  let '(_, st, cache') := r in Ok (render st, cache').

(** [transact(decide, option)]: a transaction about to make its first load. *)
Definition transact (sn : string) (ctx : C) (decide : Decision) (opt : LoadOption) : Txn :=
  mkTxn sn ctx decide (TxLoad 1 opt).

Inductive txn_step : World → World → Prop :=
| TsLoad store cache fx txns cms i t a opt v st cache' :
    txns !! i = Some t → tx_pc t = TxLoad a opt →
    load codec fold initial fresh_id opt store cache (tx_stream t) = Ok (v, st, cache') →
    txn_step (mkWorld store cache fx txns cms)
      (mkWorld store cache' fx (<[i := with_pc t (TxDecide a v st)]> txns) cms)
| TsLoadErr store cache fx txns cms i t a opt e :
    txns !! i = Some t → tx_pc t = TxLoad a opt →
    load codec fold initial fresh_id opt store cache (tx_stream t) = Err e →
    txn_step (mkWorld store cache fx txns cms)
      (mkWorld store cache fx (<[i := with_pc t (TxDone (Err e))]> txns) cms)
| TsDecideErr store cache fx txns cms i t a v st xs e :
    txns !! i = Some t → tx_pc t = TxDecide a v st →
    tx_decide t st = (xs, Err e) →
    txn_step (mkWorld store cache fx txns cms)
      (mkWorld store cache (fx ++ xs) (<[i := with_pc t (TxDone (Err e))]> txns) cms)
| TsDecideNoop store cache fx txns cms i t a v st xs :
    txns !! i = Some t → tx_pc t = TxDecide a v st →
    tx_decide t st = (xs, Ok []) →
    txn_step (mkWorld store cache fx txns cms)
      (mkWorld store cache (fx ++ xs) (<[i := with_pc t (TxDone (Ok tt))]> txns) cms)
| TsDecide store cache fx txns cms i t a v st xs evs :
    txns !! i = Some t → tx_pc t = TxDecide a v st →
    tx_decide t st = (xs, Ok evs) → evs ≠ [] →
    txn_step (mkWorld store cache fx txns cms)
      (mkWorld store cache (fx ++ xs) (<[i := with_pc t (TxSync a v st evs)]> txns) cms)
| TsWritten store cache fx txns cms i t a v st evs v' st' store' cache' :
    txns !! i = Some t → tx_pc t = TxSync a v st evs →
    sync codec fold store cache (tx_stream t) (tx_ctx t) v st evs
      = (Written v' st', store', cache') →
    txn_step (mkWorld store cache fx txns cms)
      (mkWorld store' cache' fx (<[i := with_pc t (TxDone (Ok tt))]> txns)
         (cms ++ [mkCommit (tx_stream t) (length (log_of store (tx_stream t))) st evs (tx_decide t)]))
| TsResync store cache fx txns cms i t a v st evs :
    txns !! i = Some t → tx_pc t = TxSync a v st evs →
    fst (fst (sync codec fold store cache (tx_stream t) (tx_ctx t) v st evs)) = Conflict →
    a < max_attempts →
    txn_step (mkWorld store cache fx txns cms)
      (mkWorld store cache fx (<[i := with_pc t (TxLoad (S a) RequireLoad)]> txns) cms)
| TsExhausted store cache fx txns cms i t a v st evs :
    txns !! i = Some t → tx_pc t = TxSync a v st evs →
    fst (fst (sync codec fold store cache (tx_stream t) (tx_ctx t) v st evs)) = Conflict →
    max_attempts ≤ a →
    txn_step (mkWorld store cache fx txns cms)
      (mkWorld store cache fx (<[i := with_pc t (TxDone (Err (MaxResyncsExhausted a)))]> txns) cms).

(** Another process appends to a stream (its own cache is not ours). *)
Inductive env_step : World → World → Prop :=
| EnvAppend store cache fx txns cms sn l :
    env_step (mkWorld store cache fx txns cms)
      (mkWorld (<[sn := log_of store sn ++ l]> store) cache fx txns cms).

Definition step (w w' : World) : Prop := txn_step w w' ∨ env_step w w'.

(** ** The invariant *)
Definition attempt_ok (a : nat) : Prop := 1 ≤ a ≤ Nat.max 1 max_attempts.

Definition txn_ok (log : list (StreamEvent F)) (t : Txn) : Prop :=
  match tx_pc t with
  | TxLoad a _ => attempt_ok a
  | TxDecide a v st => attempt_ok a ∧ coherent_at codec fold initial fresh_id log v st
  | TxSync a v st evs =>
      attempt_ok a ∧ coherent_at codec fold initial fresh_id log v st ∧
      snd (tx_decide t st) = Ok evs ∧ evs ≠ []
  | TxDone _ => True
  end.

Definition commit_ok (store : gmap string (list (StreamEvent F))) (c : Commit) : Prop :=
  let log := log_of store (cm_stream c) in
  ∃ evs0, decode_from codec fresh_id 0 (take (cm_pos c) log) = Ok evs0 ∧
    cm_state c = fold initial evs0 ∧
    snd (cm_decide c (cm_state c)) = Ok (cm_events c) ∧ cm_events c ≠ [] ∧
    cm_pos c + length (cm_events c) ≤ length log ∧
    decode_from codec fresh_id (cm_pos c)
      (take (length (cm_events c)) (drop (cm_pos c) log)) = Ok (cm_events c).

(** Ghost: commits to one stream occupy disjoint, increasing ranges. *)
Definition commits_ordered (cms : list Commit) : Prop :=
  ∀ k1 k2 c1 c2, k1 < k2 → cms !! k1 = Some c1 → cms !! k2 = Some c2 →
    cm_stream c1 = cm_stream c2 → cm_pos c1 + length (cm_events c1) ≤ cm_pos c2.

Definition world_inv (w : World) : Prop :=
  cache_coherent codec fold initial fresh_id (w_store w) (w_cache w) ∧
  Forall (λ t, txn_ok (log_of (w_store w) (tx_stream t)) t) (w_txns w) ∧
  Forall (commit_ok (w_store w)) (w_commits w) ∧
  commits_ordered (w_commits w).

(** ** Appending to one stream keeps every view of every stream *)
Lemma log_of_extend (store : gmap string (list (StreamEvent F))) sn l sn' :
  ∃ l', log_of (<[sn := log_of store sn ++ l]> store) sn' = log_of store sn' ++ l'.
Proof.
  rewrite log_of_insert. case_decide; subst; [by eexists|].
  exists []. by rewrite app_nil_r.
Qed.

Lemma txn_ok_app log l t : txn_ok log t → txn_ok (log ++ l) t.
Proof.
  unfold txn_ok. destruct (tx_pc t); intuition eauto using coherent_at_app.
Qed.

Lemma commit_ok_app (store : gmap string (list (StreamEvent F))) sn l c :
  commit_ok store c → commit_ok (<[sn := log_of store sn ++ l]> store) c.
Proof.
  unfold commit_ok. destruct (log_of_extend store sn l (cm_stream c)) as [l' ->].
  intros (evs0 & H0 & Hst & Hd & Hne & Hlen & Hev). exists evs0.
  rewrite length_app, take_app_le, drop_app_le, take_app_le by (rewrite ?length_drop; lia).
  repeat split; auto with lia.
Qed.

Lemma world_inv_extend store cache fx txns cms sn l :
  world_inv (mkWorld store cache fx txns cms) →
  world_inv (mkWorld (<[sn := log_of store sn ++ l]> store) cache fx txns cms).
Proof.
  intros (Hc & Ht & Hm & Ho). split_and!; simpl in *; [|..|done].
  - by apply cache_coherent_extend.
  - eapply Forall_impl; [exact Ht|]. intros t Hok.
    destruct (log_of_extend store sn l (tx_stream t)) as [l' ->]. by apply txn_ok_app.
  - eapply Forall_impl; [exact Hm|]. intros c. apply commit_ok_app.
Qed.

(** The invariant obligation of transaction [i] after an update of its
    program counter. *)
Lemma world_inv_set_pc store cache (fx' : list X) txns cms i t pc :
  cache_coherent codec fold initial fresh_id store cache →
  Forall (λ t, txn_ok (log_of store (tx_stream t)) t) txns →
  Forall (commit_ok store) cms → commits_ordered cms →
  txn_ok (log_of store (tx_stream t)) (with_pc t pc) →
  world_inv (mkWorld store cache fx' (<[i := with_pc t pc]> txns) cms).
Proof. intros ?????. split_and!; [done|by apply Forall_insert|done..]. Qed.

Lemma commits_ordered_snoc (store : gmap string (list (StreamEvent F))) cms sn st evs d :
  Forall (commit_ok store) cms → commits_ordered cms →
  commits_ordered (cms ++ [mkCommit sn (length (log_of store sn)) st evs d]).
Proof.
  intros Hm Ho k1 k2 c1 c2 Hk H1 H2 Hsn.
  assert (k1 < length cms) as Hk1.
  { pose proof (lookup_lt_Some _ _ _ H2) as Hlt. rewrite length_app in Hlt; simpl in Hlt.
    destruct (decide (k2 < length cms)); [lia|].
    rewrite lookup_app_r in H2 by lia.
    destruct (k2 - length cms) eqn:?; simpl in H2; [|by rewrite lookup_nil in H2]. lia. }
  rewrite lookup_app_l in H1 by done.
  destruct (decide (k2 < length cms)).
  - rewrite lookup_app_l in H2 by done. eauto.
  - rewrite lookup_app_r in H2 by lia.
    destruct (k2 - length cms); simpl in H2; [|by rewrite lookup_nil in H2].
    injection H2 as <-. simpl in *. subst sn.
    destruct (Forall_lookup_1 _ _ _ _ Hm H1) as (? & ? & ? & ? & ? & ? & ?). lia.
Qed.

Ltac grab_txn Ht Hi Hpc :=
  let H := fresh "Hok" in
  pose proof (Forall_lookup_1 _ _ _ _ Ht Hi) as H; unfold txn_ok in H;
  rewrite Hpc in H.

Section Invariant.
Context `{!Composable fold} `{!CodecRoundtrip codec}.

Lemma commit_ok_written store sn ctx v st evs d :
  coherent_at codec fold initial fresh_id (log_of store sn) v st →
  v = stream_version store sn →
  snd (d st) = Ok evs → evs ≠ [] →
  commit_ok (<[sn := log_of store sn ++ map (λ e, encode codec e ctx) evs]> store)
    (mkCommit sn (length (log_of store sn)) st evs d).
Proof.
  intros Hco Hv Hd Hne. destruct (coherent_at_current _ _ _ _ _ _ _ Hco Hv) as (evs0 & H0 & ->).
  unfold commit_ok; simpl. rewrite log_of_insert, decide_True by done.
  exists evs0. rewrite take_app_length, drop_app_length, length_app, length_map.
  rewrite take_ge by (rewrite length_map; lia).
  split_and!; auto using decode_from_encoded with lia.
Qed.

(** Every step of a transaction keeps the invariant. *)
Theorem txn_step_inv w w' : world_inv w → txn_step w w' → world_inv w'.
Proof.
  intros (Hc & Ht & Hm & Ho) Hs.
  destruct Hs as [store cache fx txns cms i t a opt v st cache' Hi Hpc Hl
    |store cache fx txns cms i t a opt e Hi Hpc Hl
    |store cache fx txns cms i t a v st xs e Hi Hpc Hd
    |store cache fx txns cms i t a v st xs Hi Hpc Hd
    |store cache fx txns cms i t a v st xs evs Hi Hpc Hd Hne
    |store cache fx txns cms i t a v st evs v' st' store' cache' Hi Hpc Hsy
    |store cache fx txns cms i t a v st evs Hi Hpc Hsy Ha
    |store cache fx txns cms i t a v st evs Hi Hpc Hsy Ha];
    simpl in *; grab_txn Ht Hi Hpc.
  - destruct (load_preserves_coherence _ _ _ _ _ _ _ _ _ _ _ Hc Hl) as [Hc' Hco].
    split_and!; [done|apply Forall_insert|done|done]; [done|]. by split.
  - by apply world_inv_set_pc.
  - by apply world_inv_set_pc.
  - by apply world_inv_set_pc.
  - apply world_inv_set_pc; try done. unfold txn_ok; simpl. rewrite Hd. simpl. tauto.
  - destruct Hok as (Hat & Hco & Hd & Hne).
    pose proof (sync_preserves_coherence _ _ _ _ _ _ _ _ _ _ _ _ _ _ Hc Hco Hsy) as Hc'.
    apply sync_written in Hsy as (Hv & _ & _ & -> & ->).
    destruct (world_inv_extend store cache fx txns cms (tx_stream t)
                (map (λ e, encode codec e (tx_ctx t)) evs)) as (_ & Ht' & Hm' & _);
      [by split_and!|].
    split_and!; [done|by apply Forall_insert| |by apply commits_ordered_snoc].
    apply Forall_app_2; [done|]. constructor; [|done].
    eapply commit_ok_written; [exact Hco|exact Hv|done|done].
  - apply world_inv_set_pc; try done. unfold txn_ok, attempt_ok in *; simpl. lia.
  - by apply world_inv_set_pc.
Qed.

Theorem step_inv w w' : world_inv w → step w w' → world_inv w'.
Proof.
  intros Hw [Hs|Hs]; [by eapply txn_step_inv|].
  destruct Hs. by apply world_inv_extend.
Qed.

Lemma reachable_inv w0 w : world_inv w0 → rtc step w0 w → world_inv w.
Proof. intros Hw Hr. induction Hr; eauto using step_inv. Qed.
End Invariant.

(** ** Initial worlds: an empty cache, transactions before their first load *)
Definition init_world (store : gmap string (list (StreamEvent F))) (txns : list Txn) : World :=
  mkWorld store ∅ [] txns [].

Lemma init_world_inv store txns :
  Forall (λ t, ∃ opt, tx_pc t = TxLoad 1 opt) txns → world_inv (init_world store txns).
Proof.
  intros Ht. split_and!; simpl.
  - intros sn ce Hce. by rewrite lookup_empty in Hce.
  - eapply Forall_impl; [exact Ht|]. intros t [opt Hpc].
    unfold txn_ok, attempt_ok. rewrite Hpc. lia.
  - constructor.
  - intros k1 k2 c1 c2 _ H1. by rewrite lookup_nil in H1.
Qed.

(** ** Termination: every transaction step lowers a measure *)
Definition pc_measure (pc : TxnPc St E) : nat :=
  let M := Nat.max 1 max_attempts in
  match pc with
  | TxLoad a _ => 3 * (M - a) + 3
  | TxDecide a _ _ => 3 * (M - a) + 2
  | TxSync a _ _ _ => 3 * (M - a) + 1
  | TxDone _ => 0
  end.

Definition world_measure (w : World) : nat :=
  sum_list_with (λ t, pc_measure (tx_pc t)) (w_txns w).

Lemma txn_step_measure w w' : txn_step w w' → world_measure w' < world_measure w.
Proof.
  unfold world_measure.
  destruct 1; simpl; eapply sum_list_with_insert_lt; eauto; simpl;
    match goal with H : tx_pc _ = _ |- _ => rewrite H end; simpl; lia.
Qed.

Definition is_done (t : Txn) : bool :=
  match tx_pc t with TxDone _ => true | _ => false end.

(** A transaction that has not finished can always take a step. *)
Lemma txn_can_step w i t :
  w_txns w !! i = Some t → is_done t = false → ∃ w', txn_step w w'.
Proof.
  destruct w as [store cache fx txns cms]; simpl. intros Hi Hnd.
  unfold is_done in Hnd. destruct (tx_pc t) as [a opt|a v st|a v st evs|o] eqn:Hpc.
  - destruct (load codec fold initial fresh_id opt store cache (tx_stream t))
      as [[[v st] c']|e] eqn:Hl; eexists; [eapply TsLoad|eapply TsLoadErr]; eauto.
  - destruct (tx_decide t st) as [xs [[|ev evs]|e]] eqn:Hd; eexists;
      [eapply TsDecideNoop|eapply TsDecide|eapply TsDecideErr]; eauto.
  - destruct (sync codec fold store cache (tx_stream t) (tx_ctx t) v st evs)
      as [[[v' st'|] store'] cache'] eqn:Hs.
    + eexists; eapply TsWritten; eauto.
    + destruct (decide (a < max_attempts)).
      * eexists; eapply TsResync; eauto. by rewrite Hs.
      * eexists; eapply TsExhausted; eauto; [by rewrite Hs|lia].
  - done.
Qed.


(** ** A transaction that runs alone *)
Section Isolated.
Context `{!Composable fold}.

(** a transaction that no other writer interferes with, loading
    anything but [AnyCachedValue], commits on its first attempt the
    events its [decide] returns on the fold of the whole stream. *)
Theorem transact_isolated_commits store cache fx txns cms i t a opt evs0 xs evs :
  txns !! i = Some t → tx_pc t = TxLoad a opt → opt ≠ AnyCachedValue →
  cache_coherent codec fold initial fresh_id store cache →
  decode_from codec fresh_id 0 (log_of store (tx_stream t)) = Ok evs0 →
  tx_decide t (fold initial evs0) = (xs, Ok evs) → evs ≠ [] →
  ∃ cache', rtc txn_step (mkWorld store cache fx txns cms)
    (mkWorld (<[tx_stream t := log_of store (tx_stream t) ++
                 map (λ e, encode codec e (tx_ctx t)) evs]> store)
       cache' (fx ++ xs) (<[i := with_pc t (TxDone (Ok tt))]> txns)
       (cms ++ [mkCommit (tx_stream t) (length (log_of store (tx_stream t)))
                  (fold initial evs0) evs (tx_decide t)])).
Proof.
  intros Hi Hpc Hopt Hc Hd Hdec Hne.
  pose proof (lookup_lt_Some _ _ _ Hi) as Hlen.
  set (v := stream_version store (tx_stream t)).
  set (st := fold initial evs0).
  eexists. eapply rtc_l.
  { eapply TsLoad; [exact Hi|exact Hpc|]. by apply load_fresh_spec. }
  eapply rtc_l.
  { eapply TsDecide; [by rewrite list_lookup_insert_eq|done|exact Hdec|exact Hne]. }
  rewrite list_insert_insert_eq. eapply rtc_l.
  { eapply TsWritten; [by rewrite list_lookup_insert_eq|done|].
    unfold sync. rewrite decide_True by done. reflexivity. }
  rewrite list_insert_insert_eq. apply rtc_refl.
Qed.
End Isolated.


(** ** An executable scheduler: run the next step of transaction [i] *)
Definition txn_next (w : World) (i : nat) : option World :=
  let '(mkWorld store cache fx txns cms) := w in
  t ← txns !! i;
  let upd pc := <[i := with_pc t pc]> txns in
  match tx_pc t with
  | TxLoad a opt =>
      match load codec fold initial fresh_id opt store cache (tx_stream t) with
      | Ok (v, st, cache') => Some (mkWorld store cache' fx (upd (TxDecide a v st)) cms)
      | Err e => Some (mkWorld store cache fx (upd (TxDone (Err e))) cms)
      end
  | TxDecide a v st =>
      match tx_decide t st with
      | (xs, Err e) => Some (mkWorld store cache (fx ++ xs) (upd (TxDone (Err e))) cms)
      | (xs, Ok []) => Some (mkWorld store cache (fx ++ xs) (upd (TxDone (Ok tt))) cms)
      | (xs, Ok evs) => Some (mkWorld store cache (fx ++ xs) (upd (TxSync a v st evs)) cms)
      end
  | TxSync a v st evs =>
      match sync codec fold store cache (tx_stream t) (tx_ctx t) v st evs with
      | (Written _ _, store', cache') =>
          Some (mkWorld store' cache' fx (upd (TxDone (Ok tt)))
                  (cms ++ [mkCommit (tx_stream t) (length (log_of store (tx_stream t))) st evs (tx_decide t)]))
      | (Conflict, _, _) =>
          if decide (a < max_attempts) then Some (mkWorld store cache fx (upd (TxLoad (S a) RequireLoad)) cms)
          else Some (mkWorld store cache fx (upd (TxDone (Err (MaxResyncsExhausted a)))) cms)
      end
  | TxDone _ => None
  end.

Fixpoint run_schedule (sched : list nat) (w : World) : option World :=
  match sched with
  | [] => Some w
  | i :: rest => w' ← txn_next w i; run_schedule rest w'
  end.

(** Transactions run one after another, each alone against the store and
    cache the previous one left (calls that are [await]ed in turn). *)
Inductive seq_runs : gmap string (list (StreamEvent F)) → gmap string (CacheEntry St) →
    list Txn → list X → gmap string (list (StreamEvent F)) → gmap string (CacheEntry St) → Prop :=
| SeqDone store cache : seq_runs store cache [] [] store cache
| SeqNext store cache t ts w' outcome ys store'' cache'' :
    rtc txn_step (mkWorld store cache [] [t] []) w' →
    w_txns w' = [with_pc t (TxDone outcome)] →
    seq_runs (w_store w') (w_cache w') ts ys store'' cache'' →
    seq_runs store cache (t :: ts) (w_effects w' ++ ys) store'' cache''.

Lemma txn_next_sound w i w' : txn_next w i = Some w' → txn_step w w'.
Proof.
  destruct w as [store cache fx txns cms]; simpl.
  destruct (txns !! i) as [t|] eqn:Hi; simpl; [|done].
  destruct (tx_pc t) as [a opt|a v st|a v st evs|o] eqn:Hpc; [..|done].
  - destruct (load _ _ _ _ _ _ _ _) as [[[v st] c']|e] eqn:Hl; intros [= <-];
      [eapply TsLoad|eapply TsLoadErr]; eauto.
  - destruct (tx_decide t st) as [xs [[|ev evs]|e]] eqn:Hd; intros [= <-];
      [eapply TsDecideNoop|eapply TsDecide|eapply TsDecideErr]; eauto.
  - destruct (sync _ _ _ _ _ _ _ _ _) as [[[v' st'|] store'] cache'] eqn:Hs.
    + intros [= <-]. eapply TsWritten; eauto.
    + pose proof (sync_conflict_unchanged _ _ _ _ _ _ _ _ _ _ _ _ Hs eq_refl) as [-> ->].
      case_decide; intros [= <-]; [eapply TsResync|eapply TsExhausted];
        eauto; by rewrite Hs || lia.
Qed.

(** The scheduler takes exactly the steps of the relation: each step is
    the next step of one transaction. *)
Lemma txn_next_complete w w' : txn_step w w' → ∃ i, txn_next w i = Some w'.
Proof.
  destruct 1; exists i; simpl; rewrite H; simpl; rewrite H0; simpl;
    try (rewrite H1; simpl); try done.
  - by destruct evs.
  - destruct (sync _ _ _ _ _ _ _ _ _) as [[[|] ?] ?] eqn:Hs; simpl in H1; [done|].
    pose proof (sync_conflict_unchanged _ _ _ _ _ _ _ _ _ _ _ _ Hs eq_refl) as [-> ->].
    by rewrite decide_True.
  - destruct (sync _ _ _ _ _ _ _ _ _) as [[[|] ?] ?] eqn:Hs; simpl in H1; [done|].
    pose proof (sync_conflict_unchanged _ _ _ _ _ _ _ _ _ _ _ _ Hs eq_refl) as [-> ->].
    rewrite decide_False by lia. done.
Qed.

(** ** A transaction that runs alone runs deterministically *)
Lemma txn_step_length w w' : txn_step w w' → length (w_txns w') = length (w_txns w).
Proof. destruct 1; simpl; apply length_insert. Qed.

Lemma txn_next_single w i w' :
  length (w_txns w) = 1 → txn_next w i = Some w' → i = 0.
Proof.
  destruct w as [store cache fx [|t [|]] cms]; simpl; intros Hl; try done.
  destruct i as [|i]; [done|]. by rewrite lookup_cons_ne_0.
Qed.

Lemma txn_step_single_det w w1 w2 :
  length (w_txns w) = 1 → txn_step w w1 → txn_step w w2 → w1 = w2.
Proof.
  intros Hl H1 H2.
  destruct (txn_next_complete _ _ H1) as [i1 Hi1], (txn_next_complete _ _ H2) as [i2 Hi2].
  pose proof (txn_next_single _ _ _ Hl Hi1). pose proof (txn_next_single _ _ _ Hl Hi2).
  subst. congruence.
Qed.

Lemma done_no_step w w' : Forall (λ t, is_done t = true) (w_txns w) → ¬ txn_step w w'.
Proof.
  intros Hall Hs.
  destruct Hs as [? ? ? ? ? ? t ? ? ? ? ? Hi Hpc|? ? ? ? ? ? t ? ? ? Hi Hpc|? ? ? ? ? ? t ? ? ? ? ? Hi Hpc
                 |? ? ? ? ? ? t ? ? ? ? Hi Hpc|? ? ? ? ? ? t ? ? ? ? ? Hi Hpc
                 |? ? ? ? ? ? t ? ? ? ? ? ? ? ? Hi Hpc|? ? ? ? ? ? t ? ? ? ? Hi Hpc|? ? ? ? ? ? t ? ? ? ? Hi Hpc];
    apply (Forall_lookup_1 _ _ _ _ Hall) in Hi; unfold is_done in Hi; by rewrite Hpc in Hi.
Qed.

(** A transaction run alone to its end reaches one world only. *)
Lemma single_txn_final_unique w w1 w2 :
  length (w_txns w) = 1 →
  rtc txn_step w w1 → Forall (λ t, is_done t = true) (w_txns w1) →
  rtc txn_step w w2 → Forall (λ t, is_done t = true) (w_txns w2) → w1 = w2.
Proof.
  intros Hl Hr1. revert w2 Hl. induction Hr1 as [w|w w' w1 Hs Hr1 IH]; intros w2 Hl Hd1 Hr2 Hd2.
  - destruct Hr2 as [|w w'' w2 Hs2]; [done|]. by destruct (done_no_step _ _ Hd1 Hs2).
  - destruct Hr2 as [|w w'' w2 Hs2 Hr2]; [by destruct (done_no_step _ _ Hd2 Hs)|].
    rewrite <- (txn_step_single_det _ _ _ Hl Hs Hs2) in Hr2.
    apply IH; [|done..]. by rewrite (txn_step_length _ _ Hs).
Qed.

Lemma seq_runs_det store cache ts fx1 store1 cache1 fx2 store2 cache2 :
  seq_runs store cache ts fx1 store1 cache1 →
  seq_runs store cache ts fx2 store2 cache2 →
  fx1 = fx2 ∧ store1 = store2 ∧ cache1 = cache2.
Proof.
  intros H1. revert fx2 store2 cache2.
  induction H1 as [|store cache t ts w1 o1 ys1 store1 cache1 Hr1 Ht1 _ IH];
    intros fx2 store2 cache2 H2; inversion H2 as [|? ? ? ? w2 o2 ys2 ? ? Hr2 Ht2 Hs2]; subst; try done.
  assert (w1 = w2) as <-.
  { apply (single_txn_final_unique (mkWorld store cache [] [t] []) _ _ eq_refl Hr1); [rewrite Ht1; by repeat constructor|exact Hr2|].
    rewrite Ht2; by repeat constructor. }
  destruct (IH _ _ _ Hs2) as (-> & -> & ->). done.
Qed.

Lemma run_schedule_sound sched w w' : run_schedule sched w = Some w' → rtc txn_step w w'.
Proof.
  revert w; induction sched as [|i sched IH]; intros w; simpl; [intros [= <-]; apply rtc_refl|].
  destruct (txn_next w i) as [w1|] eqn:Hn; simpl; [|done].
  intros Hr. eapply rtc_l; [exact (txn_next_sound _ _ _ Hn)|]. by apply IH.
Qed.

(** ** Main theorems *)

(** C35: every run of the transactions, whatever the interleaving, takes at
    most [world_measure w] transaction steps. *)
Theorem txn_steps_bounded n w w' : nsteps txn_step n w w' → n ≤ world_measure w.
Proof. induction 1 as [|n w1 w2 w3 Hs _ IH]; [lia|]. pose proof (txn_step_measure _ _ Hs). lia. Qed.

(** C15: from any world, the transactions can run to the end: every one of
    them reaches [TxDone] with an outcome. *)
Theorem transactions_complete w :
  ∃ w', rtc txn_step w w' ∧ Forall (λ t, is_done t = true) (w_txns w').
Proof.
  induction w as [w IH] using (induction_ltof1 _ world_measure); unfold ltof in IH.
  destruct (decide (Forall (λ t, is_done t = true) (w_txns w))) as [Hall|Hn].
  - exists w. split; [apply rtc_refl|done].
  - apply not_Forall_Exists in Hn; [|apply _].
    apply Exists_exists in Hn as (t & Hin & Hnd). simpl in Hnd.
    apply list_elem_of_lookup_1 in Hin as [i Hi].
    destruct (txn_can_step w i t Hi) as [w1 Hs]; [destruct (is_done t); [by contradict Hnd|done]|].
    destruct (IH w1 (txn_step_measure _ _ Hs)) as (w2 & Hr & Hd).
    exists w2. split; [eapply rtc_l|]; eauto.
Qed.

Lemma rtc_txn_step_step w w' : rtc txn_step w w' → rtc step w w'.
Proof. induction 1; [apply rtc_refl|]. eapply rtc_l; [left|]; eauto. Qed.

Section Reachable.
Context `{!Composable fold} `{!CodecRoundtrip codec}.

(** C11: optimistic concurrency.  Every committed batch was produced by its
    [decide] from the fold of exactly the events that precede it in the
    stream, and it reads back from the stream as itself. *)
Theorem commits_decided_on_exact_prefix w0 w c :
  world_inv w0 → rtc step w0 w → c ∈ w_commits w →
  ∃ evs0,
    decode_from codec fresh_id 0
      (take (cm_pos c) (log_of (w_store w) (cm_stream c))) = Ok evs0 ∧
    snd (cm_decide c (fold initial evs0)) = Ok (cm_events c) ∧
    decode_from codec fresh_id (cm_pos c)
      (take (length (cm_events c)) (drop (cm_pos c) (log_of (w_store w) (cm_stream c))))
      = Ok (cm_events c).
Proof.
  intros Hw0 Hr Hc. destruct (reachable_inv _ _ Hw0 Hr) as (_ & _ & Hm & _).
  rewrite Forall_forall in Hm.
  destruct (Hm c Hc) as (evs0 & H0 & Hst & Hd & _ & _ & Hev).
  exists evs0. rewrite <- Hst. auto.
Qed.

Lemma single_txn_world_inv store cache fx t opt :
  tx_pc t = TxLoad 1 opt →
  cache_coherent codec fold initial fresh_id store cache →
  world_inv (mkWorld store cache fx [t] []).
Proof.
  intros Hpc Hc. split_and!; simpl; [done| |constructor|].
  - constructor; [|constructor]. unfold txn_ok, attempt_ok. rewrite Hpc. lia.
  - intros k1 k2 c1 c2 _ H1. by rewrite lookup_nil in H1.
Qed.

(** [transact] run alone from a coherent cache finishes with [Ok],
    performs the effects of one [decide], leaves the cache coherent, and
    the stream then reads back as the old events followed by the
    decided ones. *)
Theorem transact_isolated_outcome store cache fx t opt evs0 xs evs :
  tx_pc t = TxLoad 1 opt → opt ≠ AnyCachedValue →
  cache_coherent codec fold initial fresh_id store cache →
  decode_from codec fresh_id 0 (log_of store (tx_stream t)) = Ok evs0 →
  tx_decide t (fold initial evs0) = (xs, Ok evs) →
  ∃ w', rtc txn_step (mkWorld store cache fx [t] []) w' ∧
    w_txns w' = [with_pc t (TxDone (Ok tt))] ∧ w_effects w' = fx ++ xs ∧
    cache_coherent codec fold initial fresh_id (w_store w') (w_cache w') ∧
    decode_from codec fresh_id 0 (log_of (w_store w') (tx_stream t)) = Ok (evs0 ++ evs).
Proof.
  intros Hpc Hopt Hc Hd Hdec.
  assert (Hw : ∀ w', rtc txn_step (mkWorld store cache fx [t] []) w' → world_inv w')
    by (intros w' Hr; eapply reachable_inv;
        [eapply single_txn_world_inv; eauto|by apply rtc_txn_step_step]).
  destruct evs as [|ev evs'].
  - assert (Hr : rtc txn_step (mkWorld store cache fx [t] [])
      (mkWorld store (<[tx_stream t := mkCacheEntry (stream_version store (tx_stream t))
                                       (fold initial evs0)]> cache)
         (fx ++ xs) [with_pc t (TxDone (Ok tt))] [])).
    { eapply rtc_l; [eapply (TsLoad _ _ _ _ _ 0); [done|exact Hpc|eapply load_fresh_spec; [done|exact Hopt|exact Hc|exact Hd]]|].
      eapply rtc_l; [eapply (TsDecideNoop _ _ _ _ _ 0); [done|done|exact Hdec]|]. apply rtc_refl. }
    eexists. split; [exact Hr|].
    split_and!; [done|done|by destruct (Hw _ Hr)|by rewrite app_nil_r].
  - edestruct (transact_isolated_commits store cache fx [t] [] 0 t 1 opt evs0 xs (ev :: evs'))
      as [cache' Hr]; try done.
    eexists; split; [exact Hr|].
    split_and!; [done|done|by destruct (Hw _ Hr)|]. cbn [w_store].
    rewrite log_of_insert, decide_True, decode_from_app, Hd by done.
    cbn [mbind result_bind]. by rewrite decode_from_encoded.
Qed.

(** A transaction run alone whose [decide] throws ends with that error
    after the effects of [decide]; the stream is as it was and the cache
    stays coherent. *)
Lemma transact_isolated_error store cache fx t opt evs0 xs e :
  tx_pc t = TxLoad 1 opt → opt ≠ AnyCachedValue →
  cache_coherent codec fold initial fresh_id store cache →
  decode_from codec fresh_id 0 (log_of store (tx_stream t)) = Ok evs0 →
  tx_decide t (fold initial evs0) = (xs, Err e) →
  ∃ w', rtc txn_step (mkWorld store cache fx [t] []) w' ∧
    w_txns w' = [with_pc t (TxDone (Err e))] ∧ w_effects w' = fx ++ xs ∧
    cache_coherent codec fold initial fresh_id (w_store w') (w_cache w') ∧
    decode_from codec fresh_id 0 (log_of (w_store w') (tx_stream t)) = Ok evs0.
Proof.
  intros Hpc Hopt Hc Hd Hdec.
  assert (Hw : ∀ w', rtc txn_step (mkWorld store cache fx [t] []) w' → world_inv w')
    by (intros w' Hr; eapply reachable_inv;
        [eapply single_txn_world_inv; eauto|by apply rtc_txn_step_step]).
  assert (Hr : rtc txn_step (mkWorld store cache fx [t] [])
    (mkWorld store (<[tx_stream t := mkCacheEntry (stream_version store (tx_stream t))
                                     (fold initial evs0)]> cache)
       (fx ++ xs) [with_pc t (TxDone (Err e))] [])).
  { eapply rtc_l; [eapply (TsLoad _ _ _ _ _ 0); [done|exact Hpc|eapply load_fresh_spec; [done|exact Hopt|exact Hc|exact Hd]]|].
    eapply rtc_l; [eapply (TsDecideErr _ _ _ _ _ 0); [done|done|exact Hdec]|]. apply rtc_refl. }
  eexists. split; [exact Hr|]. split_and!; [done|done|by destruct (Hw _ Hr)|done].
Qed.
End Reachable.
End Decider.
