(* ===== verification/Retry.v ===== *)
(** * How many attempts the engine needs (spec sections 4.4, 5 and 7)

    A transaction whose append conflicts reloads and decides again, and
    throws [MaxResyncsExhausted] when its attempt reaches [max_attempts].
    With no writer outside the process, a conflict of one transaction
    means that another transaction of the process committed to the same
    stream after it loaded, and each transaction commits at most once.
    So with [n] transactions, [max_attempts >= n] is never exhausted
    ([retries_suffice]).

    The invariant [retry_inv] counts, for each transaction, the commits
    that can have caused its conflicts so far; [store0] is the store the
    run starts from. *)

From S2P Require Import Prelude Types Category Decider.

Section Retry.
Context {E F C St X : Type}.
Context (codec : Codec E F C) (fold : St → list E → St) (initial : St).
Context (fresh_id : Z → string) (max_attempts : nat).
Context `{!Composable fold} `{!CodecRoundtrip codec}.
Context (store0 : gmap string (list (StreamEvent F))).

Abbreviation Commit := (@Commit E St X).
Abbreviation Txn := (@Txn E C St X).
Abbreviation World := (@World E F C St X).

(** The commits to a stream, and those among them that end at or before
    position [n]. *)
Definition commits_to (sn : string) (cms : list Commit) : list Commit :=
  filter (λ c, cm_stream c = sn) cms.

Definition commits_ending_by (sn : string) (n : nat) (cms : list Commit) : list Commit :=
  filter (λ c, cm_pos c + length (cm_events c) ≤ n) (commits_to sn cms).

(** The length of the prefix a version stands for. *)
Definition vpos (v : Z) : nat := Z.to_nat (v + 1).

(** A transaction's attempts so far are paid for by commits: before a
    load, by the commits to its stream; after a load at version [v], by
    those that end within the prefix it loaded.  A load from the cache
    alone happens only on the first attempt. *)
Definition retry_ok (cms : list Commit) (t : Txn) : Prop :=
  let sn := tx_stream t in
  match tx_pc t with
  | TxLoad a opt => a - 1 ≤ length (commits_to sn cms) ∧ (opt = AnyCachedValue → a = 1)
  | TxDecide a v _ | TxSync a v _ _ =>
      length (log_of store0 sn) ≤ vpos v ∧ a - 1 ≤ length (commits_ending_by sn (vpos v) cms)
  | TxDone _ => True
  end.

(** Logs only grow; what they hold beyond [store0] was committed; the
    cache holds no version older than [store0]; every transaction is
    [retry_ok]; there are no more commits than finished transactions. *)
Definition retry_inv (w : World) : Prop :=
  (∀ sn, length (log_of store0 sn) ≤ length (log_of (w_store w) sn)) ∧
  (∀ sn L, length (log_of store0 sn) ≤ L < length (log_of (w_store w) sn) →
     ∃ c, c ∈ w_commits w ∧ cm_stream c = sn ∧ L < cm_pos c + length (cm_events c)) ∧
  (∀ sn ce, w_cache w !! sn = Some ce → length (log_of store0 sn) ≤ vpos (ce_version ce)) ∧
  Forall (retry_ok (w_commits w)) (w_txns w) ∧
  length (w_commits w) ≤ length (filter (λ t, is_done t = true) (w_txns w)).

Lemma vpos_stream_version (store : gmap string (list (StreamEvent F))) sn :
  vpos (stream_version store sn) = length (log_of store sn).
Proof. unfold vpos, stream_version, version_of_length. lia. Qed.

Lemma done_count_insert (l : list Txn) i t t' :
  l !! i = Some t →
  length (filter (λ t, is_done t = true) (<[i := t']> l)) + (if is_done t then 1 else 0) =
  length (filter (λ t, is_done t = true) l) + (if is_done t' then 1 else 0).
Proof.
  intros Hi. pose proof (lookup_lt_Some _ _ _ Hi) as Hlt.
  pose proof (take_drop_middle l i t Hi) as Hl.
  rewrite insert_take_drop by done. rewrite <- Hl at 3.
  rewrite !filter_app, !filter_cons, !length_app.
  destruct (is_done t), (is_done t'); repeat case_decide; simpl; try congruence; lia.
Qed.

Lemma retry_ok_snoc cms c t : retry_ok cms t → retry_ok (cms ++ [c]) t.
Proof.
  unfold retry_ok, commits_ending_by, commits_to.
  destruct (tx_pc t); rewrite ?filter_app, ?length_app; intuition lia.
Qed.

(** Right after a load at the current version, every commit to the stream
    ends within the prefix loaded. *)
Lemma commits_all_end (store : gmap string (list (StreamEvent F))) sn cms :
  Forall (commit_ok codec fold initial fresh_id store) cms →
  commits_ending_by sn (length (log_of store sn)) cms = commits_to sn cms.
Proof.
  intros Hcm. apply filter_all, Forall_forall. intros c Hc.
  apply list_elem_of_filter in Hc as [Hsn Hc].
  destruct (proj1 (Forall_forall _ _) Hcm c Hc) as (? & _ & _ & _ & _ & Hlen & _).
  by rewrite <- Hsn.
Qed.

Lemma commits_ending_by_lt sn n cms c :
  c ∈ cms → cm_stream c = sn → n < cm_pos c + length (cm_events c) →
  length (commits_ending_by sn n cms) < length (commits_to sn cms).
Proof.
  intros Hc Hsn Hn. apply (length_filter_lt _ _ c); [by apply list_elem_of_filter|lia].
Qed.

(** A step that only moves transaction [i] on, from a program counter
    that is not done. *)
Lemma retry_inv_set_pc store cache cache' (fx fx' : list X) txns cms i t pc :
  retry_inv (mkWorld store cache fx txns cms) →
  (∀ sn ce, cache' !! sn = Some ce → length (log_of store0 sn) ≤ vpos (ce_version ce)) →
  txns !! i = Some t → is_done t = false → retry_ok cms (with_pc t pc) →
  retry_inv (mkWorld store cache' fx' (<[i := with_pc t pc]> txns) cms).
Proof.
  intros (H0 & H1 & _ & Ht & Hn) Hc Hi Hnd Hok. split_and!; simpl in *; try done.
  - by apply Forall_insert.
  - pose proof (done_count_insert txns i t (with_pc t pc) Hi) as Hd.
    rewrite Hnd in Hd. destruct (is_done _); lia.
Qed.

(** A conflicting append is paid for: some commit to the stream ended
    beyond the prefix the transaction loaded. *)
Lemma conflict_paid w i t a v st evs :
  world_inv codec fold initial fresh_id max_attempts w → retry_inv w →
  w_txns w !! i = Some t → tx_pc t = TxSync a v st evs →
  stream_version (w_store w) (tx_stream t) ≠ v →
  a ≤ length (commits_to (tx_stream t) (w_commits w)).
Proof.
  intros (_ & Htx & _) (_ & H1 & _ & Hr & _) Hi Hpc Hv.
  pose proof (Forall_lookup_1 _ _ _ _ Htx Hi) as Hok. unfold txn_ok in Hok. rewrite Hpc in Hok.
  destruct Hok as (_ & (n & evs0 & Hn & -> & _) & _).
  pose proof (Forall_lookup_1 _ _ _ _ Hr Hi) as Hro. unfold retry_ok in Hro. rewrite Hpc in Hro.
  destruct Hro as [Hlo Ha].
  assert (Hpos : vpos (version_of_length n) = n) by (unfold vpos, version_of_length; lia).
  rewrite Hpos in Hlo, Ha.
  assert (n < length (log_of (w_store w) (tx_stream t))).
  { unfold stream_version in Hv. destruct (decide (n = length (log_of (w_store w) (tx_stream t))));
      [by subst|lia]. }
  destruct (H1 (tx_stream t) n) as (c & Hc & Hsn & Hend); [lia|].
  pose proof (commits_ending_by_lt _ _ _ _ Hc Hsn Hend). lia.
Qed.

(** A commit keeps the invariant: it covers the positions it appends. *)
Lemma retry_inv_written store cache (fx : list X) txns cms i t a v st evs v' st' store' cache' :
  world_inv codec fold initial fresh_id max_attempts (mkWorld store cache fx txns cms) →
  retry_inv (mkWorld store cache fx txns cms) →
  txns !! i = Some t → tx_pc t = TxSync a v st evs →
  sync codec fold store cache (tx_stream t) (tx_ctx t) v st evs = (Written v' st', store', cache') →
  retry_inv (mkWorld store' cache' fx (<[i := with_pc t (TxDone (Ok tt))]> txns)
    (cms ++ [mkCommit (tx_stream t) (length (log_of store (tx_stream t))) st evs (tx_decide t)])).
Proof.
  intros (_ & Htx & _) (H0 & H1 & H2 & Ht & Hn) Hi Hpc Hsy. simpl in *.
  assert (Hnd : is_done t = false) by (unfold is_done; by rewrite Hpc).
  apply sync_written in Hsy as (Hv & Hv' & _ & -> & ->).
  split_and!; simpl.
  - intros sn'. rewrite log_of_insert. specialize (H0 sn').
    case_decide; subst; [rewrite length_app|]; lia.
  - intros sn' L HL. rewrite log_of_insert in HL.
    case_decide as Heq; [subst sn'; rewrite length_app, length_map in HL|].
    + destruct (decide (L < length (log_of store (tx_stream t)))).
      * destruct (H1 (tx_stream t) L) as (c & Hc & ? & ?); [lia|].
        exists c. rewrite elem_of_app. eauto.
      * eexists. rewrite elem_of_app, list_elem_of_singleton. split; [by right|]. simpl. split; [done|lia].
    + destruct (H1 sn' L HL) as (c & Hc & ? & ?). exists c. rewrite elem_of_app. eauto.
  - intros sn' ce. rewrite lookup_insert_Some. intros [[<- <-]|[_ Hce]]; [|by apply H2].
    simpl. rewrite Hv', Hv. unfold vpos, stream_version, version_of_length.
    specialize (H0 (tx_stream t)). lia.
  - apply Forall_insert; [|by unfold retry_ok].
    eapply Forall_impl; [exact Ht|]. intros. by apply retry_ok_snoc.
  - pose proof (done_count_insert txns i t (with_pc t (TxDone (Ok tt))) Hi) as Hd.
    rewrite Hnd in Hd. simpl in Hd. rewrite length_app. simpl. lia.
Qed.

(** Every step of a transaction keeps [retry_inv]. *)
Lemma retry_inv_step w w' :
  world_inv codec fold initial fresh_id max_attempts w → retry_inv w →
  txn_step codec fold initial fresh_id max_attempts w w' → retry_inv w'.
Proof.
  intros Hw Hr Hs. pose proof Hr as (H0 & _ & H2 & Ht & _).
  destruct Hs as [store cache fx txns cms i t a opt v st cache' Hi Hpc Hl
    |store cache fx txns cms i t a opt e Hi Hpc Hl
    |store cache fx txns cms i t a v st xs e Hi Hpc Hd
    |store cache fx txns cms i t a v st xs Hi Hpc Hd
    |store cache fx txns cms i t a v st xs evs Hi Hpc Hd Hne
    |store cache fx txns cms i t a v st evs v' st' store' cache' Hi Hpc Hsy
    |store cache fx txns cms i t a v st evs Hi Hpc Hsy Ha
    |store cache fx txns cms i t a v st evs Hi Hpc Hsy Ha];
    [..|by eapply retry_inv_written| |];
    simpl in *; pose proof (Forall_lookup_1 _ _ _ _ Ht Hi) as Hok;
    unfold retry_ok in Hok; rewrite Hpc in Hok;
    assert (Hnd : is_done t = false) by (unfold is_done; by rewrite Hpc);
    apply (retry_inv_set_pc _ _ _ _ _ _ _ _ _ _ Hr); try done; unfold retry_ok; simpl.
  - destruct (load_version _ _ _ _ _ _ _ _ _ _ _ Hl) as [(-> & (ce & Hce & ->) & ->)|(-> & ->)]; [done|].
    intros sn ce. rewrite lookup_insert_Some. intros [[<- <-]|[_ Hce]]; [|by apply H2].
    simpl. rewrite vpos_stream_version. apply H0.
  - destruct Hw as (_ & _ & Hcm & _). simpl in Hcm.
    destruct (load_version _ _ _ _ _ _ _ _ _ _ _ Hl) as [(-> & (ce & Hce & ->) & ->)|(-> & ->)].
    + split; [by apply (H2 _ ce)|]. destruct Hok as [_ Ha1]. rewrite Ha1 by done. lia.
    + rewrite vpos_stream_version, commits_all_end by done. split; [apply H0|tauto].
  - apply sync_conflict in Hsy.
    pose proof (conflict_paid (mkWorld store cache fx txns cms) i t a v st evs Hw Hr Hi Hpc Hsy).
    split; [simpl in *; lia|done].
Qed.

Lemma retry_inv_init txns :
  Forall (λ t, ∃ opt, tx_pc t = TxLoad 1 opt) txns → retry_inv (init_world store0 txns).
Proof.
  intros Ht. split_and!; simpl.
  - done.
  - lia.
  - intros sn ce Hce. by rewrite lookup_empty in Hce.
  - eapply Forall_impl; [exact Ht|]. intros t [opt Hpc]. unfold retry_ok. rewrite Hpc. lia.
  - lia.
Qed.

Lemma reachable_retry_inv w0 w :
  world_inv codec fold initial fresh_id max_attempts w0 → retry_inv w0 →
  rtc (txn_step codec fold initial fresh_id max_attempts) w0 w →
  world_inv codec fold initial fresh_id max_attempts w ∧ retry_inv w.
Proof.
  intros Hw Hr Hs. revert Hw Hr.
  induction Hs as [|w1 w2 w3 Hs _ IH]; intros Hw Hr; [done|].
  apply IH; [by eapply txn_step_inv|by eapply retry_inv_step].
Qed.

Lemma rtc_txn_step_length (w w' : World) :
  rtc (txn_step codec fold initial fresh_id max_attempts) w w' → length (w_txns w') = length (w_txns w).
Proof. induction 1 as [|w1 w2 w3 Hs _ IH]; [done|]. rewrite IH. by eapply txn_step_length. Qed.

(** A transaction at an attempt below [max_attempts] whose append is
    about to run does not throw [MaxResyncsExhausted] in the next step. *)
Lemma step_not_exhausted (w w' : World) i t a v st evs :
  txn_step codec fold initial fresh_id max_attempts w w' →
  w_txns w !! i = Some t → tx_pc t = TxSync a v st evs → a < max_attempts →
  w_txns w' !! i ≠ Some (with_pc t (TxDone (Err (MaxResyncsExhausted a)))).
Proof.
  intros Hs Hi Hpc Ha Heq.
  inversion Hs as [? ? ? ? ? j t' ? ? ? ? ? Hj Hpc'|? ? ? ? ? j t' ? ? ? Hj Hpc'|? ? ? ? ? j t' ? ? ? ? ? Hj Hpc'
                 |? ? ? ? ? j t' ? ? ? ? Hj Hpc'|? ? ? ? ? j t' ? ? ? ? ? Hj Hpc'
                 |? ? ? ? ? j t' ? ? ? ? ? ? ? ? Hj Hpc'|? ? ? ? ? j t' ? ? ? ? Hj Hpc'|? ? ? ? ? j t' ? ? ? ? Hj Hpc' ? Hmax];
    subst; simpl in *; apply list_lookup_insert_Some in Heq as [(-> & Hx & _)|(_ & Hx)];
    rewrite ?Hi in Hj, Hx; simplify_eq; rewrite ?Hpc in Hpc'; simplify_eq; simpl in *; try done;
    try match goal with H : with_pc ?t _ = ?t |- _ =>
      apply (f_equal tx_pc) in H; rewrite Hpc in H; discriminate H end; lia.
Qed.

(** C14: With no writer outside the process, [n] transactions started
    together, and [max_attempts] at least [n], every append that conflicts
    is retried: each of its conflicts so far is paid for by a commit of
    the process to its stream, it happens at an attempt below [max_attempts], so no
    transaction throws [MaxResyncsExhausted] (the library's default of 3
    attempts serves three concurrent transactions on one stream). *)
Theorem retries_suffice (txns : list Txn) w i t a v st evs :
  Forall (λ t, ∃ opt, tx_pc t = TxLoad 1 opt) txns →
  length txns ≤ max_attempts →
  rtc (txn_step codec fold initial fresh_id max_attempts) (init_world store0 txns) w →
  w_txns w !! i = Some t → tx_pc t = TxSync a v st evs →
  fst (fst (sync codec fold (w_store w) (w_cache w) (tx_stream t) (tx_ctx t) v st evs)) = Conflict →
  a ≤ length (commits_to (tx_stream t) (w_commits w)) ∧ a < max_attempts ∧
  ∀ w', txn_step codec fold initial fresh_id max_attempts w w' →
    w_txns w' !! i ≠ Some (with_pc t (TxDone (Err (MaxResyncsExhausted a)))).
Proof.
  intros Hinit Hmax Hr Hi Hpc Hc. apply sync_conflict in Hc.
  destruct (reachable_retry_inv _ _ (init_world_inv _ _ _ _ _ _ _ Hinit) (retry_inv_init _ Hinit) Hr)
    as [Hw Hri].
  pose proof (conflict_paid w i t a v st evs Hw Hri Hi Hpc Hc) as Ha.
  destruct Hri as (_ & _ & _ & _ & Hn).
  pose proof (length_filter (λ c, cm_stream c = tx_stream t) (w_commits w)).
  assert (length (filter (λ t, is_done t = true) (w_txns w)) < length (w_txns w)).
  { apply (length_filter_lt _ _ t); [by eapply list_elem_of_lookup_2|unfold is_done; by rewrite Hpc]. }
  pose proof (rtc_txn_step_length _ _ Hr). simpl in *. unfold commits_to in Ha.
  assert (a < max_attempts) by lia. split_and!; [done|done|]. intros w' Hs. by eapply step_not_exhausted.
Qed.

End Retry.
