(* ===== verification/ContactPreferences.v ===== *)
(** * The contact-preferences service
    ([apps/store-integration/src/domain/ContactPreferences.ts])

    One stream per client (its id hashed with SHA-256); the state is the
    preferences of the last [ContactPreferencesChanged] event; [update]
    emits an event only when the preferences change.  The service runs its
    decision through the Decider and reads back through [query]. *)

From S2P Require Import Prelude Types Category Decider.

Module ContactPreferences.

(** [ClientId] (lines 6-10): a branded string; [toStreamId] is its
    SHA-256 hex digest, a library call kept as a parameter below. *)
Definition ClientId := string.
Definition ClientId_parse (x : string) : ClientId := x.

Definition Category : string := "ContactPreferences".

(** [Preferences], [Value], [Event] (lines 15-23). *)
Record Preferences := mkPreferences {
  manyPromotions : bool;
  littlePromotions : bool;
  productReview : bool;
  quickSurveys : bool
}.

Global Instance Preferences_eq_dec : EqDecision Preferences.
Proof. solve_decision. Defined.

Record Value := mkValue { email : string; preferences : Preferences }.

Inductive Event := ContactPreferencesChanged (data : Value).

Definition State := Preferences.

(** [initial] (lines 27-32). *)
Definition initial : State := mkPreferences false false false false.

(** [evolve] and [fold] (lines 33-39). *)
Definition evolve (_ : State) (e : Event) : State :=
  match e with ContactPreferencesChanged v => preferences v end.

Definition fold : State → list Event → State := fold_last evolve.

(** [isOrigin] and [transmute] (lines 40-41). *)
Definition isOrigin (_ : Event) : bool := true.
Definition transmute (events : list Event) (_ : State) : list Event * list Event :=
  ([], events).

(** [Decide.update] (lines 44-49): ramda's [equals] on the preferences. *)
Definition update (value : Value) (state : State) : list Event :=
  if decide (preferences value = state) then [] else [ContactPreferencesChanged value].

#[export] Instance fold_composable : Composable fold.
Proof. apply fold_last_composable. by intros ?? []. Qed.

(** C37: [fold] composes incrementally: folding a split stream in two
    steps gives the state of folding it at once. *)
Theorem fold_incremental s l1 l2 : fold (fold s l1) l2 = fold s (l1 ++ l2).
Proof. apply fold_app. Qed.

Lemma update_reaches v s : fold s (update v s) = preferences v.
Proof. unfold update, fold, fold_last. by case_decide as Heq; simpl; [subst|]. Qed.

(** C36: [update] reaches the requested preferences, and deciding again on
    the resulting state emits nothing (the decision is idempotent). *)
Theorem update_converges v s :
  fold s (update v s) = preferences v ∧ update v (fold s (update v s)) = [].
Proof.
rewrite update_reaches. split; [done|]. unfold update. by rewrite decide_True.
Qed.

Section Service.
Context {F : Type} (codec : Codec Event F unit) (fresh_id : Z → string).
Context (sha256_hex : string → string).

Definition toStreamId (x : ClientId) : string := sha256_hex x.
Definition streamId (x : ClientId) : string := toStreamId x.
Definition stream_name (x : ClientId) : string :=
  stream_name_create Category (streamId x).

(** [Service.update] (lines 55-58): [transact] with the default
    [RequireLoad]; the decision has no external effect. *)
Definition service_update (client : ClientId) (value : Preferences) : @Txn Event unit State Empty_set :=
  transact (stream_name client) tt
    (λ s, ([], Ok (update (mkValue client value) s))) RequireLoad.

(** [Service.read] and [Service.readStale] (lines 60-68). *)
Definition service_read store cache (client : ClientId) :=
  query codec fold initial fresh_id RequireLoad (λ x, x) store cache (stream_name client).

Definition service_readStale store cache (client : ClientId) :=
  query codec fold initial fresh_id AnyCachedValue (λ x, x) store cache (stream_name client).

(** C2: [Service.update] followed by [Service.read], with no other
    writer: the transaction commits and the read returns the requested
    preferences. *)
Theorem update_then_read `{!CodecRoundtrip codec} max_attempts store cache client value evs0 :
  cache_coherent codec fold initial fresh_id store cache →
  decode_from codec fresh_id 0 (log_of store (stream_name client)) = Ok evs0 →
  ∃ w', rtc (txn_step codec fold initial fresh_id max_attempts)
          (mkWorld store cache [] [service_update client value] []) w' ∧
    w_txns w' = [with_pc (service_update client value) (TxDone (Ok tt))] ∧
    ∃ cache', service_read (w_store w') (w_cache w') client = Ok (value, cache').
Proof.
  intros Hc Hd.
  destruct (transact_isolated_outcome codec fold initial fresh_id max_attempts
              store cache [] (service_update client value) RequireLoad evs0 []
              (update (mkValue client value) (fold initial evs0)))
    as (w' & Hr & Ht & _ & Hc' & Hd'); try done.
  change (tx_stream (service_update client value)) with (stream_name client) in Hd'.
  exists w'. split_and!; [done|done|]. unfold service_read, query.
  rewrite (load_fresh_spec codec fold initial fresh_id RequireLoad _ _ _ _ ltac:(done) Hc' Hd'). simpl.
  eexists. do 2 f_equal. rewrite <- fold_app.
  apply update_reaches.
Qed.
End Service.

Definition event_type (_ : Event) : string := "ContactPreferencesChanged".

Lemma update_then_read_witness :
  let codec := @typed_codec Event unit event_type in
  let prefs := mkPreferences true false true false in
  cache_coherent codec fold initial (λ _, "") ∅ ∅ ∧
  decode_from codec (λ _, "") 0 (log_of ∅ (stream_name (λ x, x) "alice")) = Ok [] ∧
  ∃ w', rtc (txn_step codec fold initial (λ _, "") 3)
          (mkWorld ∅ ∅ [] [service_update (λ x, x) "alice" prefs] []) w' ∧
    w_txns w' = [with_pc (service_update (λ x, x) "alice" prefs) (TxDone (Ok tt))] ∧
    ∃ cache', service_read codec (λ _, "") (λ x, x) (w_store w') (w_cache w') "alice"
                = Ok (prefs, cache').
Proof.
  split; [apply cache_coherent_empty|]. split; [reflexivity|].
  apply (update_then_read (typed_codec event_type) (λ _, "") (λ x, x) 3 ∅ ∅ "alice"
           (mkPreferences true false true false) []); [apply cache_coherent_empty|reflexivity].
Defined.
End ContactPreferences.
