(* ===== verification/InvoiceAutoEmailer.v ===== *)
(** * The invoice auto-emailer
    ([apps/example/src/domain/invoice-auto-emailer.ts])

    One stream per invoice.  [sendEmail] runs a transaction whose [decide]
    looks the payer up, sends the invoice e-mail, and records
    [EmailSent] or [EmailSendingFailed]; it does nothing once the last event
    is [EmailSent].  The e-mail is sent inside [decide], before the append:
    the model records every call of the mailer as an external effect of the
    transaction, so that what concurrent transactions send can be counted.
    [createHandler] reacts to an [InvoiceRaised] at the head of a batch
    with a [sendEmail] call; calls run one after another hand the mailer
    the e-mails of the reference [run_sequential].  The payer lookup is
    awaited and may reject: [decide] then throws. *)

From S2P Require Import Prelude Types Category Decider Retry.

Module InvoiceAutoEmailer.

Definition InvoiceId := string.
Definition PayerId := string.

(** [CATEGORY] and [streamId] (lines 9-10): [StreamId.gen(InvoiceId.toString)]. *)
Definition CATEGORY : string := "InvoiceAutoEmail".
Definition streamId (id : InvoiceId) : string := id.
Definition stream_name (id : InvoiceId) : string := stream_name_create CATEGORY (streamId id).

(** The event bodies (lines 12-22) and the event union (lines 24-26). *)
Record EmailSent := mkEmailSent { sent_email : string; sent_payer_id : PayerId }.
Record EmailFailure := mkEmailFailure { failure_payer_id : PayerId; failure_reason : string }.

Inductive Event :=
| EmailSentEv (data : EmailSent)
| EmailSendingFailed (data : EmailFailure).

(** [State], [initial], [fold] (lines 35-38): the last event, if any. *)
Definition State := option Event.
Definition initial : State := None.
Definition fold (state : State) (events : list Event) : State :=
  match last events with Some e => Some e | None => state end.

#[export] Instance fold_composable : Composable fold.
Proof. split; [done|]. intros s l1 l2. unfold fold. rewrite last_app. by destruct (last l2). Qed.

(** The collaborators: a payer profile and what the mailer does. *)
Record Payer := mkPayer { payer_email : string }.

Inductive MailOutcome :=
| MailSent
| MailThrew (message : option string).   (** [err?.message] *)

Record Email := mkEmail { mail_to : string; mail_subject : string; mail_body : string }.

Section Service.
(** [payerService.readProfile] (line 51): it resolves to a profile or
    to nothing, or rejects. *)
Context (readProfile : PayerId → result (option Payer)).
Context (mailer : Email → MailOutcome).

(** The [decide] of [Service.sendEmail] (lines 49-71).  The effect
    list holds the e-mail handed to the mailer, with its outcome. *)
Definition sendEmail_decide (payerId : PayerId) (amount : Z) (state : State)
    : list (Email * MailOutcome) * result (list Event) :=
  match state with
  | Some (EmailSentEv _) => ([], Ok [])
  | _ =>
      match readProfile payerId with
      | Err err => ([], Err err)
      | Ok None =>
          ([], Ok [EmailSendingFailed (mkEmailFailure payerId "Payer not found")])
      | Ok (Some payer) =>
          let mail := mkEmail (payer_email payer) ("Invoice for " +:+ pretty amount)
                        ("Please pay " +:+ pretty amount +:+ " by tuesday") in
          match mailer mail with
          | MailSent =>
              ([(mail, MailSent)], Ok [EmailSentEv (mkEmailSent (payer_email payer) payerId)])
          | MailThrew msg =>
              ([(mail, MailThrew msg)],
               Ok [EmailSendingFailed (mkEmailFailure payerId (default "Unknown failure" msg))])
          end
      end
  end.

(** [Service.sendEmail] (lines 47-49): [decider.transactAsync] with the
    default load option. *)
Definition sendEmail (invoiceId : InvoiceId) (payerId : PayerId) (amount : Z)
    : @Txn Event unit State (Email * MailOutcome) :=
  transact (stream_name invoiceId) tt (sendEmail_decide payerId amount) RequireLoad.

(** [inspectState] (lines 75-78): [decider.query((s) => s)]. *)
Definition inspectState {F} (codec : Codec Event F unit) (fresh_id : Z → string)
    store cache (invoiceId : InvoiceId) :=
  query codec fold initial fresh_id RequireLoad (λ s, s) store cache (stream_name invoiceId).

(** Calls of [sendEmail] one after another, each running alone: by
    [transact_isolated_outcome] each commits its decision, so the state
    the next call sees is the fold of the previous one's events. *)
Fixpoint run_sequential (reqs : list (PayerId * Z)) (s : State)
    : list (Email * MailOutcome) * State :=
  match reqs with
  | [] => ([], s)
  | (p, a) :: rest =>
      let '(xs, r) := sendEmail_decide p a s in
      let s' := match r with Ok evs => fold s evs | Err _ => s end in
      let '(ys, s'') := run_sequential rest s' in
      (xs ++ ys, s'')
  end.
End Service.

(** [Invoice.Events] ([invoice.ts], not under [src/]): the handler only
    tells [InvoiceRaised] apart from the other events of an invoice. *)
Record InvoiceRaisedData := mkInvoiceRaised { raised_payer_id : PayerId; raised_amount : Z }.

Inductive InvoiceEvent :=
| InvoiceRaised (data : InvoiceRaisedData)
| OtherInvoiceEvent (type : string).

Section Handler.
Context (readProfile : PayerId → result (option Payer)) (mailer : Email → MailOutcome).
(** [Invoice.Stream.tryMatch] and [Invoice.Events.codec.tryDecode]. *)
Context (Stream_tryMatch : string → option InvoiceId).
Context (Events_tryDecode : TimelineEvent string → option InvoiceEvent).

(** The handler [createHandler] returns (lines 101-106), as the call of
    [service.sendEmail] it awaits, or [None] where it returns early: an
    empty id is falsy, and only the first event of the batch is decoded.
    The dispatcher never hands it an empty batch; [events[0]] of one is
    read here as an event that does not decode. *)
Definition createHandler (stream : string) (events : list (TimelineEvent string))
    : option (@Txn Event unit State (Email * MailOutcome)) :=
  match Stream_tryMatch stream with
  | None => None
  | Some id =>
      if bool_decide (id = "") then None
      else match events !! 0 ≫= Events_tryDecode with
           | Some (InvoiceRaised d) =>
               Some (sendEmail readProfile mailer id (raised_payer_id d) (raised_amount d))
           | _ => None
           end
  end.
End Handler.

Global Instance MailOutcome_eq_dec : EqDecision MailOutcome.
Proof. solve_decision. Defined.

Definition successful_sends (xs : list (Email * MailOutcome)) : nat :=
  length (filter (λ x, x.2 = MailSent) xs).

Definition is_sent (s : State) : bool :=
  match s with Some (EmailSentEv _) => true | _ => false end.

Section Properties.
Context (readProfile : PayerId → result (option Payer)) (mailer : Email → MailOutcome).

(** C26: the [decide] of [sendEmail]: on a state whose last event is
    [EmailSent] it sends and emits nothing; otherwise, when the awaited
    payer lookup (line 51) rejects, it throws that error before any e-mail
    is handed to the mailer, and when the lookup resolves it emits exactly
    one event after handing at most one e-mail to the mailer (a mailer
    that throws is caught, lines 63-69). *)
Theorem sendEmail_decide_spec payerId amount s :
  let '(xs, r) := sendEmail_decide readProfile mailer payerId amount s in
  if is_sent s then xs = [] ∧ r = Ok []
  else match readProfile payerId with
       | Err err => xs = [] ∧ r = Err err
       | Ok _ => length xs ≤ 1 ∧ ∃ evs, r = Ok evs ∧ length evs = 1
       end.
Proof.
  unfold sendEmail_decide, is_sent.
  destruct s as [[d|d]|]; [done| |];
    (destruct (readProfile payerId) as [[payer|]|err]; [destruct (mailer _)| |]); simpl; eauto.
Qed.


Lemma sendEmail_step_budget payerId amount s :
  let '(xs, r) := sendEmail_decide readProfile mailer payerId amount s in
  successful_sends xs +
    (if is_sent (match r with Ok evs => fold s evs | Err _ => s end) then 0 else 1)
  ≤ (if is_sent s then 0 else 1).
Proof.
  unfold sendEmail_decide, successful_sends.
  destruct s as [[d|d]|]; [done| |];
    (destruct (readProfile payerId) as [[payer|]|err]; [destruct (mailer _)| |]); done.
Qed.

(** The reference run sends the invoice e-mail successfully at most once,
    and never once it was sent. *)
Lemma run_sequential_budget reqs s :
  successful_sends (run_sequential readProfile mailer reqs s).1 ≤
    (if is_sent s then 0 else 1).
Proof.
  revert s; induction reqs as [|[p a] reqs IH]; intros s; simpl; [unfold successful_sends; simpl; lia|].
  pose proof (sendEmail_step_budget p a s) as Hb.
  destruct (sendEmail_decide _ _ _ _ _) as [xs r].
  set (s' := match r with Ok evs => fold s evs | Err _ => s end) in *.
  specialize (IH s'). destruct (run_sequential _ _ _ s') as [ys s''].
  unfold successful_sends in *. simpl in *. rewrite filter_app, length_app. lia.
Qed.
End Properties.

(** ** Calls one after another, on the engine *)
Section Sequential.
Context (readProfile : PayerId → result (option Payer)) (mailer : Email → MailOutcome).
Context {F : Type} (codec : Codec Event F unit) `{!CodecRoundtrip codec}.
Context (fresh_id : Z → string) (max_attempts : nat).

Lemma sendEmail_seq_runs_exist store cache inv reqs evs0 :
  cache_coherent codec fold initial fresh_id store cache →
  decode_from codec fresh_id 0 (log_of store (stream_name inv)) = Ok evs0 →
  ∃ store' cache',
    seq_runs codec fold initial fresh_id max_attempts store cache
      (map (λ '(p, a), sendEmail readProfile mailer inv p a) reqs)
      (run_sequential readProfile mailer reqs (fold initial evs0)).1 store' cache'.
Proof.
  revert store cache evs0.
  induction reqs as [|[p a] reqs IH]; intros store cache evs0 Hc Hd; [by do 2 eexists; constructor|].
  destruct (sendEmail_decide readProfile mailer p a (fold initial evs0)) as [xs [evs|e]] eqn:Hdec.
  - edestruct (transact_isolated_outcome codec fold initial fresh_id max_attempts store cache []
                 (sendEmail readProfile mailer inv p a) RequireLoad evs0 xs evs)
      as (w' & Hr & Ht & Hfx & Hc' & Hd'); [done|done|done|done|done|].
    destruct (IH (w_store w') (w_cache w') (evs0 ++ evs) Hc' Hd') as (store' & cache' & Hs).
    exists store', cache'. cbn [List.map run_sequential]. rewrite Hdec.
    rewrite <- fold_app in Hs.
    destruct (run_sequential readProfile mailer reqs (fold (fold initial evs0) evs)) as [ys s''].
    simpl in Hs |- *. replace xs with (w_effects w') by (rewrite Hfx; done).
    by eapply SeqNext.
  - edestruct (transact_isolated_error codec fold initial fresh_id max_attempts store cache []
                 (sendEmail readProfile mailer inv p a) RequireLoad evs0 xs e)
      as (w' & Hr & Ht & Hfx & Hc' & Hd'); [done|done|done|done|done|].
    destruct (IH (w_store w') (w_cache w') evs0 Hc' Hd') as (store' & cache' & Hs).
    exists store', cache'. cbn [List.map run_sequential]. rewrite Hdec.
    destruct (run_sequential readProfile mailer reqs (fold initial evs0)) as [ys s''].
    simpl in Hs |- *. replace xs with (w_effects w') by (rewrite Hfx; done).
    by eapply SeqNext.
Qed.

Context (Stream_tryMatch : string → option InvoiceId).
Context (Events_tryDecode : TimelineEvent string → option InvoiceEvent).

Lemma createHandler_requests inv batches :
  Forall (λ b, Stream_tryMatch b.1 = Some inv) batches →
  ∃ reqs, omap (λ b, createHandler readProfile mailer Stream_tryMatch Events_tryDecode b.1 b.2) batches
          = map (λ '(p, a), sendEmail readProfile mailer inv p a) reqs.
Proof.
  induction 1 as [|[sn evs] batches Hm _ [reqs IH]]; [by exists []|].
  change (omap ?g ((sn, evs) :: batches))
    with (match g (sn, evs) with Some y => y :: omap g batches | None => omap g batches end).
  cbv beta. rewrite IH. simpl in Hm. unfold createHandler at 1. cbn [fst snd]. rewrite Hm.
  case_bool_decide; [by exists reqs|].
  destruct (evs !! 0 ≫= Events_tryDecode) as [[[p a]|]|]; [|by exists reqs..].
  by exists ((p, a) :: reqs).
Qed.

(** C4: batches of events handed to [createHandler] for one invoice, with
    any redelivery of the same [InvoiceRaised] (the reader delivers at
    least once), handled one after another on the engine, send the
    invoice e-mail successfully at most once, and not at all when the
    stream already records [EmailSent]. *)
Theorem handler_sends_at_most_once store cache inv evs0 batches fx store' cache' :
  cache_coherent codec fold initial fresh_id store cache →
  decode_from codec fresh_id 0 (log_of store (stream_name inv)) = Ok evs0 →
  Forall (λ b, Stream_tryMatch b.1 = Some inv) batches →
  seq_runs codec fold initial fresh_id max_attempts store cache
    (omap (λ b, createHandler readProfile mailer Stream_tryMatch Events_tryDecode b.1 b.2) batches)
    fx store' cache' →
  successful_sends fx ≤ (if is_sent (fold initial evs0) then 0 else 1).
Proof.
  intros Hc Hd Hb Hs. destruct (createHandler_requests inv batches Hb) as [reqs Hreqs].
  rewrite Hreqs in Hs.
  destruct (sendEmail_seq_runs_exist _ _ _ reqs _ Hc Hd) as (s1 & c1 & Hs1).
  destruct (seq_runs_det _ _ _ _ _ _ _ _ _ _ _ _ _ _ Hs1 Hs) as [<- _].
  apply run_sequential_budget.
Qed.
End Sequential.

(** ** Two concurrent calls for one invoice *)
Definition event_type (e : Event) : string :=
  match e with EmailSentEv _ => "EmailSent" | EmailSendingFailed _ => "EmailSendingFailed" end.

Definition demo_readProfile (_ : PayerId) : result (option Payer) := Ok (Some (mkPayer "payer@example.com")).
Definition demo_mailer (_ : Email) : MailOutcome := MailSent.
Definition demo_txn := sendEmail demo_readProfile demo_mailer "inv1" "payer1" 100.


(** C1: two [sendEmail] calls for the same invoice, running concurrently,
    both send the e-mail: both load the empty stream and decide (each
    calling the mailer), one appends [EmailSent], the other meets a
    version conflict, reloads, sees [EmailSent] and stops.  The stream
    holds one [EmailSent] event; the mailer sent two e-mails. *)
Theorem concurrent_sendEmail_sends_twice :
  ∃ w', rtc (txn_step (typed_codec event_type) fold initial (λ _, "") 3)
          (init_world ∅ [demo_txn; demo_txn]) w' ∧
    successful_sends (w_effects w') = 2 ∧
    Forall (λ t, tx_pc t = TxDone (Ok tt)) (w_txns w') ∧
    length (log_of (w_store w') (stream_name "inv1")) = 1.
Proof.
  destruct (run_schedule (typed_codec event_type) fold initial (λ _, "") 3
              [0; 1; 0; 1; 0; 1; 1; 1] (init_world ∅ [demo_txn; demo_txn]))
    as [w'|] eqn:Hr; [|vm_compute in Hr; discriminate].
  exists w'. split; [by eapply run_schedule_sound|].
  vm_compute in Hr. injection Hr as <-. vm_compute.
  split_and!; [reflexivity|repeat constructor|reflexivity].
Qed.
End InvoiceAutoEmailer.

Module EngineRuns.
Import InvoiceAutoEmailer.

(** ** The engine's theorems at concrete runs of the service *)
Definition demo_codec : Codec Event Event unit := typed_codec event_type.
Definition demo_sn : string := stream_name "inv1".
Definition demo_event : Event := EmailSentEv (mkEmailSent "payer@example.com" "payer1").
Definition demo_store : gmap string (list (StreamEvent Event)) :=
  {[ demo_sn := [Types.encode demo_codec demo_event ()] ]}.
Definition demo_cache : gmap string (CacheEntry State) :=
  {[ demo_sn := mkCacheEntry 0 (Some demo_event) ]}.

Lemma load_cache_transparent_witness :
  RequireLoad ≠ AnyCachedValue ∧
  cache_coherent demo_codec fold initial (λ _, "") demo_store demo_cache ∧
  decode_from demo_codec (λ _, "") 0 (log_of demo_store demo_sn) = Ok [demo_event] ∧
  (λ r, (r.1.1, r.1.2)) <$> load demo_codec fold initial (λ _, "") RequireLoad demo_store demo_cache demo_sn =
  (λ r, (r.1.1, r.1.2)) <$> load demo_codec fold initial (λ _, "") RequireLoad demo_store ∅ demo_sn.
Proof.
  assert (Ho : RequireLoad ≠ AnyCachedValue) by discriminate.
  assert (Hc : cache_coherent demo_codec fold initial (λ _, "") demo_store demo_cache).
  { intros sn ce Hce. unfold demo_cache in Hce. apply lookup_singleton_Some in Hce as [<- <-].
    exists 1, [demo_event]. vm_compute. split_and!; [lia|reflexivity..]. }
  assert (Hd : decode_from demo_codec (λ _, "") 0 (log_of demo_store demo_sn) = Ok [demo_event])
    by (vm_compute; reflexivity).
  split; [exact Ho|]. split; [exact Hc|]. split; [exact Hd|].
  exact (load_cache_transparent demo_codec fold initial (λ _, "") _ _ _ _ _ Ho Hc Hd).
Defined.

Definition init_two := init_world (∅ : gmap string (list (StreamEvent Event))) [demo_txn; demo_txn].
Definition demo_run :=
  default init_two
    (run_schedule demo_codec fold initial (λ _, "") 3 [0; 1; 0; 1; 0; 1; 1; 1] init_two).

Lemma init_two_inv : world_inv demo_codec fold initial (λ _, "") 3 init_two.
Proof. apply init_world_inv. repeat constructor; eexists; reflexivity. Qed.

Lemma demo_run_reachable : rtc (step demo_codec fold initial (λ _, "") 3) init_two demo_run.
Proof.
  apply rtc_txn_step_step. apply (run_schedule_sound _ _ _ _ _ [0; 1; 0; 1; 0; 1; 1; 1]).
  vm_compute. reflexivity.
Qed.

Definition dummy_commit :=
  mkCommit "" 0 (None : State) ([] : list Event)
    (λ _ : State, ([] : list (Email * MailOutcome), Ok ([] : list Event))).
Definition demo_commit := default dummy_commit (head (w_commits demo_run)).

Lemma commits_decided_on_exact_prefix_witness :
  world_inv demo_codec fold initial (λ _, "") 3 init_two ∧
  rtc (step demo_codec fold initial (λ _, "") 3) init_two demo_run ∧
  demo_commit ∈ w_commits demo_run ∧
  ∃ evs0,
    decode_from demo_codec (λ _, "") 0
      (take (cm_pos demo_commit) (log_of (w_store demo_run) (cm_stream demo_commit))) = Ok evs0 ∧
    snd (cm_decide demo_commit (fold initial evs0)) = Ok (cm_events demo_commit) ∧
    decode_from demo_codec (λ _, "") (cm_pos demo_commit)
      (take (length (cm_events demo_commit))
         (drop (cm_pos demo_commit) (log_of (w_store demo_run) (cm_stream demo_commit))))
      = Ok (cm_events demo_commit).
Proof.
  assert (Hin : demo_commit ∈ w_commits demo_run) by (vm_compute; left).
  split; [exact init_two_inv|]. split; [exact demo_run_reachable|]. split; [exact Hin|].
  exact (commits_decided_on_exact_prefix demo_codec fold initial (λ _, "") 3
           _ _ _ init_two_inv demo_run_reachable Hin).
Defined.

Lemma txn_steps_bounded_witness :
  ∃ n, nsteps (txn_step demo_codec fold initial (λ _, "") 3) n init_two demo_run ∧
       n ≤ world_measure 3 init_two.
Proof.
  assert (Hr : rtc (txn_step demo_codec fold initial (λ _, "") 3) init_two demo_run).
  { apply (run_schedule_sound _ _ _ _ _ [0; 1; 0; 1; 0; 1; 1; 1]). vm_compute. reflexivity. }
  apply rtc_nsteps in Hr as [n Hn]. exists n. split; [exact Hn|].
  eapply txn_steps_bounded. exact Hn.
Defined.
Definition empty_store : gmap string (list (StreamEvent Event)) := ∅.

(** The handler, fed the same [InvoiceRaised] twice. *)
Definition demo_tryMatch (s : string) : option InvoiceId :=
  if bool_decide (s = "Invoice-inv1") then Some "inv1" else None.
Definition demo_tryDecode (te : TimelineEvent string) : option InvoiceEvent :=
  if bool_decide (te_type te = "InvoiceRaised")
  then Some (InvoiceRaised (mkInvoiceRaised "payer1" 100)) else None.
Definition demo_batch : string * list (TimelineEvent string) :=
  ("Invoice-inv1", [mkTimelineEvent "e1" "InvoiceRaised" 0 None None]).
Definition handler_run1 :=
  default init_two (run_schedule demo_codec fold initial (λ _, "") 3 [0; 0; 0]
                      (mkWorld empty_store ∅ [] [demo_txn] [])).
Definition handler_run2 :=
  default init_two (run_schedule demo_codec fold initial (λ _, "") 3 [0; 0]
                      (mkWorld (w_store handler_run1) (w_cache handler_run1) [] [demo_txn] [])).
Definition handler_fx := w_effects handler_run1 ++ (w_effects handler_run2 ++ []).

Lemma handler_sends_at_most_once_witness :
  cache_coherent demo_codec fold initial (λ _, "") empty_store ∅ ∧
  decode_from demo_codec (λ _, "") 0 (log_of empty_store (stream_name "inv1")) = Ok [] ∧
  Forall (λ b, demo_tryMatch b.1 = Some "inv1") [demo_batch; demo_batch] ∧
  seq_runs demo_codec fold initial (λ _, "") 3 empty_store ∅
    (omap (λ b, createHandler demo_readProfile demo_mailer demo_tryMatch demo_tryDecode b.1 b.2)
       [demo_batch; demo_batch])
    handler_fx (w_store handler_run2) (w_cache handler_run2) ∧
  successful_sends handler_fx ≤ (if is_sent (fold initial []) then 0 else 1).
Proof.
  assert (Hc : cache_coherent demo_codec fold initial (λ _, "") empty_store ∅)
    by apply cache_coherent_empty.
  assert (Hd : decode_from demo_codec (λ _, "") 0 (log_of empty_store (stream_name "inv1")) = Ok [])
    by reflexivity.
  assert (Hb : Forall (λ b, demo_tryMatch b.1 = Some "inv1") [demo_batch; demo_batch])
    by (repeat constructor).
  assert (Hs : seq_runs demo_codec fold initial (λ _, "") 3 empty_store ∅
    (omap (λ b, createHandler demo_readProfile demo_mailer demo_tryMatch demo_tryDecode b.1 b.2)
       [demo_batch; demo_batch])
    handler_fx (w_store handler_run2) (w_cache handler_run2)).
  { change (omap _ [demo_batch; demo_batch]) with [demo_txn; demo_txn].
    eapply SeqNext; [apply (run_schedule_sound _ _ _ _ _ [0; 0; 0]); vm_compute; reflexivity
                    |vm_compute; reflexivity|].
    eapply SeqNext; [apply (run_schedule_sound _ _ _ _ _ [0; 0]); vm_compute; reflexivity
                    |vm_compute; reflexivity|].
    apply SeqDone. }
  split; [exact Hc|]. split; [exact Hd|]. split; [exact Hb|]. split; [exact Hs|].
  exact (handler_sends_at_most_once demo_readProfile demo_mailer demo_codec (λ _, "") 3
           demo_tryMatch demo_tryDecode empty_store ∅ "inv1" [] _ _ _ _ Hc Hd Hb Hs).
Defined.

(** Two calls for one invoice: both load, both decide, the first appends,
    the second's append conflicts at its first attempt. *)
Definition conflict_world :=
  default init_two (run_schedule demo_codec fold initial (λ _, "") 3 [0; 1; 0; 1; 0] init_two).
Definition conflict_txn := with_pc demo_txn (TxSync 1 (-1) None [demo_event]).

Lemma retries_suffice_witness :
  Forall (λ t, ∃ opt, tx_pc t = TxLoad 1 opt) [demo_txn; demo_txn] ∧
  length [demo_txn; demo_txn] ≤ 3 ∧
  rtc (txn_step demo_codec fold initial (λ _, "") 3) (init_world ∅ [demo_txn; demo_txn]) conflict_world ∧
  w_txns conflict_world !! 1 = Some conflict_txn ∧
  tx_pc conflict_txn = TxSync 1 (-1) None [demo_event] ∧
  fst (fst (sync demo_codec fold (w_store conflict_world) (w_cache conflict_world)
              (tx_stream conflict_txn) (tx_ctx conflict_txn) (-1) None [demo_event])) = Conflict ∧
  1 ≤ length (commits_to (tx_stream conflict_txn) (w_commits conflict_world)) ∧ 1 < 3 ∧
  ∀ w', txn_step demo_codec fold initial (λ _, "") 3 conflict_world w' →
    w_txns w' !! 1 ≠ Some (with_pc conflict_txn (TxDone (Err (MaxResyncsExhausted 1)))).
Proof.
  assert (H1 : Forall (λ t, ∃ opt, tx_pc t = TxLoad 1 opt) [demo_txn; demo_txn])
    by (repeat constructor; eexists; reflexivity).
  assert (H2 : length [demo_txn; demo_txn] ≤ 3) by (simpl; lia).
  assert (H3 : rtc (txn_step demo_codec fold initial (λ _, "") 3)
                 (init_world ∅ [demo_txn; demo_txn]) conflict_world).
  { apply (run_schedule_sound _ _ _ _ _ [0; 1; 0; 1; 0]). vm_compute. reflexivity. }
  assert (H4 : w_txns conflict_world !! 1 = Some conflict_txn) by (vm_compute; reflexivity).
  assert (H5 : tx_pc conflict_txn = TxSync 1 (-1) None [demo_event]) by reflexivity.
  assert (H6 : fst (fst (sync demo_codec fold (w_store conflict_world) (w_cache conflict_world)
              (tx_stream conflict_txn) (tx_ctx conflict_txn) (-1) None [demo_event])) = Conflict)
    by (vm_compute; reflexivity).
  split_and!; [exact H1|exact H2|exact H3|exact H4|exact H5|exact H6|..];
  destruct (retries_suffice demo_codec fold initial (λ _, "") 3 ∅ [demo_txn; demo_txn] conflict_world
              1 conflict_txn 1 (-1) None [demo_event] H1 H2 H3 H4 H5 H6) as (Hp & Ha & Hn);
    [exact Hp|exact Ha|exact Hn].
Defined.

End EngineRuns.
