(* ===== verification/InvoiceCodec.v ===== *)
(** * The wire codec of the invoice auto-emailer
    ([apps/example/src/domain/invoice-auto-emailer.ts], lines 12-33)

    [codec = Codec.upcast(Codec.json(), Codec.Upcast.body({ EmailSent:
    EmailSentSchema.parse, EmailSendingFailed: EmailFailureSchema.parse }))].
    The zod schemas are written out field by field; zod's [.email()] and
    [.uuid()] checks and [PayerId.parse] are parameters.  The typed view
    [typed_codec] is the TypeScript cast of the decoded object to [Event]. *)

From S2P Require Import Prelude Types Json Codec JsonCodec Category InvoiceAutoEmailer.

Module InvoiceCodec.
Import InvoiceAutoEmailer.

Section Zod.
Context `{DT : !DateText}.
(** [z.string().email()], [z.string().uuid()] and [PayerId.parse]. *)
Context (is_email is_uuid : string → bool) (PayerId_parse : string → PayerId).

(** A field of an object, by key. *)
Definition field (fs : list (string * jsval)) (k : string) : option jsval :=
  (λ p, p.2.2) <$> list_find (λ kv, kv.1 = k) fs.

(** [z.string()] refined by [check], on the field [k]. *)
Definition zod_string (check : string → bool) (fs : list (string * jsval)) (k : string)
    : result string :=
  match field fs k with
  | Some (JStr s) => if check s then Ok s else Err (UserError "ZodError")
  | _ => Err (UserError "ZodError")
  end.

(** [EmailSentSchema.parse] (lines 12-15). *)
Definition EmailSentSchema_parse : Validator := λ x,
  match x with
  | Some (JObj fs) =>
      email ← zod_string is_email fs "email";
      payer_id ← zod_string is_uuid fs "payer_id";
      Ok (JObj [("email", JStr email); ("payer_id", JStr (PayerId_parse payer_id))])
  | _ => Err (UserError "ZodError")
  end.

(** [EmailFailureSchema.parse] (lines 16-19). *)
Definition EmailFailureSchema_parse : Validator := λ x,
  match x with
  | Some (JObj fs) =>
      payer_id ← zod_string is_uuid fs "payer_id";
      reason ← zod_string (λ _, true) fs "reason";
      Ok (JObj [("payer_id", JStr (PayerId_parse payer_id)); ("reason", JStr reason)])
  | _ => Err (UserError "ZodError")
  end.

(** [codec] (lines 27-33). *)
Definition codec {C} : Codec (AnyEvent jsval) string C :=
  upcast json {[ "EmailSent" := EmailSentSchema_parse;
                 "EmailSendingFailed" := EmailFailureSchema_parse ]}.

(** The objects [decide] returns (lines 54, 62 and 66-69). *)
Definition to_js (e : Event) : AnyEvent jsval :=
  match e with
  | EmailSentEv d =>
      mkAnyEvent None "EmailSent" None
        (Some (JObj [("email", JStr (sent_email d)); ("payer_id", JStr (sent_payer_id d))])) None
  | EmailSendingFailed d =>
      mkAnyEvent None "EmailSendingFailed" None
        (Some (JObj [("payer_id", JStr (failure_payer_id d)); ("reason", JStr (failure_reason d))])) None
  end.

(** The decoded object read as an [Event]. *)
Definition of_js (e : AnyEvent jsval) : option Event :=
  match ae_data e with
  | Some (JObj [("email", JStr m); ("payer_id", JStr p)]) =>
      if decide (ae_type e = "EmailSent") then Some (EmailSentEv (mkEmailSent m p)) else None
  | Some (JObj [("payer_id", JStr p); ("reason", JStr r)]) =>
      if decide (ae_type e = "EmailSendingFailed")
      then Some (EmailSendingFailed (mkEmailFailure p r)) else None
  | _ => None
  end.

Definition typed_codec {C} : Codec Event string C :=
  mkCodec (λ te, ev ← tryDecode (codec (C := C)) te; Ok (ev ≫= of_js))
          (λ e ctx, Types.encode codec (to_js e) ctx).

(** The payloads the schemas accept. *)
Definition event_valid (e : Event) : bool :=
  match e with
  | EmailSentEv d => is_email (sent_email d) && is_uuid (sent_payer_id d)
  | EmailSendingFailed d => is_uuid (failure_payer_id d)
  end.


Lemma zod_string_ok check fs k s :
  field fs k = Some (JStr s) → check s = true → zod_string check fs k = Ok s.
Proof. intros Hf Hc. unfold zod_string. by rewrite Hf, Hc. Qed.

Lemma zod_string_rejects check fs k s :
  field fs k = Some (JStr s) → check s = false → zod_string check fs k = Err (UserError "ZodError").
Proof. intros Hf Hc. unfold zod_string. by rewrite Hf, Hc. Qed.

Lemma to_js_wf e x : payload_in (as_stream_event (to_js e)) x → json_wf x = true.
Proof. destruct e as [[m p]|[p r]]; intros [Hx|Hx]; simpl in Hx; by simplify_eq. Qed.

(** C24: The invoice codec gives back every event whose payload the zod
    schemas accept, provided [PayerId.parse] keeps a valid id as it is. *)
Theorem typed_codec_roundtrip {C} e (ctx : C) fresh idx :
  (∀ p, is_uuid p = true → PayerId_parse p = p) →
  event_valid e = true →
  tryDecode (typed_codec (C := C)) (to_timeline fresh idx (Types.encode typed_codec e ctx)) = Ok (Some e).
Proof.
  intros Hpid Hv. cbn [typed_codec tryDecode Types.encode]. unfold codec.
  rewrite upcast_json_decode_encode by apply to_js_wf.
  destruct e as [[m p]|[p r]]; simpl in Hv; cbn [to_js ae_type ae_data ae_meta ae_id].
  - apply andb_prop in Hv as [Hm Hp]. rewrite lookup_insert_eq. simpl.
    rewrite (zod_string_ok _ _ "email" m), bind_Ok, (zod_string_ok _ _ "payer_id" p), bind_Ok
      by first [done | vm_compute; reflexivity].
    by rewrite Hpid.
  - rewrite lookup_insert_ne, lookup_singleton_eq by done. simpl.
    rewrite (zod_string_ok _ _ "payer_id" p), !bind_Ok by first [done | vm_compute; reflexivity].
    by rewrite Hpid.
Qed.

Lemma zod_string_check check fs k s : zod_string check fs k = Ok s → check s = true.
Proof. unfold zod_string. destruct (field fs k) as [[]|]; try done. case_match; by intros [= <-]. Qed.

Lemma EmailSentSchema_parse_ok x d :
  EmailSentSchema_parse x = Ok d →
  ∃ m p, d = JObj [("email", JStr m); ("payer_id", JStr (PayerId_parse p))] ∧
    is_email m = true ∧ is_uuid p = true.
Proof.
  unfold EmailSentSchema_parse. destruct x as [[| | | | |fs|]|]; try done.
  destruct (zod_string is_email fs "email") as [m|] eqn:Hm; [|done].
  destruct (zod_string is_uuid fs "payer_id") as [p|] eqn:Hp; [|done].
  intros [= <-]. exists m, p. eauto using zod_string_check.
Qed.

Lemma EmailFailureSchema_parse_ok x d :
  EmailFailureSchema_parse x = Ok d →
  ∃ p r, d = JObj [("payer_id", JStr (PayerId_parse p)); ("reason", JStr r)] ∧ is_uuid p = true.
Proof.
  unfold EmailFailureSchema_parse. destruct x as [[| | | | |fs|]|]; try done.
  destruct (zod_string is_uuid fs "payer_id") as [p|] eqn:Hp; [|done].
  destruct (zod_string _ fs "reason") as [r|]; [|done].
  intros [= <-]. exists p, r. eauto using zod_string_check.
Qed.

(** C8: Whatever the store holds, an event the invoice codec decodes has
    the types its zod schemas give it: an [EmailSent] carries an address
    [.email()] accepts and the [PayerId.parse] of a uuid, an
    [EmailSendingFailed] the [PayerId.parse] of a uuid; and it is of the
    type the stored event names. *)
Theorem decoded_events_typed {C} te e :
  tryDecode (typed_codec (C := C)) te = Ok (Some e) →
  event_type e = te_type te ∧
  match e with
  | EmailSentEv d =>
      is_email (sent_email d) = true ∧ ∃ p, is_uuid p = true ∧ sent_payer_id d = PayerId_parse p
  | EmailSendingFailed d => ∃ p, is_uuid p = true ∧ failure_payer_id d = PayerId_parse p
  end.
Proof.
  cbn [typed_codec tryDecode]. unfold codec, upcast. cbn [tryDecode json].
  destruct (parse_payload (te_data te)) as [dat|]; [|done]. rewrite bind_Ok.
  destruct (parse_payload (te_meta te)) as [meta|]; [|done]. rewrite !bind_Ok. cbn [ae_type ae_data].
  destruct (decide (te_type te = "EmailSent")) as [Ht|Ht];
    [|destruct (decide (te_type te = "EmailSendingFailed")) as [Ht'|Ht']].
  - rewrite Ht, lookup_insert_eq.
    destruct (EmailSentSchema_parse dat) as [d|] eqn:Hd; [|done]. simpl.
    destruct (EmailSentSchema_parse_ok _ _ Hd) as (m & p & -> & Hm & Hp).
    unfold of_js; simpl. intros [= <-]. simpl. eauto.
  - rewrite Ht', lookup_insert_ne, lookup_singleton_eq by done.
    destruct (EmailFailureSchema_parse dat) as [d|] eqn:Hd; [|done]. simpl.
    destruct (EmailFailureSchema_parse_ok _ _ Hd) as (p & r & -> & Hp).
    unfold of_js; simpl. intros [= <-]. simpl. eauto.
  - rewrite lookup_insert_ne, lookup_singleton_ne by done. done.
Qed.

End Zod.

Section Poison.
Context `{DT : !DateText} (is_email is_uuid : string → bool) (PayerId_parse : string → PayerId).
Context (fresh_id : Z → string).

(** C3: If [decide] records [EmailSent] with an e-mail address that the
    schema rejects (the payer profile's address is written unchecked, line
    62), the append succeeds, but from then on every load of the stream
    without a cache entry throws [UpcastValidationError]: no process that
    starts afresh can read or act on that invoice again. *)
Theorem invalid_email_poisons_stream {C} store cache sn (ctx : C) expected st evs email pid
    v' st' store' cache' :
  is_email email = false →
  decode_from (typed_codec (C := C) is_email is_uuid PayerId_parse) fresh_id 0 (log_of store sn) = Ok evs →
  sync (typed_codec is_email is_uuid PayerId_parse) fold store cache sn ctx expected st
    [EmailSentEv (mkEmailSent email pid)] = (Written v' st', store', cache') →
  load (typed_codec (C := C) is_email is_uuid PayerId_parse) fold initial fresh_id RequireLoad store' ∅ sn
  = Err (UpcastValidationError "EmailSent").
Proof.
  intros Hm Hdec Hs. apply sync_written in Hs as (_ & _ & _ & -> & _).
  (* the appended event is written as is, and reading it back throws *)
  assert (Hd : ∀ fresh idx,
    tryDecode (typed_codec (C := C) is_email is_uuid PayerId_parse)
      (to_timeline fresh idx (Types.encode (typed_codec is_email is_uuid PayerId_parse)
                                (EmailSentEv (mkEmailSent email pid)) ctx))
    = Err (UpcastValidationError "EmailSent")).
  { intros fresh idx. cbn [typed_codec tryDecode Types.encode]. unfold codec.
    rewrite upcast_json_decode_encode by apply to_js_wf.
    cbn [to_js ae_type ae_data]. rewrite lookup_insert_eq. simpl.
    by rewrite (zod_string_rejects _ _ "email" email). }
  unfold load. rewrite lookup_empty, log_of_insert, decide_True by done.
  rewrite decode_from_app, Hdec, bind_Ok. cbn [List.map].
  unfold decode_from. cbn [timeline_from collect_defined]. by rewrite Hd.
Qed.

End Poison.

(** ** Witnesses: an address is valid when it has an [@]; every payer id is
    a valid uuid and [PayerId.parse] is the identity. *)
Definition demo_is_email (s : string) : bool :=
  bool_decide ("@"%char ∈ String.list_ascii_of_string s).
Definition demo_is_uuid (_ : string) : bool := true.
Definition demo_codec {C} : Codec Event string C :=
  typed_codec demo_is_email demo_is_uuid (λ p, p).
Definition demo_sent : Event := EmailSentEv (mkEmailSent "payer@example.com" "p-1").
Definition demo_bad : Event := EmailSentEv (mkEmailSent "payer.example.com" "p-1").

Lemma typed_codec_roundtrip_witness :
  (∀ p, demo_is_uuid p = true → (λ p : string, p) p = p) ∧
  event_valid demo_is_email demo_is_uuid demo_sent = true ∧
  tryDecode (demo_codec (C := unit)) (to_timeline "id-1" 0 (Types.encode demo_codec demo_sent ())) =
  Ok (Some demo_sent).
Proof.
  assert (Hp : ∀ p, demo_is_uuid p = true → (λ p : string, p) p = p) by done.
  assert (Hv : event_valid demo_is_email demo_is_uuid demo_sent = true) by (vm_compute; reflexivity).
  split; [exact Hp|]. split; [exact Hv|].
  exact (typed_codec_roundtrip demo_is_email demo_is_uuid (λ p, p) demo_sent () "id-1" 0 Hp Hv).
Defined.

Lemma invalid_email_poisons_stream_witness :
  let sn := stream_name "inv-1" in
  demo_is_email "payer.example.com" = false ∧
  decode_from (demo_codec (C := unit)) (λ _, "id") 0 (log_of (∅ : gmap string (list (StreamEvent string))) sn) = Ok [] ∧
  sync (demo_codec (C := unit)) fold ∅ ∅ sn () (-1) None [demo_bad] =
    (Written 0 (Some demo_bad),
     <[sn := [Types.encode (demo_codec (C := unit)) demo_bad ()]]> ∅,
     <[sn := mkCacheEntry 0 (Some demo_bad)]> ∅) ∧
  load (demo_codec (C := unit)) fold initial (λ _, "id") RequireLoad
    (<[sn := [Types.encode (demo_codec (C := unit)) demo_bad ()]]> ∅) ∅ sn
  = Err (UpcastValidationError "EmailSent").
Proof.
  intros sn.
  assert (Hm : demo_is_email "payer.example.com" = false) by (vm_compute; reflexivity).
  assert (Hd : decode_from (demo_codec (C := unit)) (λ _, "id") 0
                 (log_of (∅ : gmap string (list (StreamEvent string))) sn) = Ok []) by reflexivity.
  assert (Hs : sync (demo_codec (C := unit)) fold ∅ ∅ sn () (-1) None [demo_bad] =
    (Written 0 (Some demo_bad),
     <[sn := [Types.encode (demo_codec (C := unit)) demo_bad ()]]> ∅,
     <[sn := mkCacheEntry 0 (Some demo_bad)]> ∅)) by (vm_compute; reflexivity).
  split; [exact Hm|]. split; [exact Hd|]. split; [exact Hs|].
  exact (invalid_email_poisons_stream demo_is_email demo_is_uuid (λ p, p) (λ _, "id")
           ∅ ∅ sn () (-1) None [] "payer.example.com" "p-1" _ _ _ _ Hm Hd Hs).
Defined.

Lemma decoded_events_typed_witness :
  tryDecode (demo_codec (C := unit)) (to_timeline "id-1" 0 (Types.encode demo_codec demo_sent ())) =
    Ok (Some demo_sent) ∧
  event_type demo_sent = te_type (to_timeline "id-1" 0 (Types.encode (demo_codec (C := unit)) demo_sent ())) ∧
  demo_is_email "payer@example.com" = true ∧
  ∃ p, demo_is_uuid p = true ∧ "p-1" = (λ p : string, p) p.
Proof.
  assert (Hd : tryDecode (demo_codec (C := unit)) (to_timeline "id-1" 0 (Types.encode demo_codec demo_sent ())) =
    Ok (Some demo_sent)) by (vm_compute; reflexivity).
  split; [exact Hd|].
  exact (decoded_events_typed demo_is_email demo_is_uuid (λ p, p) _ demo_sent Hd).
Defined.

End InvoiceCodec.
