(* ===== verification/InvoiceService.v ===== *)
(** * The invoice auto-emailer's [Service] and its two configurations
    ([apps/example/src/domain/invoice-auto-emailer.ts], lines 40-96)

    [Service.create] builds the payer service and the mailer, and resolves
    the category by the configured store: the memory store reads whole
    streams, the Message DB category is created with [createLatestKnown]
    and reads the last event only.  [first_attempt] is what a
    [sendEmail] call of a process with an empty cache decides on its first
    attempt.  The two configurations load alike every stream whose last
    event the codec knows ([LatestKnown.latest_known_agrees]); on a stream
    that ends with an event of another type after [EmailSent], the Message
    DB configuration sends the invoice e-mail again
    ([messagedb_config_resends]). *)

From S2P Require Import Prelude Types Json Codec Category Decider LatestKnown InvoiceAutoEmailer InvoiceCodec.

Module InvoiceService.
Import InvoiceAutoEmailer.

(** [Config.Store] and [Config.Config] ([config/equinox.ts], not under
    [src/]): only the store the configuration names matters here. *)
Inductive Store := Memory | MessageDb.
Record Config := mkConfig { config_store : Store }.

(** A category as the service sees it: its name and access strategy. *)
Record Category := mkCategory { category_name : string; category_access : AccessStrategy }.

(** [Service.resolveCategory] (lines 80-87). *)
Definition resolveCategory (config : Config) : Category :=
  match config_store config with
  | Memory => mkCategory CATEGORY Unoptimized
  | MessageDb => mkCategory CATEGORY LatestKnownEvent
  end.

(** [Decider.forStream(category, streamId, context)]: the decider of the
    stream [category-streamId]. *)
Record Decider := mkDecider { decider_category : Category; decider_stream : string }.
Definition forStream (category : Category) (sid : string) : Decider :=
  mkDecider category (stream_name_create (category_name category) sid).

(** The fields the constructor takes (lines 40-45). *)
Record Service := mkService {
  payerService : PayerId → result (option Payer);
  mailer : Email → MailOutcome;
  resolve : InvoiceId → Decider
}.

Section Create.
(** [Payer.Service.create(config)] and [new EmailSender()] ([payer.ts] and
    [send-email.ts], not under [src/]). *)
Context (Payer_Service_create : Config → PayerId → result (option Payer)).
Context (EmailSender : Email → MailOutcome).

(** [Service.create] (lines 89-96): [emailSender ?? new EmailSender()]. *)
Definition create (config : Config) (emailSender : option (Email → MailOutcome)) : Service :=
  let payerService := Payer_Service_create config in
  let emailer := default EmailSender emailSender in
  let category := resolveCategory config in
  let resolve := λ id, forStream category (streamId id) in
  mkService payerService emailer resolve.

(** [service.sendEmail] (lines 47-49) as the engine runs it. *)
Definition service_sendEmail (svc : Service) (invoiceId : InvoiceId) (payerId : PayerId) (amount : Z)
    : @Txn Event unit State (Email * MailOutcome) :=
  transact (decider_stream (resolve svc invoiceId)) tt
    (sendEmail_decide (payerService svc) (mailer svc) payerId amount) RequireLoad.

Section FirstAttempt.
Context {F : Type} (codec : Codec Event F unit) (fresh_id : Z → string).

(** The first attempt of [service.sendEmail] in a process whose cache is
    empty: load by the category's access strategy, then decide. *)
Definition first_attempt (svc : Service) (store : gmap string (list (StreamEvent F)))
    (invoiceId : InvoiceId) (payerId : PayerId) (amount : Z)
    : result (list (Email * MailOutcome) * result (list Event)) :=
  let d := resolve svc invoiceId in
  '(_, st) ← load_with codec fold initial fresh_id (category_access (decider_category d))
               RequireLoad store ∅ (decider_stream d);
  Ok (sendEmail_decide (payerService svc) (mailer svc) payerId amount st).

(** ** Lemmas *)
Global Instance fold_last_determined_inv : LastDetermined fold initial.
Proof. split; [done|]. intros s evs x Hx. unfold fold. by rewrite Hx. Qed.

Lemma create_stream config es inv : decider_stream (resolve (create config es) inv) = stream_name inv.
Proof. by destruct config as [[]]. Qed.

(** The service [create] builds runs the transactions of [sendEmail]. *)
Lemma create_sendEmail config es inv p a :
  service_sendEmail (create config es) inv p a =
  sendEmail (Payer_Service_create config) (default EmailSender es) inv p a.
Proof. unfold service_sendEmail, sendEmail. by rewrite create_stream. Qed.

(** C5: A stream holding [EmailSent] and, after it, an event of a type
    the codec does not know: the service of the memory configuration sends
    nothing, the service of the Message DB configuration (which loads the
    last event only and so sees the initial state) calls the mailer again
    for the payer. *)
Theorem messagedb_config_resends es store inv p a l e evs sent payer :
  log_of store (stream_name inv) = l ++ [e] →
  Category.decode_from codec fresh_id 0 l = Ok evs → last evs = Some (EmailSentEv sent) →
  Category.decode_from codec fresh_id (length l) [e] = Ok [] →
  Payer_Service_create (mkConfig MessageDb) p = Ok (Some payer) →
  first_attempt (create (mkConfig Memory) es) store inv p a = Ok ([], Ok []) ∧
  ∃ mail r, first_attempt (create (mkConfig MessageDb) es) store inv p a =
              Ok ([(mail, default EmailSender es mail)], r) ∧ mail_to mail = payer_email payer.
Proof.
  intros Hlog Hd Hlast He Hpay. unfold first_attempt. rewrite !create_stream. split.
  - cbn. unfold load. rewrite lookup_empty, Hlog, decode_from_app, Hd. simpl.
    rewrite He. simpl. unfold fold at 1. rewrite last_app. simpl. by rewrite Hlast.
  - cbn [create resolveCategory config_store resolve forStream decider_category category_access
         load_with payerService mailer].
    remember (default EmailSender es) as send eqn:Hsend.
    unfold load_latest. rewrite (read_last_snoc codec fresh_id _ _ _ _ Hlog), He. simpl.
    rewrite Hpay. set (mail := mkEmail _ _ _). exists mail.
    case_match; eexists; split; reflexivity.
Qed.
End FirstAttempt.
End Create.

(** ** Witnesses: the invoice codec with the validators of
    [InvoiceCodec], one payer, a mailer that always succeeds. *)
Definition demo_codec : Codec Event string unit := InvoiceCodec.demo_codec.
Definition demo_payers (_ : Config) (_ : PayerId) : result (option Payer) := Ok (Some (mkPayer "payer@example.com")).
Definition demo_sender (_ : Email) : MailOutcome := MailSent.
Definition demo_foreign : StreamEvent string := mkStreamEvent None "InvoiceReminderScheduled" (Some "{}") None.
Definition sent_log : list (StreamEvent string) := [Types.encode demo_codec InvoiceCodec.demo_sent ()].
Definition sent_store : gmap string (list (StreamEvent string)) := {[ stream_name "inv-1" := sent_log ]}.
Definition foreign_store : gmap string (list (StreamEvent string)) :=
  {[ stream_name "inv-1" := sent_log ++ [demo_foreign] ]}.

(** The fold of lines 37-38 is [fold_last] of this [evolve]. *)
Definition demo_evolve (_ : State) (e : Event) : State := Some e.

Lemma latest_known_agrees_witness :
  (∀ s1 s2 e, demo_evolve s1 e = demo_evolve s2 e) ∧
  load demo_codec (fold_last demo_evolve) initial (λ _, "id") RequireLoad sent_store ∅ (stream_name "inv-1") =
    Ok (0%Z, Some InvoiceCodec.demo_sent,
        <[stream_name "inv-1" := mkCacheEntry 0%Z (Some InvoiceCodec.demo_sent)]> ∅) ∧
  last_is_foreign demo_codec (λ _, "id") sent_store (stream_name "inv-1") = false ∧
  load_with demo_codec (fold_last demo_evolve) initial (λ _, "id") LatestKnownEvent RequireLoad sent_store ∅
    (stream_name "inv-1") = Ok (0%Z, Some InvoiceCodec.demo_sent).
Proof.
  assert (H0 : ∀ s1 s2 e, demo_evolve s1 e = demo_evolve s2 e) by done.
  assert (H1 : load demo_codec (fold_last demo_evolve) initial (λ _, "id") RequireLoad sent_store ∅
                 (stream_name "inv-1") =
    Ok (0%Z, Some InvoiceCodec.demo_sent,
        <[stream_name "inv-1" := mkCacheEntry 0%Z (Some InvoiceCodec.demo_sent)]> ∅))
    by (vm_compute; reflexivity).
  assert (H2 : last_is_foreign demo_codec (λ _, "id") sent_store (stream_name "inv-1") = false)
    by (vm_compute; reflexivity).
  split; [exact H0|]. split; [exact H1|]. split; [exact H2|].
  exact (latest_known_agrees demo_codec demo_evolve initial (λ _, "id") RequireLoad sent_store _ _ _ _
           H0 H1 H2).
Defined.

Lemma messagedb_config_resends_witness :
  log_of foreign_store (stream_name "inv-1") = sent_log ++ [demo_foreign] ∧
  Category.decode_from demo_codec (λ _, "id") 0 sent_log = Ok [InvoiceCodec.demo_sent] ∧
  last [InvoiceCodec.demo_sent] = Some InvoiceCodec.demo_sent ∧
  Category.decode_from demo_codec (λ _, "id") (length sent_log) [demo_foreign] = Ok [] ∧
  demo_payers (mkConfig MessageDb) "p-1" = Ok (Some (mkPayer "payer@example.com")) ∧
  first_attempt demo_codec (λ _, "id") (create demo_payers demo_sender (mkConfig Memory) None)
    foreign_store "inv-1" "p-1" 100 = Ok ([], Ok []) ∧
  ∃ mail r, first_attempt demo_codec (λ _, "id")
              (create demo_payers demo_sender (mkConfig MessageDb) None) foreign_store "inv-1" "p-1" 100 =
            Ok ([(mail, default demo_sender None mail)], r) ∧ mail_to mail = "payer@example.com".
Proof.
  assert (H1 : log_of foreign_store (stream_name "inv-1") = sent_log ++ [demo_foreign])
    by (vm_compute; reflexivity).
  assert (H2 : Category.decode_from demo_codec (λ _, "id") 0 sent_log = Ok [InvoiceCodec.demo_sent])
    by (vm_compute; reflexivity).
  assert (H3 : last [InvoiceCodec.demo_sent] = Some InvoiceCodec.demo_sent) by reflexivity.
  assert (H4 : Category.decode_from demo_codec (λ _, "id") (length sent_log) [demo_foreign] = Ok [])
    by (vm_compute; reflexivity).
  assert (H5 : demo_payers (mkConfig MessageDb) "p-1" = Ok (Some (mkPayer "payer@example.com"))) by reflexivity.
  split_and!; [exact H1|exact H2|exact H3|exact H4|exact H5|..];
  destruct (messagedb_config_resends demo_payers demo_sender demo_codec (λ _, "id") None foreign_store
              "inv-1" "p-1" 100 _ _ _ _ _ H1 H2 H3 H4 H5) as [Hm Hx]; [exact Hm|exact Hx].
Defined.

End InvoiceService.
