(* ===== verification/ContactPreferencesWire.v ===== *)
(** * The contact-preferences service on the wire
    ([apps/store-integration/src/domain/ContactPreferences.ts], lines 15-68)

    The service's codec is [Codec.json<Event>()] (line 24): it parses the
    payload and hands the fold the parsed object, whatever its [type], with
    no validation.  [evolve] (lines 33-38) is a [switch] with one case and
    no default, and [fold] (line 39) evolves only the last event.  This file
    runs the service on JavaScript values: the state is [undefined] or a
    value, and a [TypeError] thrown by [e.data.preferences] is an [Err].
    [Decide.update] compares with ramda's [equals] ([js_equals]).

    The typed model of [ContactPreferences] is what this one computes on
    the streams the service writes ([wire_service_refines]); a stream
    holding an event of another type, or one without a payload, reads back
    as something no [Preferences] is. *)

From S2P Require Import Prelude Types Json Codec JsonCodec Category Decider ContactPreferences.

Module ContactPreferencesWire.
Import ContactPreferences.

(** ** Ramda's [equals] on JSON values: same kind; arrays element by
    element; objects with as many keys, each key of the first one present
    in the second with an equal value (key order does not matter). *)
Fixpoint js_equals (a b : jsval) : bool :=
  match a, b with
  | JNull, JNull => true
  | JBool x, JBool y => Bool.eqb x y
  | JNum x, JNum y => Z.eqb x y
  | JStr x, JStr y => bool_decide (x = y)
  | JDate x, JDate y => Z.eqb x y
  | JArr xs, JArr ys =>
      (fix go xs ys :=
         match xs, ys with
         | [], [] => true
         | x :: xs', y :: ys' => js_equals x y && go xs' ys'
         | _, _ => false
         end) xs ys
  | JObj fs, JObj gs =>
      (length fs =? length gs) &&
      forallb (λ '(k, x),
        match (λ p, p.2.2) <$> list_find (λ kv, kv.1 = k) gs with
        | Some y => js_equals x y
        | None => false
        end) fs
  | _, _ => false
  end.

(** [equals(a, state)] with [state] possibly [undefined]. *)
Definition js_equals_opt (a : jsval) (b : option jsval) : bool :=
  match b with Some y => js_equals a y | None => false end.

Section Wire.
Context `{DT : !DateText}.
Context (fresh_id : Z → string) (sha256_hex : string → string).

(** The JavaScript objects of [Preferences], [Value] and [Event] (lines
    15-23), with their keys in the order the object literals write them. *)
Definition preferences_js (p : Preferences) : jsval :=
  JObj [("manyPromotions", JBool (manyPromotions p));
        ("littlePromotions", JBool (littlePromotions p));
        ("productReview", JBool (productReview p));
        ("quickSurveys", JBool (quickSurveys p))].

Definition value_js (v : Value) : jsval :=
  JObj [("email", JStr (email v)); ("preferences", preferences_js (preferences v))].

Definition event_js (e : Event) : AnyEvent jsval :=
  match e with
  | ContactPreferencesChanged v => mkAnyEvent None "ContactPreferencesChanged" None (Some (value_js v)) None
  end.

(** [codec] (line 24). *)
Definition codec : Codec (AnyEvent jsval) string unit := json.

(** The state as the program holds it: [undefined] ([None]) or a value;
    [Err] is what reading [e.data.preferences] threw. *)
Definition JState : Type := result (option jsval).

(** [initial] (lines 27-32). *)
Definition initial_js : JState := Ok (Some (preferences_js initial)).

(** [evolve] (lines 33-38): the [switch] falls through for any other
    [type], and the arrow function returns [undefined]. *)
Definition evolve_js (_ : JState) (e : AnyEvent jsval) : JState :=
  if bool_decide (ae_type e = "ContactPreferencesChanged")
  then js_get (ae_data e) "preferences"
  else Ok None.

(** [fold] (line 39). *)
Definition fold_js : JState → list (AnyEvent jsval) → JState := fold_last evolve_js.

(** [Decide.update] (lines 44-49); a state that threw makes [transact]
    throw before [decide] runs. *)
Definition update_js (value : Value) (state : JState)
    : list Empty_set * result (list (AnyEvent jsval)) :=
  match state with
  | Err e => ([], Err e)
  | Ok st =>
      if js_equals_opt (preferences_js (preferences value)) st then ([], Ok [])
      else ([], Ok [event_js (ContactPreferencesChanged value)])
  end.

(** [Service.update], [Service.read], [Service.readStale] (lines 55-68). *)
Definition service_update_js (client : ClientId) (value : Preferences)
    : @Txn (AnyEvent jsval) unit JState Empty_set :=
  transact (stream_name sha256_hex client) tt (update_js (mkValue client value)) RequireLoad.

Definition service_read_js store cache (client : ClientId) :=
  query codec fold_js initial_js fresh_id RequireLoad (λ x, x) store cache
    (stream_name sha256_hex client).

Definition service_readStale_js store cache (client : ClientId) :=
  query codec fold_js initial_js fresh_id AnyCachedValue (λ x, x) store cache
    (stream_name sha256_hex client).

(** What the service appends for a typed event. *)
Definition written (e : Event) : StreamEvent string := Types.encode codec (event_js e) ().

Lemma js_equals_preferences p q :
  js_equals (preferences_js p) (preferences_js q) = bool_decide (p = q).
Proof.
  destruct p as [a b c d], q as [a' b' c' d'].
  destruct a, b, c, d, a', b', c', d'; vm_compute; reflexivity.
Qed.

Lemma value_js_wf v : json_wf (value_js v) = true ∧ plain (value_js v) = true.
Proof. by destruct v as [m [a b c d]]. Qed.

(** Reading back what the service wrote: one object of the service's type
    per event, with the payload it wrote. *)
Lemma decode_written pos evs :
  ∃ devs, decode_from codec fresh_id pos (map written evs) = Ok devs ∧
    Forall2 (λ e d, ae_type d = "ContactPreferencesChanged" ∧ ae_data d = ae_data (event_js e)) evs devs.
Proof.
  revert pos. induction evs as [|[v] evs IH]; intros pos; [by exists []|].
  destruct (IH (S pos)) as (devs & Hd & HF).
  unfold decode_from in *. cbn [map timeline_from collect_defined].
  unfold written, codec in *. rewrite json_decode_encode.
  - rewrite bind_Ok, Hd, bind_Ok. eexists; split; [done|].
    constructor; [|done]. split; [done|]. cbn [ae_data event_js read_back truthy].
    by rewrite normalize_plain by apply value_js_wf.
  - intros x [Hx|Hx]; simpl in Hx; simplify_eq. apply value_js_wf.
Qed.

(** [evolve] on an object the service wrote reads its preferences. *)
Lemma evolve_js_written e d t1 t2 :
  ae_type d = "ContactPreferencesChanged" ∧ ae_data d = ae_data (event_js e) →
  evolve_js t2 d = Ok (Some (preferences_js (evolve t1 e))).
Proof.
  intros [Ht Hd]. unfold evolve_js. rewrite Ht, bool_decide_true by done.
  rewrite Hd. by destruct e.
Qed.

(** The state a process without a cache entry reads, given the log. *)
Lemma service_read_js_fresh store client evs :
  log_of store (stream_name sha256_hex client) = map written evs →
  ∃ cache', service_read_js store ∅ client = Ok (Ok (Some (preferences_js (fold initial evs))), cache').
Proof.
  intros Hlog. destruct (decode_written 0 evs) as (devs & Hd & HF).
  unfold service_read_js, query, load. rewrite lookup_empty, Hlog, Hd. simpl.
  eexists. do 3 f_equal.
  unfold fold_js, fold.
  apply (fold_last_Forall2 _ (λ p, Ok (Some (preferences_js p))) _ _ _ _ _ _ evolve_js_written);
    [done|exact HF].
Qed.

(** C13: On a stream the service wrote, the program on JavaScript values
    computes what the typed model does: a process without a cache entry
    reads the JavaScript object of the typed fold's preferences, and
    [Decide.update] on the state it read returns the JavaScript objects of
    the typed decision. *)
Theorem wire_service_refines store client evs :
  log_of store (stream_name sha256_hex client) = map written evs →
  ∃ st cache', service_read_js store ∅ client = Ok (st, cache') ∧
    st = Ok (Some (preferences_js (fold initial evs))) ∧
    ∀ v, update_js v st = ([], Ok (event_js <$> update v (fold initial evs))).
Proof.
  intros Hlog. destruct (service_read_js_fresh _ _ _ Hlog) as [cache' Hr].
  eexists _, cache'. split_and!; [exact Hr|done|]. intros v.
  unfold update_js, update. cbn [js_equals_opt]. rewrite js_equals_preferences.
  case_decide; [rewrite bool_decide_true by done|rewrite bool_decide_false by done]; done.
Qed.

(** Reading back an event whose payloads parse. *)
Lemma decode_one pos se d m :
  parse_payload (se_data se) = Ok d → parse_payload (se_meta se) = Ok m →
  decode_from codec fresh_id pos [se] =
    Ok [mkAnyEvent None (se_type se) None d m].
Proof. intros Hd Hm. unfold decode_from, codec. cbn. by rewrite Hd, Hm. Qed.

(** A process without a cache entry folds the last event of the stream. *)
Lemma load_js_last store client evs se d m :
  log_of store (stream_name sha256_hex client) = map written evs ++ [se] →
  parse_payload (se_data se) = Ok d → parse_payload (se_meta se) = Ok m →
  ∃ cache', load codec fold_js initial_js fresh_id RequireLoad store ∅ (stream_name sha256_hex client) =
    Ok (stream_version store (stream_name sha256_hex client),
        evolve_js initial_js (mkAnyEvent None (se_type se) None d m), cache').
Proof.
  intros Hlog Hd Hm. destruct (decode_written 0 evs) as (devs & Hdevs & _).
  unfold load, stream_version. rewrite lookup_empty, Hlog, decode_from_app, Hdevs, bind_Ok.
  rewrite length_map, (decode_one _ _ _ _ Hd Hm). simpl.
  eexists. unfold fold_js, fold_last. by rewrite last_app.
Qed.

Section Engine.
Context (max_attempts : nat).
Abbreviation js_step := (txn_step codec fold_js initial_js fresh_id max_attempts).

(** C12: An event of another type last in a client's stream (the codec
    decodes every type, and [evolve]'s [switch] has no default) makes a
    process without a cache entry read [undefined] as the client's
    preferences, which no [Preferences] is; and every [Service.update] of
    the client, whatever the preferences asked for, run to its end,
    appends a [ContactPreferencesChanged] event. *)
Theorem foreign_event_reads_undefined store client evs se d m :
  log_of store (stream_name sha256_hex client) = map written evs ++ [se] →
  se_type se ≠ "ContactPreferencesChanged" →
  parse_payload (se_data se) = Ok d → parse_payload (se_meta se) = Ok m →
  (∃ cache', service_read_js store ∅ client = Ok (Ok None, cache')) ∧
  ∀ value w', rtc js_step (mkWorld store ∅ [] [service_update_js client value] []) w' →
    Forall (λ t, is_done t = true) (w_txns w') →
    log_of (w_store w') (stream_name sha256_hex client) =
      log_of store (stream_name sha256_hex client) ++ [written (ContactPreferencesChanged (mkValue client value))].
Proof.
  intros Hlog Ht Hd Hm. destruct (load_js_last _ _ _ _ _ _ Hlog Hd Hm) as [cache1 Hl].
  unfold evolve_js at 1 in Hl. rewrite bool_decide_false in Hl by done.
  split; [unfold service_read_js, query; rewrite Hl; by eexists|].
  intros value w' Hr Hdone.
  assert (Hrun : ∃ wf, rtc js_step (mkWorld store ∅ [] [service_update_js client value] []) wf ∧
    Forall (λ t, is_done t = true) (w_txns wf) ∧
    log_of (w_store wf) (stream_name sha256_hex client) =
      log_of store (stream_name sha256_hex client) ++ [written (ContactPreferencesChanged (mkValue client value))]).
  { eexists. split_and!.
    - eapply rtc_l; [eapply (TsLoad _ _ _ _ _ _ _ _ _ _ 0); [done|done|exact Hl]|].
      eapply rtc_l; [eapply (TsDecide _ _ _ _ _ _ _ _ _ _ 0); [done|done|reflexivity|done]|].
      eapply rtc_l; [eapply (TsWritten _ _ _ _ _ _ _ _ _ _ 0); [done|done|]|]; [|apply rtc_refl].
      unfold sync, stream_version. rewrite decide_True by done. reflexivity.
    - by repeat constructor.
    - cbn [w_store]. unfold log_of at 1. by rewrite lookup_insert_eq. }
  destruct Hrun as (wf & Hrf & Hdf & Hlf).
  assert (w' = wf) as -> by (refine (single_txn_final_unique _ _ _ _ _ _ _ _ _ Hr Hdone Hrf Hdf); done).
  exact Hlf.
Qed.

(** C20: An event of the service's type written without a payload, last in
    a client's stream, makes [e.data.preferences] throw a [TypeError]: a
    process without a cache entry cannot read the client, and every
    [Service.update] of the client, run to its end, throws the same
    [TypeError] and appends nothing, so the stream cannot be repaired
    through the service. *)
Theorem missing_payload_blocks_client store client evs se m :
  log_of store (stream_name sha256_hex client) = map written evs ++ [se] →
  se_type se = "ContactPreferencesChanged" → se_data se = None →
  parse_payload (se_meta se) = Ok m →
  (∃ cache', service_read_js store ∅ client = Ok (Err (UserError "TypeError"), cache')) ∧
  ∀ value w', rtc js_step (mkWorld store ∅ [] [service_update_js client value] []) w' →
    Forall (λ t, is_done t = true) (w_txns w') →
    w_txns w' = [with_pc (service_update_js client value) (TxDone (Err (UserError "TypeError")))] ∧
    w_store w' = store.
Proof.
  intros Hlog Ht Hd Hm.
  assert (Hd' : parse_payload (se_data se) = Ok None) by (by rewrite Hd).
  destruct (load_js_last _ _ _ _ _ _ Hlog Hd' Hm) as [cache1 Hl].
  unfold evolve_js at 1 in Hl. rewrite bool_decide_true in Hl by done.
  split; [unfold service_read_js, query; rewrite Hl; by eexists|].
  intros value w' Hr Hdone.
  assert (Hrun : rtc js_step (mkWorld store ∅ [] [service_update_js client value] [])
    (mkWorld store cache1 [] [with_pc (service_update_js client value) (TxDone (Err (UserError "TypeError")))] [])).
  { eapply rtc_l; [eapply (TsLoad _ _ _ _ _ _ _ _ _ _ 0); [done|done|exact Hl]|].
    eapply rtc_l; [eapply (TsDecideErr _ _ _ _ _ _ _ _ _ _ 0); [done|done|reflexivity]|].
    apply rtc_refl. }
  assert (w' = mkWorld store cache1 [] [with_pc (service_update_js client value)
                                         (TxDone (Err (UserError "TypeError")))] []) as ->
    by (refine (single_txn_final_unique _ _ _ _ _ _ _ _ _ Hr Hdone Hrun _); [done|by repeat constructor]).
  done.
Qed.

End Engine.

End Wire.
(** ** Witnesses: client ["alice"], her stream named by the identity hash. *)
Definition demo_prefs : Preferences := mkPreferences true false true false.
Definition demo_evs : list Event := [ContactPreferencesChanged (mkValue "alice" demo_prefs)].
Definition demo_sn : string := stream_name (λ x, x) "alice".
Definition demo_foreign : StreamEvent string := mkStreamEvent None "Other" (Some "{}") None.
Definition demo_bare : StreamEvent string := mkStreamEvent None "ContactPreferencesChanged" None None.
Definition demo_log (extra : list (StreamEvent string)) : gmap string (list (StreamEvent string)) :=
  {[ demo_sn := map written demo_evs ++ extra ]}.

Lemma demo_log_of extra : log_of (demo_log extra) demo_sn = map written demo_evs ++ extra.
Proof. unfold log_of, demo_log. by rewrite lookup_singleton_eq. Qed.

Lemma wire_service_refines_witness :
  log_of (demo_log []) (stream_name (λ x, x) "alice") = map written demo_evs ∧
  ∃ st cache', service_read_js (λ _, "id") (λ x, x) (demo_log []) ∅ "alice" = Ok (st, cache') ∧
    st = Ok (Some (preferences_js (fold initial demo_evs))) ∧
    ∀ v, update_js v st = ([], Ok (event_js <$> update v (fold initial demo_evs))).
Proof.
  assert (Hl : log_of (demo_log []) (stream_name (λ x, x) "alice") = map written demo_evs)
    by (rewrite demo_log_of; apply app_nil_r).
  split; [exact Hl|]. exact (wire_service_refines (λ _, "id") (λ x, x) _ "alice" demo_evs Hl).
Defined.

Lemma foreign_event_reads_undefined_witness :
  log_of (demo_log [demo_foreign]) (stream_name (λ x, x) "alice") = map written demo_evs ++ [demo_foreign] ∧
  se_type demo_foreign ≠ "ContactPreferencesChanged" ∧
  parse_payload (se_data demo_foreign) = Ok (Some (JObj [])) ∧
  parse_payload (se_meta demo_foreign) = Ok None ∧
  (∃ cache', service_read_js (λ _, "id") (λ x, x) (demo_log [demo_foreign]) ∅ "alice" = Ok (Ok None, cache')) ∧
  ∀ value w', rtc (txn_step codec fold_js initial_js (λ _, "id") 3)
                (mkWorld (demo_log [demo_foreign]) ∅ [] [service_update_js (λ x, x) "alice" value] []) w' →
    Forall (λ t, is_done t = true) (w_txns w') →
    log_of (w_store w') (stream_name (λ x, x) "alice") =
      log_of (demo_log [demo_foreign]) (stream_name (λ x, x) "alice") ++
        [written (ContactPreferencesChanged (mkValue "alice" value))].
Proof.
  assert (Hl : log_of (demo_log [demo_foreign]) (stream_name (λ x, x) "alice")
               = map written demo_evs ++ [demo_foreign]) by apply demo_log_of.
  assert (Ht : se_type demo_foreign ≠ "ContactPreferencesChanged") by discriminate.
  assert (Hd : parse_payload (se_data demo_foreign) = Ok (Some (JObj []))) by (vm_compute; reflexivity).
  assert (Hm : parse_payload (se_meta demo_foreign) = Ok None) by reflexivity.
  split_and!; [exact Hl|exact Ht|exact Hd|exact Hm|..];
  destruct (foreign_event_reads_undefined (λ _, "id") (λ x, x) 3 _ "alice" demo_evs demo_foreign _ _ Hl Ht Hd Hm)
    as [H1 H2]; [exact H1|exact H2].
Defined.

Lemma missing_payload_blocks_client_witness :
  log_of (demo_log [demo_bare]) (stream_name (λ x, x) "alice") = map written demo_evs ++ [demo_bare] ∧
  se_type demo_bare = "ContactPreferencesChanged" ∧ se_data demo_bare = None ∧
  parse_payload (se_meta demo_bare) = Ok None ∧
  (∃ cache', service_read_js (λ _, "id") (λ x, x) (demo_log [demo_bare]) ∅ "alice"
               = Ok (Err (UserError "TypeError"), cache')) ∧
  ∀ value w', rtc (txn_step codec fold_js initial_js (λ _, "id") 3)
                (mkWorld (demo_log [demo_bare]) ∅ [] [service_update_js (λ x, x) "alice" value] []) w' →
    Forall (λ t, is_done t = true) (w_txns w') →
    w_txns w' = [with_pc (service_update_js (λ x, x) "alice" value) (TxDone (Err (UserError "TypeError")))] ∧
    w_store w' = demo_log [demo_bare].
Proof.
  assert (Hl : log_of (demo_log [demo_bare]) (stream_name (λ x, x) "alice")
               = map written demo_evs ++ [demo_bare]) by apply demo_log_of.
  assert (Ht : se_type demo_bare = "ContactPreferencesChanged") by reflexivity.
  assert (Hd : se_data demo_bare = None) by reflexivity.
  assert (Hm : parse_payload (se_meta demo_bare) = Ok None) by reflexivity.
  split_and!; [exact Hl|exact Ht|exact Hd|exact Hm|..];
  destruct (missing_payload_blocks_client (λ _, "id") (λ x, x) 3 _ "alice" demo_evs demo_bare _ Hl Ht Hd Hm)
    as [H1 H2]; [exact H1|exact H2].
Defined.

End ContactPreferencesWire.
